(** * libz: the asynchronous execution core, embedded in Rocq

    The development follows the C++ sources:
    - [base/error.h], [base/error.cc]        : module [Err]
    - [base/timer-wheel.h], [timer-wheel.cc] : module [Wheel]
    - [event/timer-event.h]                  : module [TimerEv]
    - [event/promise.h], [event/coroutine.h] : module [Prom]

    Part I gives the embedding (data, operations, and the predicates the
    statements are written with); Part II holds the lemmas and theorems. *)

From Stdlib Require Import ZArith List Lia Bool String Sorted Permutation.
From stdpp Require Import base functions gmap list strings sorting.
Import ListNotations.
Local Open Scope Z_scope.

(* ================================================================== *)
(** * Part I. The embedding                                            *)
(* ================================================================== *)

(* ------------------------------------------------------------------ *)
(** ** Outcomes of the embedded operations                             *)
(* ------------------------------------------------------------------ *)

(** An operation either returns or faults: an array indexed out of range,
    a loop or recursion that did not finish within the fuel it was given,
    or the process dying ([Die], a failed [CHECK], a null dereference). *)
Inductive fault := OutOfRange | OutOfFuel | Aborted.

Inductive result (A : Type) :=
| Done (a : A)
| Fault (f : fault).
Arguments Done {A} a.
Arguments Fault {A} f.

Definition bind {A B} (r : result A) (k : A -> result B) : result B :=
  match r with
  | Done a => k a
  | Fault f => Fault f
  end.

Notation "x <- c1 ;; c2" := (bind c1 (fun x => c2))
  (at level 100, c1 at next level, right associativity).

(* ------------------------------------------------------------------ *)
(** ** base/error.h, base/error.cc                                     *)
(* ------------------------------------------------------------------ *)

Module Err.

(** [Error::Category] objects are singletons compared by address; the
    embedding names them.  [nullptr] is [None]. *)
Inductive Category :=
| BoostErrorCategory
| SyscallErrorCategory
| GeneralErrorCategory (name : string)
| EventCategory.

#[global] Instance Category_eq_dec : EqDecision Category.
Proof. solve_decision. Defined.

Record Error := mkError {
  code_ : Z;
  category_ : option Category;
  message_ : option string
}.

#[global] Instance Error_eq_dec : EqDecision Error.
Proof. solve_decision. Defined.

Definition kNoErrorCode : Z := 0.

(** [Error()] *)
Definition Error_default : Error := mkError kNoErrorCode None None.
(** [Error(category, code)] *)
Definition Error_cc (c : Category) (code : Z) : Error := mkError code (Some c) None.
(** [Error(category, code, msg)] *)
Definition Error_ccm (c : Category) (code : Z) (msg : string) : Error :=
  mkError code (Some c) (Some msg).

Definition code (e : Error) : Z := code_ e.
Definition category (e : Error) : option Category := category_ e.
Definition Has (e : Error) : bool := bool_decide (category_ e <> None).
(** [operator bool] *)
Definition to_bool (e : Error) : bool := Has e.
Definition HasMessage (e : Error) : bool := bool_decide (message_ e <> None).

Definition GetBoostErrorCategory : Category := BoostErrorCategory.
Definition GetSyscallErrorCategory : Category := SyscallErrorCategory.

Definition IsSysError (e : Error) : bool :=
  bool_decide (category e = Some GetSyscallErrorCategory).
Definition IsBoostError (e : Error) : bool :=
  bool_decide (category e = Some GetBoostErrorCategory).

Definition MkSysError (sys_errno : Z) : Error :=
  Error_cc GetSyscallErrorCategory sys_errno.

(** Both overloads ([std::string&&] and [const std::string&]) have this body. *)
Definition MkBoostError (code : Z) (msg : string) : Error :=
  if code =? 0 then Error_default
  else Error_ccm GetBoostErrorCategory code msg.

(** [GetGeneralErrorCategory(category)]: one object per name, kept in a
    static map. *)
Definition GetGeneralErrorCategory (category : string) : Category :=
  GeneralErrorCategory category.

(** [MkGeneralError], both overloads. *)
Definition MkGeneralError (code : Z) (msg : string) (category : string) : Error :=
  Error_ccm (GetGeneralErrorCategory category) code msg.

End Err.

(* ------------------------------------------------------------------ *)
(** ** base/timer-wheel.h, base/timer-wheel.cc                         *)
(* ------------------------------------------------------------------ *)

Module Wheel.

(** [using Tick = std::uint64_t]: a [Z] in [0, 2^64), wrapped after every
    arithmetic operation. *)
Definition Tick := Z.
Definition wrap (z : Z) : Tick := z mod 2 ^ 64.

Definition kWidthBits : Z := 8.
Definition kNumLevels : Z := (64 + kWidthBits - 1) / kWidthBits.
Definition kMaxLevel : Z := kNumLevels - 1.
Definition kNumSlots : Z := Z.shiftl 1 kWidthBits.
Definition kMask : Z := kNumSlots - 1.
(** [std::numeric_limits<std::size_t>::max()], the default [max_execute]. *)
Definition size_max : Z := 2 ^ 64 - 1.

(** Event objects live outside the wheel and are referred to by address. *)
Definition EventId := nat.
(** [&slots_[level][slot_index]] *)
Definition SlotRef : Type := Z * Z.

(** [TimerEventBase].  The [next_]/[prev_] pointers of the intrusive list
    are represented by the position of the event in its slot's list. *)
Record TimerEventBase := mkEvent {
  scheduled_at_ : Tick;
  slot_ : option SlotRef
}.

(** [TimerWheel]: [now_[kNumLevels]], [ticks_pending_] and
    [slots_[kNumLevels][kNumSlots]]; a slot is its [events_] list read
    from the head.  The arrays are total functions of the index; the one
    place where the code can index past [kNumLevels] is checked in
    [level_walk]. *)
Record TimerWheel := mkWheel {
  now_ : Z -> Tick;
  ticks_pending_ : Tick;
  slots_ : SlotRef -> list EventId
}.

(** The wheel, the event objects it points to, and the record of the
    virtual callbacks: each [Execute()] appends the event and the tick
    [now()] it observes to [executed]; each [OnCancel(err)] appends the
    event and [Some err], each [OnAbort()] the event and [None], to
    [called_off]. *)
Record World := mkWorld {
  wheel : TimerWheel;
  events : EventId -> TimerEventBase;
  executed : list (EventId * Tick);
  called_off : list (EventId * option Err.Error)
}.

(** Accessors and in-place updates. *)
Definition now (w : World) (level : Z) : Tick := now_ (wheel w) level.
Definition pending (w : World) : Tick := ticks_pending_ (wheel w).
Definition slot (w : World) (r : SlotRef) : list EventId := slots_ (wheel w) r.
Definition scheduled_at (w : World) (e : EventId) : Tick := scheduled_at_ (events w e).
Definition link (w : World) (e : EventId) : option SlotRef := slot_ (events w e).

Definition set_now (level : Z) (t : Tick) (w : World) : World :=
  mkWorld (mkWheel (<[level := t]> (now_ (wheel w))) (ticks_pending_ (wheel w))
                   (slots_ (wheel w)))
          (events w) (executed w) (called_off w).

Definition set_pending (t : Tick) (w : World) : World :=
  mkWorld (mkWheel (now_ (wheel w)) t (slots_ (wheel w))) (events w) (executed w)
          (called_off w).

Definition set_slot (r : SlotRef) (l : list EventId) (w : World) : World :=
  mkWorld (mkWheel (now_ (wheel w)) (ticks_pending_ (wheel w))
                   (<[r := l]> (slots_ (wheel w))))
          (events w) (executed w) (called_off w).

Definition set_event (e : EventId) (ev : TimerEventBase) (w : World) : World :=
  mkWorld (wheel w) (<[e := ev]> (events w)) (executed w) (called_off w).

(** [TimerWheel::TimerWheel(Tick now)], with every event object not yet
    linked ([slot_{nullptr}]). *)
Definition TimerWheel_new (t : Tick) : TimerWheel :=
  mkWheel (fun i => Z.shiftr t (kWidthBits * i)) 0 (fun _ => []).

Definition World_new (t : Tick) : World :=
  mkWorld (TimerWheel_new t) (fun _ => mkEvent 0 None) [] [].

(** [TimerEventBase::IsActive] *)
Definition IsActive (w : World) (e : EventId) : bool :=
  bool_decide (link w e <> None).

(** [TimerEventBase::SetScheduleAt] *)
Definition SetScheduleAt (e : EventId) (ts : Tick) (w : World) : World :=
  set_event e (mkEvent ts (slot_ (events w e))) w.

(** Unlinking a node from the list it is in. *)
Definition unlink (e : EventId) (l : list EventId) : list EventId :=
  filter (fun x => x <> e) l.

(** [TimerEventBase::Relink] *)
Definition Relink (e : EventId) (new_slot : option SlotRef) (w : World) : World :=
  if decide (new_slot = link w e) then w
  else
    (* unlink from old location *)
    let w1 := match link w e with
              | Some old => set_slot old (unlink e (slot w old)) w
              | None => w
              end in
    (* insert in new slot *)
    let w2 := match new_slot with
              | Some r => set_slot r (e :: slot w1 r) w1
              | None => w1
              end in
    set_event e (mkEvent (scheduled_at w2 e) new_slot) w2.

(** [TimerEventBase::Cancel] *)
Definition Cancel (e : EventId) (w : World) : World :=
  match link w e with
  | None => w
  | Some _ => Relink e None w
  end.

(** [TimerWheelSlot::PopEvent]; the callers test [events()] first, and
    popping an empty slot (a null dereference in the source) leaves the
    world as it is here. *)
Definition PopEvent (r : SlotRef) (w : World) : World :=
  match slot w r with
  | [] => w
  | event :: rest =>
      set_event event (mkEvent (scheduled_at w event) None) (set_slot r rest w)
  end.

(** The virtual [Execute()]: the callback records the event and [now()]. *)
Definition Execute (e : EventId) (w : World) : World :=
  mkWorld (wheel w) (events w) (executed w ++ [(e, now w 0)]) (called_off w).

(** The [for] loop of [Schedule]:
    [for (; delta >= kNumSlots; ++level)
       delta = (delta + (now_[level] & kMask)) >> kWidthBits;]
    [n] is the number of levels left, [kNumLevels - level]; with none left
    the next access, [now_[kNumLevels]], is past the end of the array. *)
Fixpoint level_walk (n : nat) (nw : Z -> Tick) (level : Z) (delta : Tick)
  : result (Z * Tick) :=
  match n with
  | O => Fault OutOfRange
  | S n' =>
      if delta <? kNumSlots then Done (level, delta)
      else level_walk n' nw (level + 1)
             (Z.shiftr (wrap (delta + Z.land (nw level) kMask)) kWidthBits)
  end.

(** [TimerWheel::Schedule] *)
Definition Schedule (e : EventId) (delta : Tick) (w : World) : result World :=
  let w1 := SetScheduleAt e (wrap (now w 0 + delta)) w in
  ld <- level_walk (Z.to_nat kNumLevels) (now_ (wheel w1)) 0 delta ;;
  let level := fst ld in
  let slot_index := Z.land (wrap (now w1 level + snd ld)) kMask in
  Done (Relink e (Some (level, slot_index)) w1).

(** The [while (slot->events())] loop of [ProcessCurrentSlot]. *)
Fixpoint drain (fuel : nat) (r : SlotRef) (level : Z) (max_execute : Z) (w : World)
  : result (bool * World) :=
  match fuel with
  | O => Fault OutOfFuel
  | S fuel' =>
      match slot w r with
      | [] => Done (true, w)
      | event :: _ =>
          let w1 := PopEvent r w in
          if (0 <? level) && negb (scheduled_at w1 event <=? now w1 0) then
            (* an outer level, not yet due: Schedule(event, scheduled_at - now_[0]) *)
            w2 <- Schedule event (wrap (scheduled_at w1 event - now w1 0)) w1 ;;
            drain fuel' r level max_execute w2
          else
            (* level 0, or due: event->Execute(); if (!--max_execute) return false; *)
            let w2 := Execute event w1 in
            let max_execute' := wrap (max_execute - 1) in
            if max_execute' =? 0 then Done (false, w2)
            else drain fuel' r level max_execute' w2
      end
  end.

(** The [while (delta--)] loop of [Advance], over the body of
    [ProcessCurrentSlot] at the same level. *)
Fixpoint advance_ticks (PCS : Tick -> Z -> Z -> World -> result (bool * World))
  (n : nat) (max_execute : Z) (level : Z) (w : World) : result (bool * World) :=
  match n with
  | O => Done (true, w)
  | S n' =>
      let t := wrap (now w level + 1) in
      let w1 := set_now level t w in
      p <- PCS t max_execute level w1 ;;
      if fst p then advance_ticks PCS n' max_execute level (snd p)
      else Done (false, set_pending (wrap (Z.of_nat n' + 1)) (snd p))
  end.

(** [TimerWheel::Advance], over the body of [ProcessCurrentSlot]. *)
Definition Advance_body (PCS : Tick -> Z -> Z -> World -> result (bool * World))
  (delta : Tick) (max_execute : Z) (level : Z) (w : World) : result (bool * World) :=
  if pending w =? 0 then
    advance_ticks PCS (Z.to_nat delta) max_execute level w
  else
    let w1 := if level =? 0 then set_pending (wrap (pending w + delta)) w else w in
    p <- PCS (now w1 level) max_execute level w1 ;;
    let w2 := snd p in
    if negb (fst p) then Done (false, w2)
    else if level =? 0 then
      let delta' := wrap (pending w2 - 1) in
      advance_ticks PCS (Z.to_nat delta') max_execute level (set_pending 0 w2)
    else Done (true, w2).

(** [TimerWheel::ProcessCurrentSlot].  It calls [Advance] one level up,
    which calls it back there: [up] counts the levels above [level]
    ([kMaxLevel - level]), the depth of that recursion. *)
Fixpoint ProcessCurrentSlot (up : nat) (fuel : nat)
  (t : Tick) (max_execute : Z) (level : Z) (w : World) : result (bool * World) :=
  let slot_index := Z.land t kMask in
  let r := (level, slot_index) in
  p <- (if (slot_index =? 0) && (level <? kMaxLevel) then
          match up with
          | O => Fault OutOfRange
          | S up' =>
              Advance_body (ProcessCurrentSlot up' fuel) 1 max_execute (level + 1) w
          end
        else Done (true, w)) ;;
  if negb (fst p) then Done (false, snd p)
  else drain fuel r level max_execute (snd p).

Definition Advance (fuel : nat) (delta : Tick) (max_execute : Z) (level : Z) (w : World)
  : result (bool * World) :=
  Advance_body (ProcessCurrentSlot (Z.to_nat (kMaxLevel - level)) fuel)
               delta max_execute level w.

(** The virtual [OnCancel(Error&&)] ([Some err]) and [OnAbort()] ([None]):
    the callback records the event and what it was given. *)
Definition call_off (e : EventId) (err : option Err.Error) (w : World) : World :=
  mkWorld (wheel w) (events w) (executed w) (called_off w ++ [(e, err)]).

(** [TimerWheelSlot::Cancel(Error&&)] and [TimerWheelSlot::Abort()]:
    [while (!IsEmpty()) { e = PopEvent(); e->OnCancel(Error{err}); }]. *)
Fixpoint Slot_call_off (fuel : nat) (err : option Err.Error) (r : SlotRef) (w : World)
  : result World :=
  match slot w r with
  | [] => Done w
  | e :: _ =>
      match fuel with
      | O => Fault OutOfFuel
      | S fuel' => Slot_call_off fuel' err r (call_off e err (PopEvent r w))
      end
  end.

(** The slots in the order of the two nested loops over [kNumLevels] and
    [kNumSlots]. *)
Definition all_slots : list SlotRef :=
  flat_map (fun i => map (fun j => (i, j)) (seqZ 0 kNumSlots)) (seqZ 0 kNumLevels).

Fixpoint call_off_slots (fuel : nat) (err : option Err.Error) (rs : list SlotRef)
  (w : World) : result World :=
  match rs with
  | [] => Done w
  | r :: rest => w1 <- Slot_call_off fuel err r w ;; call_off_slots fuel err rest w1
  end.

(** [TimerWheel::Cancel(Error&&)] and [TimerWheel::Abort()] *)
Definition TimerWheel_Cancel (fuel : nat) (err : Err.Error) (w : World) : result World :=
  call_off_slots fuel (Some err) all_slots w.
Definition TimerWheel_Abort (fuel : nat) (w : World) : result World :=
  call_off_slots fuel None all_slots w.

(** [TimerWheel::IsEmpty] *)
Definition IsEmpty (w : World) : bool :=
  forallb (fun r => bool_decide (slot w r = [])) all_slots.

(** The loop of [ScheduleInRange]:
    [while ((start & mask) != (end & mask)) mask = (mask << kWidthBits);]
    after [kNumLevels] shifts the 64-bit mask is 0 and the test fails, so
    [n], the number of shifts left, does not run out. *)
Fixpoint range_mask (n : nat) (start end_ : Tick) (mask : Tick) : Tick :=
  if Z.land start mask =? Z.land end_ mask then mask
  else match n with
       | O => mask
       | S n' => range_mask n' start end_ (wrap (Z.shiftl mask kWidthBits))
       end.

(** [TimerWheel::ScheduleInRange] *)
Definition ScheduleInRange (e : EventId) (start end_ : Tick) (w : World) : result World :=
  let current := wrap (scheduled_at w e - now w 0) in
  if IsActive w e && (start <=? current) && (current <=? end_) then Done w
  else
    let mask := range_mask (Z.to_nat kNumLevels) start end_ (wrap (Z.lnot 0)) in
    let delta := Z.land end_ (Z.shiftr mask kWidthBits) in
    Schedule e delta w.

(** The inner loops of [TicksToNextEvent] over the events of a slot:
    [min = std::min(min, event->scheduled_at() - now)]. *)
Definition slot_min (w : World) (r : SlotRef) (now0 : Tick) (min : Tick) : Tick :=
  foldl (fun m e => Z.min m (wrap (scheduled_at w e - now0))) min (slot w r).

(** The [for (int i = 0; i < kNumSlots; ++i)] loop of [TicksToNextEvent]
    over the values of [i] left: [inr] is a [return] from inside the loop,
    [inl] the [min] the loop ends with. *)
Fixpoint scan_slots (w : World) (level : Z) (now0 : Tick) (idxs : list Z) (min : Tick)
  : Tick + Tick :=
  match idxs with
  | [] => inl min
  | i :: rest =>
      let slot_index := Z.land (wrap (now w level + i + 1)) kMask in
      let min1 :=
        if (slot_index =? 0) && (level <? kMaxLevel) then
          if (0 <? level) || bool_decide (slot w (level, slot_index) = []) then
            let up_slot_index := Z.land (wrap (now w (level + 1) + 1)) kMask in
            slot_min w (level + 1, up_slot_index) now0 min
          else min
        else min in
      match slot w (level, slot_index) with
      | [] => scan_slots w level now0 rest min1
      | event :: _ =>
          if level =? 0 then inr (Z.min min1 (wrap (scheduled_at w event - now0)))
          else inr (slot_min w (level, slot_index) now0 min1)
      end
  end.

(** [TimerWheel::TicksToNextEvent]; [up] counts the levels above [level],
    the depth of the recursion. *)
Fixpoint TicksToNextEvent (up : nat) (max : Tick) (level : Z) (w : World) : Tick :=
  if negb (pending w =? 0) then 0
  else
    match scan_slots w level (now w 0) (seqZ 0 kNumSlots) max with
    | inr found => found
    | inl _ =>
        if (level <? kMaxLevel) && (0 <? Z.shiftr max (kWidthBits * level + 1)) then
          match up with
          | O => max
          | S up' => TicksToNextEvent up' max (level + 1) w
          end
        else max
    end.

(** A caller of the wheel: a sequence of calls of [Schedule], of
    [TimerEventBase::Cancel] and of [Advance], carried on as long as
    [Advance] returns [true]. *)
Inductive op :=
| OpSchedule (e : EventId) (delta : Tick)
| OpAdvance (delta : Tick)
| OpCancel (e : EventId).

Fixpoint run_ops (fuel : nat) (max_execute : Z) (ops : list op) (w : World)
  : result (bool * World) :=
  match ops with
  | [] => Done (true, w)
  | OpSchedule e delta :: rest =>
      w1 <- Schedule e delta w ;; run_ops fuel max_execute rest w1
  | OpCancel e :: rest => run_ops fuel max_execute rest (Cancel e w)
  | OpAdvance delta :: rest =>
      p <- Advance fuel delta max_execute 0 w ;;
      if fst p then run_ops fuel max_execute rest (snd p) else Done (false, snd p)
  end.

Fixpoint schedule_all (evs : list (EventId * Tick)) (w : World) : result World :=
  match evs with
  | [] => Done w
  | ed :: rest => w1 <- Schedule (fst ed) (snd ed) w ;; schedule_all rest w1
  end.

(** The tick the calls leave the clock at, when none wraps around. *)
Fixpoint clock_after (T : Z) (ops : list op) : Z :=
  match ops with
  | [] => T
  | OpSchedule _ _ :: rest => clock_after T rest
  | OpCancel _ :: rest => clock_after T rest
  | OpAdvance delta :: rest => clock_after (T + delta) rest
  end.

(** The calls respect the documented preconditions (a delta is not 0) and
    stay within the 64 bits of a tick. *)
Fixpoint valid_ops (T : Z) (ops : list op) : bool :=
  match ops with
  | [] => true
  | OpSchedule _ delta :: rest =>
      (0 <? delta) && (T + delta <? 2 ^ 64) && valid_ops T rest
  | OpCancel _ :: rest => valid_ops T rest
  | OpAdvance delta :: rest =>
      (0 <? delta) && (T + delta <? 2 ^ 64) && valid_ops (T + delta) rest
  end.

(** The events the calls schedule or cancel. *)
Fixpoint touched_ids (ops : list op) : list EventId :=
  match ops with
  | [] => []
  | OpSchedule e _ :: rest => e :: touched_ids rest
  | OpCancel e :: rest => e :: touched_ids rest
  | OpAdvance _ :: rest => touched_ids rest
  end.

(* ------------------------------------------------------------------ *)
(** ** The predicates of the statements about the wheel                *)
(* ------------------------------------------------------------------ *)

(** [lv t l] is the tick [t] seen from level [l]: [t >> (kWidthBits * l)]. *)
Definition lv (t : Z) (l : Z) : Z := Z.shiftr t (kWidthBits * l).

(** An event for tick [a] waits in slot [s] of level [j] of a wheel at
    tick [T]: [s] is the digit of [a] at that level, 1 to 255 slots ahead
    of the wheel's. *)
Definition placed (T j s a : Z) : Prop :=
  s = Z.land (lv a j) kMask /\ 1 <= lv a j - lv T j <= 255.

(** An event for tick [a] is in the slot of [T] itself at level [j], the
    slot being processed. *)
Definition due (T j s a : Z) : Prop :=
  s = Z.land (lv T j) kMask /\ lv a j = lv T j.

(** The lists of the slots and the [slot_] pointers of the events agree,
    and no list holds an event twice. *)
Definition linked_ok (w : World) : Prop :=
  (forall r e, e ∈ slot w r -> link w e = Some r) /\
  (forall e r, link w e = Some r -> e ∈ slot w r) /\
  (forall r, NoDup (slot w r)).

(** What an operation leaves alone. *)
Definition same_clock (w w' : World) : Prop :=
  (forall l, now w' l = now w l) /\ pending w' = pending w.

(** No [scheduled_at_] has changed. *)
Definition same_ticks (w w' : World) : Prop :=
  forall e, scheduled_at w' e = scheduled_at w e.

(** [now_[j]] is [T >> (kWidthBits * j)] at every level. *)
Definition clock_at (T : Z) (w : World) : Prop :=
  forall j, 0 <= j <= 7 -> now w j = lv T j.

(** Where the linked events are at tick [T] while the slots of the levels
    up to [d] are being processed ([d = -1]: between two calls). *)
Definition inv_G (T d : Z) (w : World) : Prop :=
  forall e j s, link w e = Some (j, s) ->
    0 <= j <= 7 /\ 0 <= scheduled_at w e < 2 ^ 64 /\
    (placed T j s (scheduled_at w e) \/ (j <= d /\ due T j s (scheduled_at w e))).

(** What processing the slots of tick [T] did: [batch] is what it
    executed. *)
Definition fired (T : Z) (batch : list (EventId * Tick)) (w w' : World) : Prop :=
  executed w' = executed w ++ batch /\
  NoDup batch.*1 /\
  (forall e t, (e, t) ∈ batch ->
     t = T /\ scheduled_at w e = T /\ link w e <> None /\ link w' e = None) /\
  (forall e, e ∉ batch.*1 -> (link w' e = None <-> link w e = None)) /\
  same_ticks w w'.

(** Only events of [U] are linked. *)
Definition bounded (U : list EventId) (w : World) : Prop :=
  forall e, link w e <> None -> e ∈ U.

(** The state of a wheel between two calls, at tick [T]. *)
Definition wheel_inv (T : Z) (w : World) : Prop :=
  0 <= T < 2 ^ 64 /\ clock_at T w /\ pending w = 0 /\ linked_ok w /\ inv_G T (-1) w.

(** The order of the execution log: by the tick of the execution. *)
Definition by_tick (x y : EventId * Tick) : Prop := x.2 <= y.2.

(** What a run from tick [T] to tick [T'] did: [log] is what it executed. *)
Definition ran (T T' : Z) (log : list (EventId * Tick)) (w w' : World) : Prop :=
  executed w' = executed w ++ log /\
  NoDup log.*1 /\
  StronglySorted by_tick log /\
  (forall e t, (e, t) ∈ log ->
     T < t <= T' /\ scheduled_at w e = t /\ link w e <> None /\ link w' e = None) /\
  (forall e, e ∉ log.*1 -> (link w' e = None <-> link w e = None)) /\
  same_ticks w w'.

(** What became of one event [e] over a run that executed [log]: it was
    left as it was, or it was linked and has been executed, once, at its
    scheduled tick. *)
Definition follows (e : EventId) (log : list (EventId * Tick)) (w w' : World) : Prop :=
  scheduled_at w' e = scheduled_at w e /\
  (((e ∉ log.*1) /\ (link w' e = None <-> link w e = None)) \/
   (link w e <> None /\ link w' e = None /\
    filter (fun x => x.1 = e) log = [(e, scheduled_at w e)])).

(** A tick count is the bound it started from, or the distance from
    [now0] to an event that is in some slot. *)
Definition bound_or_event (w : World) (now0 m v : Z) : Prop :=
  v <= m /\
  (v = m \/ exists e r, e ∈ slot w r /\ v = wrap (scheduled_at w e - now0)).

End Wheel.

(* ------------------------------------------------------------------ *)
(** ** event/timer-event.h                                             *)
(* ------------------------------------------------------------------ *)

Module TimerEv.
Import Err.

(** [_::TimerEvent]: the [callback_] is an optional handler, named here by
    a number; calling it is recorded with the [Error] it was given. *)
Record TimerEvent := mkTimerEvent { callback_ : option nat }.

(** [TimerEvent(Callback&&)] *)
Definition TimerEvent_new (handler : nat) : TimerEvent := mkTimerEvent (Some handler).

(** [TimerEvent::Execute]: the handler, if still there, is called with
    [Error{}] and [callback_] is reset. *)
Definition Execute (ev : TimerEvent) : TimerEvent * list (nat * Error) :=
  match callback_ ev with
  | Some h => (mkTimerEvent None, [(h, Error_default)])
  | None => (ev, [])
  end.

(** [TimerEvent::OnCancel] *)
Definition OnCancel (e : Error) (ev : TimerEvent) : TimerEvent * list (nat * Error) :=
  match callback_ ev with
  | Some h => (mkTimerEvent None, [(h, e)])
  | None => (ev, [])
  end.

(** [TimerEvent::IsFired] *)
Definition IsFired (ev : TimerEvent) : bool := bool_decide (callback_ ev = None).

(** What the wheel calls on an event, in some order. *)
Inductive Call :=
| CallExecute
| CallOnCancel (e : Error).

Definition call_arg (c : Call) : Error :=
  match c with CallExecute => Error_default | CallOnCancel e => e end.

Fixpoint run_calls (cs : list Call) (ev : TimerEvent) : TimerEvent * list (nat * Error) :=
  match cs with
  | [] => (ev, [])
  | c :: rest =>
      let r := match c with CallExecute => Execute ev | CallOnCancel e => OnCancel e ev end in
      let r' := run_calls rest (fst r) in
      (fst r', snd r ++ snd r')
  end.

End TimerEv.

(* ------------------------------------------------------------------ *)
(** ** event/promise.h, event/coroutine.h, event/basic.h, base/result.h *)
(* ------------------------------------------------------------------ *)

Module Prom.
Import Err.

(** The values a promise carries.  [T] ranges over the types the
    combinators are used at; [VVec] is [std::vector<T>], [VDummy] is
    [libz::Dummy]. *)
#[warnings="-register-all"] Inductive Value :=
| VInt (n : Z)
| VStr (s : string)
| VVec (l : list Value)
| VDummy.

(** [T{}], what [std::vector<T> results(c)] is filled with. *)
Definition Value_default : Value := VInt 0.

(** [Result<T>]: a variant over [Null], [T] and [Error]. *)
Inductive Result :=
| RNull
| ROk (v : Value)
| RErr (e : Error).

Definition Result_IsEmpty (r : Result) : bool := match r with RNull => true | _ => false end.
Definition Result_IsOk (r : Result) : bool := match r with ROk _ => true | _ => false end.
Definition Result_IsError (r : Result) : bool := match r with RErr _ => true | _ => false end.

(** [PassResult] and [PassError] dereference [std::get_if]; on the wrong
    alternative that is a null pointer. *)
Definition PassResult (r : Result) : result Value :=
  match r with ROk v => Done v | _ => Fault Aborted end.
Definition PassError (r : Result) : result Error :=
  match r with RErr e => Done e | _ => Fault Aborted end.

(** [Result<void>]: only the error slot [v_]. *)
Record ResultVoid := mkResultVoid { v_ : Error }.
Definition ResultVoid_ok : ResultVoid := mkResultVoid Error_default.
Definition ResultVoid_IsOk (r : ResultVoid) : bool := negb (to_bool (v_ r)).

(** [enum EventError] and [Err(e, msg)] of event/basic.h. *)
Definition kErrorEventPromiseAny : Z := 0.
Definition kErrorEventPromiseRace : Z := 1.
Definition kErrorEventLoopShutdown : Z := 2.
Definition kErrorUnsupportedEvent : Z := 3.
Definition kErrorCoroutineException : Z := 4.
Definition Err1 (e : Z) : Error := Error_cc EventCategory e.
Definition Err2 (e : Z) (msg : string) : Error := Error_ccm EventCategory e msg.

Inductive PromiseStatus :=
| kInit
| kPreFulfilled
| kFulfilled
| kPreRejected
| kRejected
| kCancelled.

#[global] Instance PromiseStatus_eq_dec : EqDecision PromiseStatus.
Proof. solve_decision. Defined.

(** [class PromiseStatusMachine] *)
Record PromiseStatusMachine := mkMachine { status_ : PromiseStatus }.

Definition Machine_new : PromiseStatusMachine := mkMachine kInit.
Definition IsEmpty (m : PromiseStatusMachine) : bool := bool_decide (status_ m = kInit).
Definition IsPreFulfilled (m : PromiseStatusMachine) : bool :=
  bool_decide (status_ m = kPreFulfilled).
Definition IsFulfilled (m : PromiseStatusMachine) : bool := bool_decide (status_ m = kFulfilled).
Definition IsPreRejected (m : PromiseStatusMachine) : bool :=
  bool_decide (status_ m = kPreRejected).
Definition IsRejected (m : PromiseStatusMachine) : bool := bool_decide (status_ m = kRejected).
Definition IsCancelled (m : PromiseStatusMachine) : bool := bool_decide (status_ m = kCancelled).

Definition To (from to : PromiseStatus) (m : PromiseStatusMachine)
  : bool * PromiseStatusMachine :=
  if decide (status_ m = from) then (true, mkMachine to) else (false, m).

Definition ToPreFulfilled := To kInit kPreFulfilled.
Definition ToFulfilled := To kPreFulfilled kFulfilled.
Definition ToPreRejected := To kInit kPreRejected.
Definition ToRejected := To kPreRejected kRejected.
Definition ToCancelled (m : PromiseStatusMachine) : bool * PromiseStatusMachine :=
  match status_ m with
  | kInit | kPreRejected | kPreFulfilled => (true, mkMachine kCancelled)
  | _ => (false, m)
  end.
Definition Force (s : PromiseStatus) (m : PromiseStatusMachine) : PromiseStatusMachine :=
  mkMachine s.

Definition IsPending (m : PromiseStatusMachine) : bool := IsPreRejected m || IsPreFulfilled m.
Definition IsDone (m : PromiseStatusMachine) : bool := IsFulfilled m || IsRejected m.
Definition IsSatisfied (m : PromiseStatusMachine) : bool := IsPreFulfilled m || IsFulfilled m.
Definition IsUnsatisfied (m : PromiseStatusMachine) : bool := IsPreRejected m || IsRejected m.
Definition IsSettled (m : PromiseStatusMachine) : bool := negb (IsEmpty m) && negb (IsCancelled m).

(** Promise states are shared objects, referred to by address. *)
Definition Addr := nat.

(** [Executor*]: an executor that queues what it is posted (the loop's
    executors, the tests' [MockExecutor]), or [LocalExecutor], whose
    [Post] calls in place.  [nullptr] is [None]. *)
Inductive Executor :=
| QueueExecutor (q : nat)
| LocalExecutor.

(** What [RunInExecutor] posts: [BindWeak(this, cb)] of [TryInvokeCallback]. *)
Inductive Thunk := Trampoline (p : Addr).

(** The functors of signature [Error -> void] handed to [Notifier::Then]. *)
Inductive ErrFunctor :=
| EfUser (tag : nat)
| EfAwaitSuspend (awaiter : nat) (handle : nat)
| EfAwaitResume (awaiter : nat).

(** The functors of signature [Result<T> -> void] handed to [Then]: an
    application callback (it records its argument under [tag]), the
    lambdas of the combinators with what they capture ([resolver] and
    [rejector] hold the same state), those of [PromiseAwaiter], and the
    wrapper of [Notifier::Then]. *)
Inductive Functor :=
| FnUser (tag : nat)
| FnAll (ctx : nat) (target : Addr) (idx : nat)
| FnAny (ctx : nat) (target : Addr) (idx : nat)
| FnRace (target : Addr)
| FnAwaitSuspend (awaiter : nat) (handle : nat)
| FnAwaitResume (awaiter : nat)
| FnNotifier (f : ErrFunctor).

(** [PromiseState<T>::Callback], as the overloads of [Attach] build it
    around the functor and [weak_from_this()]. *)
Inductive Callback :=
| CbVoid (self : Addr) (f : Functor)
| CbResult (self : Addr) (f : Result -> Result)
| CbResultVoid (self : Addr) (f : Result -> ResultVoid).

(** [PromiseState<T>] (with the [payload_] of [PromiseStateAttachment]). *)
Record PromiseStateT := mkStateT {
  machine : PromiseStatusMachine;
  storage_ : option Result;
  callback_ : option Callback;
  executor_ : option Executor;
  previous_ : option Addr;
  next_ : option Addr;
  co_handle_ : option nat;
  payload_ : option (list Addr)
}.

(** [PromiseState<void>] *)
Record PromiseStateVoid := mkStateVoid {
  vmachine : PromiseStatusMachine;
  vstorage_ : option ResultVoid;
  vprevious_ : option Addr;
  vnext_ : option Addr;
  vco_handle_ : option nat
}.

Inductive Obj :=
| ObjT (s : PromiseStateT)
| ObjVoid (s : PromiseStateVoid).

(** The [Ctx] of [MkAllPromise] ([counter] is [success_counter]) and of
    [MkAnyPromise] ([counter] is [failure_counter]). *)
Record Ctx := mkCtx {
  counter : Z;
  results : list Value;
  errors : list Error
}.

(** The heap of promise states and contexts, the executors' queues, the
    result slots of the awaiters, and what has been observed: the
    application callbacks run, the coroutine handles resumed and
    destroyed. *)
Record World := mkWorld {
  heap : gmap Addr Obj;
  next_addr : Addr;
  queues : gmap nat (list Thunk);
  ctxs : gmap nat Ctx;
  next_ctx : nat;
  awaiter_res : gmap nat Result;
  awaiter_err : gmap nat Error;
  invoked : list (nat * Result);
  notified : list (nat * Error);
  resumed : list nat;
  destroyed : list nat
}.

Definition World_empty : World := mkWorld ∅ 0%nat ∅ ∅ 0%nat ∅ ∅ [] [] [] [].

Definition set_heap (h : gmap Addr Obj) (w : World) : World :=
  mkWorld h (next_addr w) (queues w) (ctxs w) (next_ctx w) (awaiter_res w)
          (awaiter_err w) (invoked w) (notified w) (resumed w) (destroyed w).
Definition set_next_addr (a : Addr) (w : World) : World :=
  mkWorld (heap w) a (queues w) (ctxs w) (next_ctx w) (awaiter_res w)
          (awaiter_err w) (invoked w) (notified w) (resumed w) (destroyed w).
Definition set_queues (q : gmap nat (list Thunk)) (w : World) : World :=
  mkWorld (heap w) (next_addr w) q (ctxs w) (next_ctx w) (awaiter_res w)
          (awaiter_err w) (invoked w) (notified w) (resumed w) (destroyed w).
Definition set_ctxs (c : gmap nat Ctx) (n : nat) (w : World) : World :=
  mkWorld (heap w) (next_addr w) (queues w) c n (awaiter_res w)
          (awaiter_err w) (invoked w) (notified w) (resumed w) (destroyed w).
Definition set_awaiter_res (a : gmap nat Result) (w : World) : World :=
  mkWorld (heap w) (next_addr w) (queues w) (ctxs w) (next_ctx w) a
          (awaiter_err w) (invoked w) (notified w) (resumed w) (destroyed w).
Definition set_awaiter_err (a : gmap nat Error) (w : World) : World :=
  mkWorld (heap w) (next_addr w) (queues w) (ctxs w) (next_ctx w) (awaiter_res w)
          a (invoked w) (notified w) (resumed w) (destroyed w).
Definition log_invoked (tag : nat) (r : Result) (w : World) : World :=
  mkWorld (heap w) (next_addr w) (queues w) (ctxs w) (next_ctx w) (awaiter_res w)
          (awaiter_err w) (invoked w ++ [(tag, r)]) (notified w) (resumed w) (destroyed w).
Definition log_notified (tag : nat) (e : Error) (w : World) : World :=
  mkWorld (heap w) (next_addr w) (queues w) (ctxs w) (next_ctx w) (awaiter_res w)
          (awaiter_err w) (invoked w) (notified w ++ [(tag, e)]) (resumed w) (destroyed w).
Definition log_resumed (h : nat) (w : World) : World :=
  mkWorld (heap w) (next_addr w) (queues w) (ctxs w) (next_ctx w) (awaiter_res w)
          (awaiter_err w) (invoked w) (notified w) (resumed w ++ [h]) (destroyed w).
Definition log_destroyed (h : nat) (w : World) : World :=
  mkWorld (heap w) (next_addr w) (queues w) (ctxs w) (next_ctx w) (awaiter_res w)
          (awaiter_err w) (invoked w) (notified w) (resumed w) (destroyed w ++ [h]).

Definition getT (w : World) (p : Addr) : option PromiseStateT :=
  match heap w !! p with Some (ObjT s) => Some s | _ => None end.
Definition getVoid (w : World) (p : Addr) : option PromiseStateVoid :=
  match heap w !! p with Some (ObjVoid s) => Some s | _ => None end.
Definition putT (p : Addr) (s : PromiseStateT) (w : World) : World :=
  set_heap (<[p := ObjT s]> (heap w)) w.
Definition putVoid (p : Addr) (s : PromiseStateVoid) (w : World) : World :=
  set_heap (<[p := ObjVoid s]> (heap w)) w.

(** [PromiseStateBase::status()], through the vtable. *)
Definition status (w : World) (p : Addr) : option PromiseStatus :=
  match heap w !! p with
  | Some (ObjT s) => Some (status_ (machine s))
  | Some (ObjVoid s) => Some (status_ (vmachine s))
  | None => None
  end.

(** Field updates of a [PromiseState<T>]. *)
Definition with_machine (m : PromiseStatusMachine) (s : PromiseStateT) : PromiseStateT :=
  mkStateT m (storage_ s) (callback_ s) (executor_ s) (previous_ s) (next_ s)
           (co_handle_ s) (payload_ s).
Definition with_storage (r : option Result) (s : PromiseStateT) : PromiseStateT :=
  mkStateT (machine s) r (callback_ s) (executor_ s) (previous_ s) (next_ s)
           (co_handle_ s) (payload_ s).
Definition with_callback (c : option Callback) (s : PromiseStateT) : PromiseStateT :=
  mkStateT (machine s) (storage_ s) c (executor_ s) (previous_ s) (next_ s)
           (co_handle_ s) (payload_ s).
Definition with_executor (e : option Executor) (s : PromiseStateT) : PromiseStateT :=
  mkStateT (machine s) (storage_ s) (callback_ s) e (previous_ s) (next_ s)
           (co_handle_ s) (payload_ s).
Definition with_previous (a : option Addr) (s : PromiseStateT) : PromiseStateT :=
  mkStateT (machine s) (storage_ s) (callback_ s) (executor_ s) a (next_ s)
           (co_handle_ s) (payload_ s).
Definition with_next (a : option Addr) (s : PromiseStateT) : PromiseStateT :=
  mkStateT (machine s) (storage_ s) (callback_ s) (executor_ s) (previous_ s) a
           (co_handle_ s) (payload_ s).
Definition with_co_handle (h : option nat) (s : PromiseStateT) : PromiseStateT :=
  mkStateT (machine s) (storage_ s) (callback_ s) (executor_ s) (previous_ s) (next_ s)
           h (payload_ s).

(** [PromiseState<T>()] and [PromiseStateAttachment<T, P>(args...)]. *)
Definition StateT_new : PromiseStateT :=
  mkStateT Machine_new None None None None None None None.
Definition StateT_attachment (payload : list Addr) : PromiseStateT :=
  mkStateT Machine_new None None None None None None (Some payload).
Definition StateVoid_new : PromiseStateVoid :=
  mkStateVoid Machine_new None None None None.

(** [std::make_shared]: addresses are never handed out twice, so that a
    [weak_ptr] to a destroyed state stays expired. *)
Definition alloc (o : Obj) (w : World) : Addr * World :=
  (next_addr w, set_next_addr (S (next_addr w)) (set_heap (<[next_addr w := o]> (heap w)) w)).

Definition alloc_ctx (c : Ctx) (w : World) : nat * World :=
  (next_ctx w, set_ctxs (<[next_ctx w := c]> (ctxs w)) (S (next_ctx w)) w).

(** [Executor::Post] on a queueing executor. *)
Definition Post (q : nat) (t : Thunk) (w : World) : World :=
  set_queues (<[q := default [] (queues w !! q) ++ [t]]> (queues w)) w.

(** [set_next], [next()], [propagator()], [next_propagator()] through the
    vtable of [PromiseStateBase]. *)
Definition set_next (p : Addr) (n : option Addr) (w : World) : World :=
  match heap w !! p with
  | Some (ObjT s) => putT p (with_next n s) w
  | Some (ObjVoid s) =>
      putVoid p (mkStateVoid (vmachine s) (vstorage_ s) (vprevious_ s) n (vco_handle_ s)) w
  | None => w
  end.

Definition next (w : World) (p : Addr) : option Addr :=
  match heap w !! p with
  | Some (ObjT s) => next_ s
  | Some (ObjVoid s) => vnext_ s
  | None => None
  end.

(** [DetachFromChain] *)
Definition DetachFromChain (p : Addr) (w : World) : World := set_next p None w.

(** [PromiseState<U>::Watch(other)], for either kind of [this]. *)
Definition Watch (this other : Addr) (w : World) : World :=
  let w1 :=
    match heap w !! this with
    | Some (ObjT s) => putT this (with_previous (Some other) s) w
    | Some (ObjVoid s) =>
        putVoid this (mkStateVoid (vmachine s) (vstorage_ s) (Some other) (vnext_ s)
                                  (vco_handle_ s)) w
    | None => w
    end in
  set_next other (Some this) w1.

(** [~PromiseState()], when the last owner lets go of the state. *)
Definition destroy (p : Addr) (w : World) : World :=
  let prev := match heap w !! p with
              | Some (ObjT s) => previous_ s
              | Some (ObjVoid s) => vprevious_ s
              | None => None
              end in
  let w1 := match prev with Some q => DetachFromChain q w | None => w end in
  set_heap (delete p (heap w1)) w1.

(** [PromiseState<void>::PropagateResult]; the recursion follows [next()]
    along the chain. *)
Fixpoint PropagateResultVoid (fuel : nat) (p : Addr) (r : ResultVoid) (w : World)
  : result World :=
  match fuel with
  | O => Fault OutOfFuel
  | S fuel' =>
      match getVoid w p with
      | None => Fault Aborted
      | Some s =>
          (* DCHECK(!IsDone()) *)
          if IsDone (vmachine s) then Fault Aborted
          else
            let m := if ResultVoid_IsOk r then Force kFulfilled (vmachine s)
                     else Force kRejected (vmachine s) in
            let w1 := putVoid p (mkStateVoid m (Some r) (vprevious_ s) (vnext_ s)
                                             (vco_handle_ s)) w in
            match vnext_ s with
            | Some n => PropagateResultVoid fuel' n r w1
            | None => Done w1
            end
      end
  end.

(** [PromiseState<void>::Resolve], [Reject], [Cancel], [PassResult]. *)
Definition ResolveVoid (fuel : nat) (p : Addr) (w : World) : result (bool * World) :=
  match getVoid w p with
  | None => Fault Aborted
  | Some s =>
      if IsEmpty (vmachine s) then
        w1 <- PropagateResultVoid fuel p ResultVoid_ok w ;; Done (true, w1)
      else Done (false, w)
  end.

Definition RejectVoid (fuel : nat) (p : Addr) (e : Error) (w : World)
  : result (bool * World) :=
  match getVoid w p with
  | None => Fault Aborted
  | Some s =>
      if IsEmpty (vmachine s) then
        w1 <- PropagateResultVoid fuel p (mkResultVoid e) w ;; Done (true, w1)
      else Done (false, w)
  end.

Definition CancelVoid (p : Addr) (w : World) : World :=
  match getVoid w p with
  | None => w
  | Some s =>
      if IsEmpty (vmachine s) || IsPending (vmachine s) then
        let w1 := match vco_handle_ s with
                  | Some h => log_destroyed h w
                  | None => w
                  end in
        putVoid p (mkStateVoid (snd (ToCancelled (vmachine s))) None (vprevious_ s)
                               (vnext_ s) (vco_handle_ s)) w1
      else w
  end.

Section Settle.

(** [Resolve] and [Reject] of the state a lambda holds, and
    [PropagateResult] of a [PromiseState<void>] next in the chain: what
    the callbacks call back into. *)
Variable resolve : Addr -> Value -> World -> result (bool * World).
Variable reject : Addr -> Error -> World -> result (bool * World).
Variable propagate_void : Addr -> ResultVoid -> World -> result World.

(** [PromiseState<T>::PropagateResult] *)
Definition PropagateResult_with (p : Addr) (r : Result) (w : World) : result World :=
  if Result_IsOk r then
    v <- PassResult r ;; p' <- resolve p v w ;; Done (snd p')
  else
    e <- PassError r ;; p' <- reject p e w ;; Done (snd p').

Definition run_err_functor (f : ErrFunctor) (e : Error) (w : World) : World :=
  match f with
  | EfUser tag => log_notified tag e w
  | EfAwaitSuspend a h => log_resumed h (set_awaiter_err (<[a := e]> (awaiter_err w)) w)
  | EfAwaitResume a => set_awaiter_err (<[a := e]> (awaiter_err w)) w
  end.

(** [r.PassResult()] and [r.PassError()] in a functor: [r] refers to the
    [storage_] of the state [self] whose callback runs, and passing leaves
    that [Result] cleared. *)
Definition consume (self : Addr) (w : World) : World :=
  match getT w self with
  | Some s => putT self (with_storage (Some RNull) s) w
  | None => w
  end.

(** The bodies of the functors. *)
Definition run_functor (self : Addr) (f : Functor) (r : Result) (w : World)
  : result World :=
  match f with
  | FnUser tag => Done (log_invoked tag r w)
  | FnAll ctx target idx =>
      if negb (Result_IsOk r) then
        e <- PassError r ;; p <- reject target e (consume self w) ;; Done (snd p)
      else
        v <- PassResult r ;;
        let w0 := consume self w in
        match ctxs w0 !! ctx with
        | None => Fault Aborted
        | Some c =>
            let c' := mkCtx (Wheel.wrap (counter c - 1)) (<[idx := v]> (results c))
                            (errors c) in
            let w1 := set_ctxs (<[ctx := c']> (ctxs w0)) (next_ctx w0) w0 in
            if counter c' =? 0 then
              p <- resolve target (VVec (results c')) w1 ;; Done (snd p)
            else Done w1
        end
  | FnAny ctx target idx =>
      if Result_IsOk r then
        v <- PassResult r ;; p <- resolve target v (consume self w) ;; Done (snd p)
      else
        e <- PassError r ;;
        let w0 := consume self w in
        match ctxs w0 !! ctx with
        | None => Fault Aborted
        | Some c =>
            let c' := mkCtx (Wheel.wrap (counter c - 1)) (results c)
                            (<[idx := e]> (errors c)) in
            let w1 := set_ctxs (<[ctx := c']> (ctxs w0)) (next_ctx w0) w0 in
            if counter c' =? 0 then
              p <- reject target (Err2 kErrorEventPromiseAny "no resolved promise") w1 ;;
              Done (snd p)
            else Done w1
        end
  | FnRace target =>
      if Result_IsOk r then
        v <- PassResult r ;; p <- resolve target v (consume self w) ;; Done (snd p)
      else
        e <- PassError r ;; p <- reject target e (consume self w) ;; Done (snd p)
  | FnAwaitSuspend a h =>
      Done (log_resumed h (set_awaiter_res (<[a := r]> (awaiter_res w)) w))
  | FnAwaitResume a =>
      Done (set_awaiter_res (<[a := r]> (awaiter_res w)) w)
  | FnNotifier f =>
      if Result_IsOk r then Done (run_err_functor f Error_default w)
      else e <- PassError r ;; Done (run_err_functor f e (consume self w))
  end.

(** The lambdas [cb] of [Attach]: nothing when the state is gone.  The
    lambda around a functor returning [void] starts with
    [DCHECK(!promise->next_propagator())]: [DCHECK] is [assert] unless
    [NDEBUG] is defined, and every promise state has a propagator, so with
    a next state the process dies there. *)
Definition run_callback (cb : Callback) (r : Result) (w : World) : result World :=
  match cb with
  | CbVoid self f =>
      match heap w !! self with
      | None => Done w
      | Some _ =>
          match next w self with
          | Some _ => Fault Aborted
          | None => run_functor self f r w
          end
      end
  | CbResult self f =>
      match heap w !! self with
      | None => Done w
      | Some _ =>
          match next w self with
          | Some pp => PropagateResult_with pp (f r) w
          | None => Done w
          end
      end
  | CbResultVoid self f =>
      match heap w !! self with
      | None => Done w
      | Some _ =>
          match next w self with
          | Some pp => propagate_void pp (f r) w
          | None => Done w
          end
      end
  end.

(** [InvokeCallback]: [Pass(&callback_)] empties the member. *)
Definition InvokeCallback_with (p : Addr) (w : World) : result World :=
  match getT w p with
  | None => Fault Aborted
  | Some s =>
      match storage_ s, callback_ s with
      | Some r, Some cb => run_callback cb r (putT p (with_callback None s) w)
      | _, _ => Fault Aborted
      end
  end.

(** The thunk [BindWeak(this, cb)] of [TryInvokeCallback], when it runs. *)
Definition run_thunk_with (t : Thunk) (w : World) : result World :=
  match t with
  | Trampoline p =>
      match getT w p with
      | None => Done w
      | Some s =>
          match status_ (machine s) with
          | kPreFulfilled =>
              InvokeCallback_with p (putT p (with_machine (snd (ToFulfilled (machine s))) s) w)
          | kPreRejected =>
              InvokeCallback_with p (putT p (with_machine (snd (ToRejected (machine s))) s) w)
          | _ => Done w
          end
      end
  end.

(** [RunInExecutor] *)
Definition RunInExecutor_with (p : Addr) (t : Thunk) (w : World) : result World :=
  match getT w p with
  | None => Fault Aborted
  | Some s =>
      match executor_ s with
      | Some (QueueExecutor q) => Done (Post q t w)
      | Some LocalExecutor => run_thunk_with t w
      | None => run_thunk_with t w
      end
  end.

(** [TryInvokeCallback] *)
Definition TryInvokeCallback_with (p : Addr) (w : World) : result World :=
  match getT w p with
  | None => Fault Aborted
  | Some s =>
      if bool_decide (callback_ s <> None) && IsPending (machine s)
      then RunInExecutor_with p (Trampoline p) w
      else Done w
  end.

End Settle.

(** [PromiseState<T>::Resolve] and [Reject].  A callback that runs in
    place can settle the next state of the chain, and so on: [fuel] bounds
    the depth of that nesting. *)
Fixpoint Resolve (fuel : nat) (p : Addr) (v : Value) (w : World) : result (bool * World) :=
  match fuel with
  | O => Fault OutOfFuel
  | S fuel' =>
      match getT w p with
      | None => Fault Aborted
      | Some s =>
          if IsEmpty (machine s) then
            let s1 := with_machine (snd (ToPreFulfilled (machine s)))
                                   (with_storage (Some (ROk v)) s) in
            w1 <- TryInvokeCallback_with (Resolve fuel') (Reject fuel')
                    (PropagateResultVoid fuel') p (putT p s1 w) ;;
            Done (true, w1)
          else Done (false, w)
      end
  end
with Reject (fuel : nat) (p : Addr) (e : Error) (w : World) : result (bool * World) :=
  match fuel with
  | O => Fault OutOfFuel
  | S fuel' =>
      match getT w p with
      | None => Fault Aborted
      | Some s =>
          if IsEmpty (machine s) then
            let s1 := with_machine (snd (ToPreRejected (machine s)))
                                   (with_storage (Some (RErr e)) s) in
            w1 <- TryInvokeCallback_with (Resolve fuel') (Reject fuel')
                    (PropagateResultVoid fuel') p (putT p s1 w) ;;
            Done (true, w1)
          else Done (false, w)
      end
  end.

Definition PropagateResult (fuel : nat) := 
  PropagateResult_with (Resolve fuel) (Reject fuel).
Definition InvokeCallback (fuel : nat) :=
  InvokeCallback_with (Resolve fuel) (Reject fuel) (PropagateResultVoid fuel).
Definition run_thunk (fuel : nat) :=
  run_thunk_with (Resolve fuel) (Reject fuel) (PropagateResultVoid fuel).
Definition RunInExecutor (fuel : nat) :=
  RunInExecutor_with (Resolve fuel) (Reject fuel) (PropagateResultVoid fuel).
Definition TryInvokeCallback (fuel : nat) :=
  TryInvokeCallback_with (Resolve fuel) (Reject fuel) (PropagateResultVoid fuel).

(** [PromiseState<T>::Cancel].  The embedding keeps no reference counts
    and no coroutine frames: releasing [callback_] and [storage_] is the
    assignment alone, and [co_handle_.destroy()] is recorded in
    [destroyed]; what the released callback or the destroyed frame owned
    is not followed. *)
Definition Cancel (p : Addr) (w : World) : World :=
  match getT w p with
  | None => w
  | Some s =>
      if IsEmpty (machine s) || IsPending (machine s) then
        let w1 := match co_handle_ s with
                  | Some h => log_destroyed h w
                  | None => w
                  end in
        putT p (with_machine (snd (ToCancelled (machine s)))
                  (with_storage None (with_callback None s))) w1
      else w
  end.

(** [PromiseStateBase::ToCancelled], through the base of either kind. *)
Definition Base_ToCancelled (p : Addr) (w : World) : bool * World :=
  match heap w !! p with
  | Some (ObjT s) =>
      (fst (ToCancelled (machine s)), putT p (with_machine (snd (ToCancelled (machine s))) s) w)
  | Some (ObjVoid s) =>
      (fst (ToCancelled (vmachine s)),
       putVoid p (mkStateVoid (snd (ToCancelled (vmachine s))) (vstorage_ s) (vprevious_ s)
                              (vnext_ s) (vco_handle_ s)) w)
  | None => (false, w)
  end.

(** [PromiseStateBase::Cancel]: the walk along [next()]; [OnCancel] is
    the empty virtual of the base, which no state overrides. *)
Fixpoint Base_Cancel (fuel : nat) (c : option Addr) (w : World) : result World :=
  match c with
  | None => Done w
  | Some p =>
      match fuel with
      | O => Fault OutOfFuel
      | S fuel' =>
          match heap w !! p with
          | None => Fault Aborted
          | Some _ =>
              let w1 := snd (Base_ToCancelled p w) in
              Base_Cancel fuel' (next w1 p) w1
          end
      end
  end.

(** [AddCallback] *)
Definition AddCallback (fuel : nat) (p : Addr) (cb : Callback) (ex : option Executor)
  (w : World) : result World :=
  match getT w p with
  | None => Fault Aborted
  | Some s =>
      TryInvokeCallback fuel p (putT p (with_executor ex (with_callback (Some cb) s)) w)
  end.

(** The overloads of [Attach]: a functor returning [void]; one returning a
    [Result] with, and without, a next state. *)
Definition Attach_void (fuel : nat) (p : Addr) (f : Functor) (ex : option Executor)
  (w : World) : result World :=
  AddCallback fuel p (CbVoid p f) ex w.

Definition Attach_result (fuel : nat) (p next : Addr) (f : Result -> Result)
  (ex : option Executor) (w : World) : result World :=
  AddCallback fuel p (CbResult p f) ex (Watch next p w).

Definition Attach_result_void (fuel : nat) (p next : Addr) (f : Result -> ResultVoid)
  (ex : option Executor) (w : World) : result World :=
  AddCallback fuel p (CbResultVoid p f) ex (Watch next p w).

Definition Attach_result_last (fuel : nat) (p : Addr) (f : Result -> Result)
  (ex : option Executor) (w : World) : result World :=
  AddCallback fuel p (CbResult p f) ex w.

(** [Promise<T>]: the handle and its [state_]. *)
Record Promise := mkPromise { state_ : Addr }.

(** [Promise<T>()] and [Promise<void>()] *)
Definition Promise_new (w : World) : Promise * World :=
  let aw := alloc (ObjT StateT_new) w in (mkPromise (fst aw), snd aw).
Definition PromiseVoid_new (w : World) : Promise * World :=
  let aw := alloc (ObjVoid StateVoid_new) w in (mkPromise (fst aw), snd aw).

Definition Promise_Resolve (fuel : nat) (p : Promise) (v : Value) (w : World) :=
  Resolve fuel (state_ p) v w.
Definition Promise_Reject (fuel : nat) (p : Promise) (e : Error) (w : World) :=
  Reject fuel (state_ p) e w.
(** [Promise<T>::Cancel() { state_->Cancel(); }]: [state_] is a
    [PromiseState<T>], whose [Cancel] hides the one of the base. *)
Definition Promise_Cancel (p : Promise) (w : World) : World := Cancel (state_ p) w.
Definition PromiseVoid_Cancel (p : Promise) (w : World) : World := CancelVoid (state_ p) w.

(** [Promise<T>::Then] for a functor returning [Result<R>], [Result<void>]
    and [void]. *)
Definition Then_result (fuel : nat) (p : Promise) (f : Result -> Result)
  (ex : option Executor) (w : World) : result (Promise * World) :=
  let nw := Promise_new w in
  w1 <- Attach_result fuel (state_ p) (state_ (fst nw)) f ex (snd nw) ;;
  Done (fst nw, w1).

Definition Then_result_void (fuel : nat) (p : Promise) (f : Result -> ResultVoid)
  (ex : option Executor) (w : World) : result (Promise * World) :=
  let nw := PromiseVoid_new w in
  w1 <- Attach_result_void fuel (state_ p) (state_ (fst nw)) f ex (snd nw) ;;
  Done (fst nw, w1).

Definition Then_void (fuel : nat) (p : Promise) (f : Functor) (ex : option Executor)
  (w : World) : result World :=
  Attach_void fuel (state_ p) f ex w.

(** [Notifier::Then] *)
Definition Notifier_Then (fuel : nat) (p : Promise) (f : ErrFunctor) (ex : option Executor)
  (w : World) : result World :=
  Then_void fuel p (FnNotifier f) ex w.

(** [MkResolvedPromise], [MkRejectedPromise] *)
Definition MkResolvedPromise (fuel : nat) (v : Value) (w : World) : result (Promise * World) :=
  let pw := Promise_new w in
  r <- Promise_Resolve fuel (fst pw) v (snd pw) ;; Done (fst pw, snd r).

Definition MkRejectedPromise (fuel : nat) (e : Error) (w : World) : result (Promise * World) :=
  let pw := Promise_new w in
  r <- Promise_Reject fuel (fst pw) e (snd pw) ;; Done (fst pw, snd r).

(** [MkPromise]: [f] is given the state its [resolver] and [rejector]
    capture. *)
Definition MkPromise (f : Addr -> World -> result World) (w : World)
  : result (Promise * World) :=
  let aw := alloc (ObjT StateT_new) w in
  w1 <- f (fst aw) (snd aw) ;; Done (mkPromise (fst aw), w1).

(** [MkAttachmentPromise(...).first]: the container is moved into the
    payload of the state. *)
Definition MkAttachmentPromise (f : Addr -> World -> result World) (payload : list Addr)
  (w : World) : result (Promise * World) :=
  let aw := alloc (ObjT (StateT_attachment payload)) w in
  w1 <- f (fst aw) (snd aw) ;; Done (mkPromise (fst aw), w1).

(** [for (auto itr = begin; itr != end; ++itr, ++idx) itr->Then(..., executor);] *)
Fixpoint then_each (fuel : nat) (mk : nat -> Functor) (ex : option Executor)
  (idx : nat) (range : list Addr) (w : World) : result World :=
  match range with
  | [] => Done w
  | itr :: rest =>
      w1 <- Then_void fuel (mkPromise itr) (mk idx) ex w ;;
      then_each fuel mk ex (S idx) rest w1
  end.

Definition Ctx_all (c : nat) : Ctx := mkCtx (Z.of_nat c) (replicate c Value_default) [].
Definition Ctx_any (c : nat) : Ctx := mkCtx (Z.of_nat c) [] (replicate c Error_default).

Definition all_body (fuel : nat) (range : list Addr) (ex : option Executor)
  (target : Addr) (w : World) : result World :=
  let cw := alloc_ctx (Ctx_all (length range)) w in
  then_each fuel (FnAll (fst cw) target) ex 0 range (snd cw).

Definition any_body (fuel : nat) (range : list Addr) (ex : option Executor)
  (target : Addr) (w : World) : result World :=
  let cw := alloc_ctx (Ctx_any (length range)) w in
  then_each fuel (FnAny (fst cw) target) ex 0 range (snd cw).

Definition race_body (fuel : nat) (range : list Addr) (ex : option Executor)
  (target : Addr) (w : World) : result World :=
  then_each fuel (fun _ => FnRace target) ex 0 range w.

(** [MkAllPromise(begin, end, executor)] (and the container overload,
    which forwards to it). *)
Definition MkAllPromise (fuel : nat) (range : list Addr) (ex : option Executor) (w : World)
  : result (Promise * World) :=
  match range with
  | [] => MkResolvedPromise fuel (VVec []) w
  | _ => MkPromise (all_body fuel range ex) w
  end.

Definition MkAllPromiseAttachContainer (fuel : nat) (container : list Addr)
  (ex : option Executor) (w : World) : result (Promise * World) :=
  match container with
  | [] => MkResolvedPromise fuel (VVec []) w
  | _ => MkAttachmentPromise (all_body fuel container ex) container w
  end.

Definition MkAnyPromise (fuel : nat) (range : list Addr) (ex : option Executor) (w : World)
  : result (Promise * World) :=
  match range with
  | [] => MkRejectedPromise fuel (Err2 kErrorEventPromiseAny "no promise") w
  | _ => MkPromise (any_body fuel range ex) w
  end.

Definition MkAnyPromiseAttachContainer (fuel : nat) (container : list Addr)
  (ex : option Executor) (w : World) : result (Promise * World) :=
  match container with
  | [] => MkRejectedPromise fuel (Err2 kErrorEventPromiseAny "no promise") w
  | _ => MkAttachmentPromise (any_body fuel container ex) container w
  end.

Definition MkRacePromise (fuel : nat) (range : list Addr) (ex : option Executor) (w : World)
  : result (Promise * World) :=
  match range with
  | [] => MkRejectedPromise fuel (Err2 kErrorEventPromiseRace "no promise") w
  | _ => MkPromise (race_body fuel range ex) w
  end.

(** [MkRacePromiseAttachContainer]: on an empty container the rejected
    promise is built as a temporary and dropped (the statement has no
    [return]); control goes on to [MkAttachmentPromise]. *)
Definition MkRacePromiseAttachContainer (fuel : nat) (container : list Addr)
  (ex : option Executor) (w : World) : result (Promise * World) :=
  w1 <- match container with
        | [] =>
            pw <- MkRejectedPromise fuel (Err2 kErrorEventPromiseRace "no promise") w ;;
            Done (destroy (state_ (fst pw)) (snd pw))
        | _ => Done w
        end ;;
  MkAttachmentPromise (race_body fuel container ex) container w1.

(** [PromiseResolver<T>]: a [weak_ptr] to the state. *)
Record PromiseResolver := mkResolver { ptr_ : option Addr }.

Definition GetResolver (p : Promise) : PromiseResolver := mkResolver (Some (state_ p)).
Definition Resolver_default : PromiseResolver := mkResolver None.
Definition Resolver_Reset (r : PromiseResolver) : PromiseResolver := mkResolver None.

(** [ptr_.lock()] *)
Definition lock (w : World) (r : PromiseResolver) : option Addr :=
  match ptr_ r with
  | Some a => match heap w !! a with Some _ => Some a | None => None end
  | None => None
  end.

Definition IsExpired (w : World) (r : PromiseResolver) : bool :=
  bool_decide (lock w r = None).

Definition Resolver_Resolve (fuel : nat) (r : PromiseResolver) (v : Value) (w : World)
  : result (bool * World) :=
  match lock w r with
  | Some p => Resolve fuel p v w
  | None => Done (false, w)
  end.

Definition Resolver_Reject (fuel : nat) (r : PromiseResolver) (e : Error) (w : World)
  : result (bool * World) :=
  match lock w r with
  | Some p => Reject fuel p e w
  | None => Done (false, w)
  end.

Definition Resolver_Set (fuel : nat) (r : PromiseResolver) (res : Result) (w : World)
  : result (bool * World) :=
  if Result_IsOk res then v <- PassResult res ;; Resolver_Resolve fuel r v w
  else e <- PassError res ;; Resolver_Reject fuel r e w.

Definition Resolver_Cancel (r : PromiseResolver) (w : World) : World :=
  match lock w r with
  | Some p => Cancel p w
  | None => w
  end.

Definition Resolver_query (q : PromiseStatusMachine -> bool) (w : World)
  (r : PromiseResolver) : option bool :=
  match lock w r with
  | Some p => match getT w p with Some s => Some (q (machine s)) | None => None end
  | None => None
  end.
Definition Resolver_IsDone := Resolver_query IsDone.
Definition Resolver_IsEmpty := Resolver_query IsEmpty.
Definition Resolver_IsSettled := Resolver_query IsSettled.
Definition Resolver_IsSatisfied := Resolver_query IsSatisfied.
Definition Resolver_IsUnsatisfied := Resolver_query IsUnsatisfied.

(** [PromiseResolver<void>] *)
Definition ResolverVoid_Resolve (fuel : nat) (r : PromiseResolver) (w : World)
  : result (bool * World) :=
  match lock w r with
  | Some p => ResolveVoid fuel p w
  | None => Done (false, w)
  end.

Definition ResolverVoid_Reject (fuel : nat) (r : PromiseResolver) (e : Error) (w : World)
  : result (bool * World) :=
  match lock w r with
  | Some p => RejectVoid fuel p e w
  | None => Done (false, w)
  end.

Definition ResolverVoid_Set (fuel : nat) (r : PromiseResolver) (res : ResultVoid) (w : World)
  : result (bool * World) :=
  if ResultVoid_IsOk res then ResolverVoid_Resolve fuel r w
  else ResolverVoid_Reject fuel r (v_ res) w.

Definition ResolverVoid_Cancel (r : PromiseResolver) (w : World) : World :=
  match lock w r with
  | Some p => CancelVoid p w
  | None => w
  end.

Definition ResolverVoid_query (q : PromiseStatusMachine -> bool) (w : World)
  (r : PromiseResolver) : option bool :=
  match lock w r with
  | Some p => match getVoid w p with Some s => Some (q (vmachine s)) | None => None end
  | None => None
  end.

(** [MockExecutor::RunOne] of the tests: run the thunk at the head of a
    queue. *)
Definition RunOne (fuel : nat) (q : nat) (w : World) : result (bool * World) :=
  match default [] (queues w !! q) with
  | [] => Done (false, w)
  | t :: rest =>
      w1 <- run_thunk fuel t (set_queues (<[q := rest]> (queues w)) w) ;;
      Done (true, w1)
  end.

(** [MockExecutor::Run]: until the queue is empty. *)
Fixpoint Run (steps : nat) (fuel : nat) (q : nat) (w : World) : result World :=
  match steps with
  | O => Fault OutOfFuel
  | S steps' =>
      r <- RunOne fuel q w ;;
      if fst r then Run steps' fuel q (snd r) else Done (snd r)
  end.

(** [PromiseAwaiter<T>] and [PromiseAwaiter<void>] of coroutine.h: the
    awaiter [a] holds the promise [p]; its [res_] / [err_] is in the world. *)
Definition await_ready (w : World) (p : Promise) : bool :=
  match getT w (state_ p) with
  | Some s => IsPending (machine s)
  | None => false
  end.

Definition await_suspend (fuel : nat) (a : nat) (p : Promise) (handle : nat)
  (current : Executor) (w : World) : result World :=
  Then_void fuel p (FnAwaitSuspend a handle) (Some current) w.

Definition await_resume (fuel : nat) (a : nat) (p : Promise) (w : World)
  : result (Result * World) :=
  w1 <- (if await_ready w p then Then_void fuel p (FnAwaitResume a) None w else Done w) ;;
  Done (default RNull (awaiter_res w1 !! a), w1).

Definition await_ready_void (w : World) (ntfr : Promise) : bool := await_ready w ntfr.

Definition await_suspend_void (fuel : nat) (a : nat) (ntfr : Promise) (handle : nat)
  (current : Executor) (w : World) : result World :=
  Notifier_Then fuel ntfr (EfAwaitSuspend a handle) (Some current) w.

Definition await_resume_void (fuel : nat) (a : nat) (ntfr : Promise) (w : World)
  : result (Error * World) :=
  w1 <- (if await_ready_void w ntfr then Notifier_Then fuel ntfr (EfAwaitResume a) None w
         else Done w) ;;
  Done (default Error_default (awaiter_err w1 !! a), w1).

(** [co_await p] in a coroutine with handle [handle]: the language calls
    [await_ready]; on [false] it suspends the coroutine and calls
    [await_suspend], on [true] it goes on with [await_resume]. *)
Inductive Awaited :=
| Suspended
| Resumed (r : Result).

Definition co_await (fuel : nat) (a : nat) (p : Promise) (handle : nat)
  (current : Executor) (w : World) : result (Awaited * World) :=
  if await_ready w p then
    rw <- await_resume fuel a p w ;; Done (Resumed (fst rw), snd rw)
  else
    w1 <- await_suspend fuel a p handle current w ;; Done (Suspended, w1).

(* ------------------------------------------------------------------ *)
(** ** The predicates of the statements about promises                 *)
(* ------------------------------------------------------------------ *)

(** What the promise a combinator returned holds. *)
Definition settled_with (st : PromiseStatus) (r : Result)
    (res : result (Promise * World)) : Prop :=
  exists p w' s,
    res = Done (p, w') /\ getT w' (state_ p) = Some s /\
    status_ (machine s) = st /\ storage_ s = Some r.

(** The transitions of the specification: [init] to a pre status, a pre
    status to its terminal status, [init] or a pre status to [cancelled];
    [legal_path a b] says that [b] is reached from [a] along them. *)
Definition legal_path (a b : PromiseStatus) : bool :=
  match a, b with
  | kInit, _ => true
  | kPreFulfilled, (kPreFulfilled | kFulfilled | kCancelled) => true
  | kPreRejected, (kPreRejected | kRejected | kCancelled) => true
  | kFulfilled, kFulfilled => true
  | kRejected, kRejected => true
  | kCancelled, kCancelled => true
  | _, _ => false
  end.

(** Every [PromiseState<T>] of [w] is still there in [w'], at a status
    reached along the transitions. *)
Definition moves_legally (w w' : World) : Prop :=
  forall p s, getT w p = Some s ->
    exists s', getT w' p = Some s' /\
               legal_path (status_ (machine s)) (status_ (machine s')) = true.





(** The pre statuses; the statuses of a settled and consumed state; the
    terminal statuses. *)
Definition is_pre (s : PromiseStatus) : bool :=
  match s with kPreFulfilled | kPreRejected => true | _ => false end.
Definition is_done (s : PromiseStatus) : bool :=
  match s with kFulfilled | kRejected => true | _ => false end.

(** The statuses [Cancel] acts on. *)
Definition is_cancellable (s : PromiseStatus) : bool :=
  match s with kInit | kPreFulfilled | kPreRejected => true | _ => false end.

(** The states reached from [c] along [next()], in order. *)
Fixpoint chain (w : World) (c : option Addr) (l : list Addr) : Prop :=
  match l with
  | [] => c = None
  | a :: rest => c = Some a /\ heap w !! a <> None /\ chain w (next w a) rest
  end.

(** The status [ToCancelled] leaves. *)
Definition after_cancel (st : PromiseStatus) : PromiseStatus :=
  if is_cancellable st then kCancelled else st.

(** The status in which a state holds the outcome [r] before its
    continuation runs, and after. *)
Definition pre_status (r : Result) : PromiseStatus :=
  if Result_IsOk r then kPreFulfilled else kPreRejected.
Definition done_status (r : Result) : PromiseStatus :=
  if Result_IsOk r then kFulfilled else kRejected.

(** [Resolve] or [Reject] with what the [Result] holds. *)
Definition settle (fuel : nat) (p : Addr) (r : Result) (w : World) : result (bool * World) :=
  match r with
  | ROk v => Resolve fuel p v w
  | RErr e => Reject fuel p e w
  | RNull => Fault Aborted
  end.

End Prom.

(* ================================================================== *)
(** * Part II. Lemmas and theorems                                     *)
(* ================================================================== *)

(* ------------------------------------------------------------------ *)
(** ** Errors                                                          *)
(* ------------------------------------------------------------------ *)

Module ErrFacts.
Import Err.

(** C10.  [MkBoostError(0, m)] is the empty [Error] whatever the message;
    for a code [c] other than 0, [MkBoostError(c, m)] is in the boost
    category, has code [c] and message [m]. *)
Theorem MkBoostError_spec (c : Z) (m m0 : string) :
  c <> 0 ->
  (MkBoostError 0 m0 = Error_default /\
   category (MkBoostError 0 m0) = None /\ code (MkBoostError 0 m0) = 0 /\
   HasMessage (MkBoostError 0 m0) = false /\ to_bool (MkBoostError 0 m0) = false) /\
  (category (MkBoostError c m) = Some GetBoostErrorCategory /\
   code (MkBoostError c m) = c /\ message_ (MkBoostError c m) = Some m /\
   IsBoostError (MkBoostError c m) = true /\ to_bool (MkBoostError c m) = true).
Proof.
  intros Hc. split; [by repeat split|].
  unfold MkBoostError. destruct (Z.eqb_spec c 0) as [|_]; [done|]. by repeat split.
Qed.

Lemma MkBoostError_spec_witness :
  (MkBoostError 0 "ignored" = Error_default /\
   category (MkBoostError 0 "ignored") = None /\ code (MkBoostError 0 "ignored") = 0 /\
   HasMessage (MkBoostError 0 "ignored") = false /\
   to_bool (MkBoostError 0 "ignored") = false) /\
  (category (MkBoostError 1 "err") = Some GetBoostErrorCategory /\
   code (MkBoostError 1 "err") = 1 /\ message_ (MkBoostError 1 "err") = Some "err"%string /\
   IsBoostError (MkBoostError 1 "err") = true /\ to_bool (MkBoostError 1 "err") = true).
Proof. apply (MkBoostError_spec 1 "err" "ignored"). lia. Defined.

(** X14.  [Error::MkSysError(n)] is an error for every [n], 0 included
    (unlike [MkBoostError], which gives the empty [Error] for 0): it is in
    the syscall category, not in the boost one, has code [n] and no
    message. *)
Theorem MkSysError_is_error (n : Z) :
  to_bool (MkSysError n) = true /\ Has (MkSysError n) = true /\
  IsSysError (MkSysError n) = true /\ IsBoostError (MkSysError n) = false /\
  code (MkSysError n) = n /\ HasMessage (MkSysError n) = false /\
  MkSysError n <> Error_default.
Proof. by repeat split. Qed.

(** X15.  [Error::MkGeneralError(code, msg, category)] is an error for
    every code, with that code and message; two of them are in the same
    category exactly when the category names are equal, and none is a
    syscall or boost error. *)
Theorem MkGeneralError_category (c1 c2 : Z) (m1 m2 n1 n2 : string) :
  to_bool (MkGeneralError c1 m1 n1) = true /\
  code (MkGeneralError c1 m1 n1) = c1 /\ message_ (MkGeneralError c1 m1 n1) = Some m1 /\
  IsSysError (MkGeneralError c1 m1 n1) = false /\
  IsBoostError (MkGeneralError c1 m1 n1) = false /\
  (category (MkGeneralError c1 m1 n1) = category (MkGeneralError c2 m2 n2) <-> n1 = n2).
Proof.
  split; [done|]. split; [done|]. split; [done|]. split; [done|]. split; [done|].
  unfold MkGeneralError, GetGeneralErrorCategory, category, Error_ccm. simpl.
  split; [congruence|by intros ->].
Qed.

End ErrFacts.

(* ------------------------------------------------------------------ *)
(** ** The timer wheel                                                 *)
(* ------------------------------------------------------------------ *)

Module WheelFacts.
Import Wheel.

Lemma lv_0 t : lv t 0 = t.
Proof. unfold lv, kWidthBits. simpl. apply Z.shiftr_0_r. Qed.

Lemma lv_div t l : 0 <= l -> lv t l = t / 2 ^ (8 * l).
Proof. intros. unfold lv, kWidthBits. apply Z.shiftr_div_pow2. lia. Qed.

Lemma lv_succ t l : 0 <= l -> lv t (l + 1) = lv t l / 256.
Proof.
  intros. unfold lv, kWidthBits.
  replace (8 * (l + 1)) with (8 * l + 8) by lia.
  rewrite <- Z.shiftr_shiftr by lia.
  rewrite (Z.shiftr_div_pow2 _ 8) by lia. reflexivity.
Qed.

Lemma lv_nonneg t l : 0 <= t -> 0 <= l -> 0 <= lv t l.
Proof. intros. rewrite lv_div by lia. apply Z.div_pos; lia. Qed.

Lemma lv_mono a b l : 0 <= l -> a <= b -> lv a l <= lv b l.
Proof. intros. rewrite !lv_div by lia. apply Z.div_le_mono; lia. Qed.

Lemma lv_le t l : 0 <= t -> 0 <= l -> lv t l <= t.
Proof.
  intros. rewrite lv_div by lia.
  apply Z.div_le_upper_bound; [lia|].
  assert (1 <= 2 ^ (8 * l)) by (apply (Z.pow_le_mono_r 2 0); lia). nia.
Qed.

Lemma land_mask x : Z.land x kMask = x mod 256.
Proof. change kMask with (Z.ones 8). rewrite Z.land_ones by lia. reflexivity. Qed.

Lemma wrap_small z : 0 <= z < 2 ^ 64 -> wrap z = z.
Proof. intros. unfold wrap. apply Z.mod_small. lia. Qed.

Lemma lv_top t : 0 <= t < 2 ^ 64 -> lv t 7 < 256.
Proof.
  intros. rewrite lv_div by lia. apply Z.div_lt_upper_bound; [lia|].
  change (2 ^ (8 * 7) * 256) with (2 ^ 64). lia.
Qed.

Lemma lv_bound t l : 0 <= t < 2 ^ 64 -> 0 <= l -> lv t l < 2 ^ 64.
Proof. intros. pose proof (lv_le t l). lia. Qed.

(** The level walk of [Schedule], for a delta that does not wrap. *)
Lemma level_walk_ok (nw : Z -> Tick) T A :
  (forall j, 0 <= j <= 7 -> nw j = lv T j) ->
  0 <= T -> T <= A < 2 ^ 64 ->
  forall n L d,
    0 <= L -> Z.of_nat n = 8 - L -> (0 < n)%nat ->
    d = lv A L - lv T L ->
    exists j d',
      level_walk n nw L d = Done (j, d') /\ L <= j <= 7 /\
      d' = lv A j - lv T j /\ 0 <= d' < 256 /\
      (L < j -> 1 <= d') /\ (j = L <-> d < 256).
Proof.
  intros Hnw HT HA. induction n as [|n IH]; intros L d HL Hn Hpos Hd; [lia|].
  assert (Hmono : lv T L <= lv A L) by (apply lv_mono; lia).
  simpl. change kNumSlots with 256.
  destruct (Z.ltb_spec d 256) as [Hlt|Hge].
  - exists L, d. repeat split; try lia.
  - assert (HL7 : L < 7).
    { destruct (Z.eq_dec L 7) as [->|]; [|lia].
      pose proof (lv_top A ltac:(lia)). pose proof (lv_nonneg T 7 HT ltac:(lia)). lia. }
    rewrite Hnw by lia. rewrite land_mask.
    pose proof (lv_nonneg T L HT HL) as HTL.
    pose proof (lv_bound A L ltac:(lia) HL) as HAL.
    pose proof (Z.mod_pos_bound (lv T L) 256 ltac:(lia)) as Hm.
    pose proof (Z.mod_le (lv T L) 256 ltac:(lia) ltac:(lia)) as Hm'.
    rewrite wrap_small by lia.
    rewrite Z.shiftr_div_pow2 by (unfold kWidthBits; lia).
    change (2 ^ kWidthBits) with 256.
    assert (Hnext : (d + lv T L mod 256) / 256 = lv A (L + 1) - lv T (L + 1)).
    { rewrite !lv_succ by lia.
      replace (lv A L) with (lv T L + d) by lia.
      rewrite (Z.div_mod (lv T L) 256) at 2 by lia.
      replace (256 * (lv T L / 256) + lv T L mod 256 + d)
        with ((d + lv T L mod 256) + (lv T L / 256) * 256) by lia.
      rewrite Z.div_add by lia. lia. }
    destruct (IH (L + 1) ((d + lv T L mod 256) / 256)) as (j & d' & Hw & Hj & Hd' & Hb & Hone & Hiff);
      try lia.
    exists j, d'. repeat split; try lia; [exact Hw|].
    intros _. destruct (Z.eq_dec j (L + 1)) as [->|]; [|lia].
    assert (1 <= (d + lv T L mod 256) / 256).
    { apply Z.div_le_lower_bound; lia. }
    lia.
Qed.

Lemma fn_insert_eq {A B} `{EqDecision A} (f : A -> B) k v k' :
  (<[k := v]> f) k' = if decide (k = k') then v else f k'.
Proof. reflexivity. Qed.

Ltac wunfold :=
  unfold SetScheduleAt, Execute in *;
  unfold now, pending, slot, scheduled_at, link, set_now, set_pending, set_slot,
    set_event in *;
  cbn [wheel events executed now_ ticks_pending_ slots_ scheduled_at_ slot_] in *.

Lemma PopEvent_spec w r e rest :
  slot w r = e :: rest -> linked_ok w ->
  let w' := PopEvent r w in
  slot w' r = rest /\
  (forall r', r' <> r -> slot w' r' = slot w r') /\
  link w' e = None /\
  (forall e', e' <> e -> link w' e' = link w e') /\
  same_ticks w w' /\ same_clock w w' /\ executed w' = executed w /\
  linked_ok w'.
Proof.
  intros Hs (Hin & Hlk & Hnd) w'. subst w'. unfold PopEvent. rewrite Hs.
  assert (Hnd_r := Hnd r). rewrite Hs in Hnd_r. apply NoDup_cons in Hnd_r as [Hne Hnd_r].
  assert (Hle : link w e = Some r) by (apply Hin; rewrite Hs; left).
  repeat split.
  - wunfold. rewrite fn_insert_eq. destruct (decide (r = r)); done.
  - intros r' Hr'. wunfold. rewrite fn_insert_eq. destruct (decide (r = r')); congruence.
  - wunfold. rewrite fn_insert_eq. destruct (decide (e = e)); done.
  - intros e' He'. wunfold. rewrite fn_insert_eq. destruct (decide (e = e')); congruence.
  - intros e'. wunfold. rewrite fn_insert_eq. destruct (decide (e = e')); subst; done.
  - intros r0 e0. wunfold. rewrite !fn_insert_eq.
    destruct (decide (r = r0)) as [<-|Hr]; destruct (decide (e = e0)) as [<-|He]; intros H0.
    + done.
    + apply Hin. rewrite Hs. by right.
    + specialize (Hin _ _ H0). congruence.
    + by apply Hin.
  - intros e0 r0. wunfold. rewrite !fn_insert_eq.
    destruct (decide (r = r0)) as [<-|Hr]; destruct (decide (e = e0)) as [<-|He]; simpl; intros H0;
      try done.
    + specialize (Hlk _ _ H0). rewrite Hs in Hlk. apply elem_of_cons in Hlk as [?|?]; done.
    + by apply Hlk.
  - intros r0. wunfold. rewrite fn_insert_eq. destruct (decide (r = r0)); [done|apply Hnd].
Qed.

Lemma Relink_spec w e r :
  linked_ok w ->
  let w' := Relink e (Some r) w in
  linked_ok w' /\ link w' e = Some r /\
  (forall e', e' <> e -> link w' e' = link w e') /\
  (forall r', r' <> r -> link w e <> Some r' -> slot w' r' = slot w r') /\
  same_ticks w w' /\ same_clock w w' /\ executed w' = executed w.
Proof.
  intros (Hin & Hlk & Hnd) w'. subst w'. unfold Relink.
  destruct (decide (Some r = link w e)) as [Heq|Hne].
  { repeat split; auto. }
  assert (Hnotin : e ∉ slot w r) by (intros H0; apply Hin in H0; congruence).
  destruct (link w e) as [old|] eqn:Hold.
  - assert (Hor : old <> r) by congruence.
    repeat split.
    + intros r0 e0. wunfold. rewrite !fn_insert_eq.
      destruct (decide (r = r0)) as [<-|Hr]; destruct (decide (e = e0)) as [<-|He]; simpl; intros H0;
        try done.
      * apply elem_of_cons in H0 as [?|H0]; [done|].
        destruct (decide (old = r)); [done|]. by apply Hin.
      * destruct (decide (old = r0)) as [<-|].
        -- unfold unlink in H0. apply list_elem_of_filter in H0 as [? _]. done.
        -- apply Hin in H0. congruence.
      * destruct (decide (old = r0)) as [<-|].
        -- unfold unlink in H0. apply list_elem_of_filter in H0 as [_ ?]. by apply Hin.
        -- by apply Hin.
    + intros e0 r0. wunfold. rewrite !fn_insert_eq.
      destruct (decide (e = e0)) as [<-|He]; simpl; intros H0.
      * inversion H0; subst. destruct (decide (r0 = r0)); [left|done].
      * destruct (decide (r = r0)) as [<-|Hr].
        -- right. destruct (decide (old = r)); [done|]. by apply Hlk.
        -- destruct (decide (old = r0)) as [<-|].
           ++ unfold unlink. apply list_elem_of_filter. split; [congruence|by apply Hlk].
           ++ by apply Hlk.
    + intros r0. wunfold. rewrite !fn_insert_eq.
      destruct (decide (r = r0)) as [<-|Hr].
      * destruct (decide (old = r)); [done|]. apply NoDup_cons. split; [done|apply Hnd].
      * destruct (decide (old = r0)) as [<-|]; [|apply Hnd].
        unfold unlink. apply NoDup_filter, Hnd.
    + wunfold. rewrite fn_insert_eq. destruct (decide (e = e)); done.
    + intros e' He'. wunfold. rewrite fn_insert_eq. destruct (decide (e = e')); congruence.
    + intros r' Hr' Hl'. wunfold. rewrite !fn_insert_eq.
      destruct (decide (r = r')); [congruence|]. destruct (decide (old = r')); congruence.
    + intros e'. wunfold. rewrite fn_insert_eq. destruct (decide (e = e')); subst; done.
  - repeat split.
    + intros r0 e0. wunfold. rewrite !fn_insert_eq.
      destruct (decide (r = r0)) as [<-|Hr]; destruct (decide (e = e0)) as [<-|He]; simpl; intros H0;
        try done.
      * apply elem_of_cons in H0 as [?|H0]; [done|]. by apply Hin.
      * apply Hin in H0. congruence.
      * by apply Hin.
    + intros e0 r0. wunfold. rewrite !fn_insert_eq.
      destruct (decide (e = e0)) as [<-|He]; simpl; intros H0.
      * inversion H0; subst. destruct (decide (r0 = r0)); [left|done].
      * destruct (decide (r = r0)) as [<-|Hr]; [right|]; by apply Hlk.
    + intros r0. wunfold. rewrite !fn_insert_eq.
      destruct (decide (r = r0)) as [<-|Hr]; [|apply Hnd].
      apply NoDup_cons. split; [done|apply Hnd].
    + wunfold. rewrite fn_insert_eq. destruct (decide (e = e)); done.
    + intros e' He'. wunfold. rewrite fn_insert_eq. destruct (decide (e = e')); congruence.
    + intros r' Hr' Hl'. wunfold. rewrite !fn_insert_eq.
      destruct (decide (r = r')); congruence.
    + intros e'. wunfold. rewrite fn_insert_eq. destruct (decide (e = e')); subst; done.
Qed.

Lemma fired_refl T w : fired T [] w w.
Proof.
  split; [by rewrite app_nil_r|]. split; [constructor|].
  split; [intros e t H; inversion H|]. split; [tauto|]. by intros e.
Qed.

Lemma fired_trans T b1 b2 w w1 w2 :
  fired T b1 w w1 -> fired T b2 w1 w2 -> fired T (b1 ++ b2) w w2.
Proof.
  intros (Hx1 & Hn1 & Hb1 & Ho1 & Ht1) (Hx2 & Hn2 & Hb2 & Ho2 & Ht2).
  assert (Hdisj : forall e, e ∈ b1.*1 -> e ∈ b2.*1 -> False).
  { intros e H1 H2. apply list_elem_of_fmap in H1 as ([e1 t1] & -> & H1).
    apply list_elem_of_fmap in H2 as ([e2 t2] & Heq & H2). simpl in *. subst e2.
    destruct (Hb1 _ _ H1) as (_ & _ & _ & Hl). destruct (Hb2 _ _ H2) as (_ & _ & Hl' & _).
    done. }
  repeat split.
  - rewrite Hx2, Hx1. by rewrite app_assoc.
  - rewrite fmap_app. apply NoDup_app. repeat split; eauto.
  - apply elem_of_app in H as [H|H]; [apply (Hb1 _ _ H)|apply (Hb2 _ _ H)].
  - apply elem_of_app in H as [H|H]; [apply (Hb1 _ _ H)|].
    rewrite <- Ht1. apply (Hb2 _ _ H).
  - apply elem_of_app in H as [H|H]; [apply (Hb1 _ _ H)|].
    destruct (Hb2 _ _ H) as (_ & _ & Hl & _).
    intros Hn. apply Hl. apply Ho1; [|done].
    intros Hin. apply (Hdisj e); [done|]. apply list_elem_of_fmap. by exists (e, t).
  - apply elem_of_app in H as [H|H]; [|apply (Hb2 _ _ H)].
    destruct (Hb1 _ _ H) as (_ & _ & _ & Hl).
    apply Ho2; [|done].
    intros Hin. apply (Hdisj e); [|done]. apply list_elem_of_fmap. by exists (e, t).
  - rewrite fmap_app, elem_of_app in H. intros Hl. apply Ho1; [tauto|]. apply Ho2; [tauto|done].
  - rewrite fmap_app, elem_of_app in H. intros Hl. apply Ho2; [tauto|]. apply Ho1; [tauto|done].
  - intros e. rewrite Ht2. apply Ht1.
Qed.

Lemma linked_ok_SetScheduleAt e ts w :
  linked_ok w -> linked_ok (SetScheduleAt e ts w).
Proof.
  intros (Hin & Hlk & Hnd). repeat split.
  - intros r e0 H0. wunfold. rewrite fn_insert_eq.
    destruct (decide (e = e0)) as [<-|]; simpl; by apply Hin.
  - intros e0 r. wunfold. rewrite fn_insert_eq.
    destruct (decide (e = e0)) as [<-|]; simpl; apply Hlk.
  - apply Hnd.
Qed.

Lemma Schedule_spec T e delta w :
  clock_at T w -> 0 <= T -> 0 < delta -> T + delta < 2 ^ 64 -> linked_ok w ->
  exists j s w',
    Schedule e delta w = Done w' /\
    level_walk (Z.to_nat kNumLevels) (now_ (wheel w)) 0 delta
      = Done (j, lv (T + delta) j - lv T j) /\
    s = Z.land (now w j + (lv (T + delta) j - lv T j)) kMask /\
    0 <= j <= 7 /\ placed T j s (T + delta) /\ (j = 0 <-> delta < 256) /\
    link w' e = Some (j, s) /\ scheduled_at w' e = T + delta /\
    (forall e', e' <> e ->
       link w' e' = link w e' /\ scheduled_at w' e' = scheduled_at w e') /\
    (forall r', r' <> (j, s) -> link w e <> Some r' -> slot w' r' = slot w r') /\
    same_clock w w' /\ executed w' = executed w /\ linked_ok w'.
Proof.
  intros Hclk HT Hd Hov Hok.
  destruct (level_walk_ok (now_ (wheel w)) T (T + delta) Hclk HT ltac:(lia)
              (Z.to_nat kNumLevels) 0 delta ltac:(lia) ltac:(reflexivity)
              ltac:(vm_compute; lia) ltac:(rewrite !lv_0; lia))
    as (j & d' & Hw & Hj & Hd' & Hb & Hone & Hiff).
  subst d'.
  set (s := Z.land (now w j + (lv (T + delta) j - lv T j)) kMask).
  assert (Hs : s = Z.land (lv (T + delta) j) kMask).
  { unfold s. rewrite (Hclk j) by lia. f_equal. lia. }
  set (w1 := SetScheduleAt e (wrap (now w 0 + delta)) w).
  assert (Hok1 : linked_ok w1) by (by apply linked_ok_SetScheduleAt).
  destruct (Relink_spec w1 e (j, s) Hok1) as (Hok' & Hl & Hlo & Hso & Ht & Hc & Hx).
  exists j, s, (Relink e (Some (j, s)) w1).
  assert (Hnow0 : now w 0 = T) by (rewrite (Hclk 0) by lia; apply lv_0).
  split.
  { unfold Schedule. fold w1.
    replace (now_ (wheel w1)) with (now_ (wheel w)) by reflexivity.
    rewrite Hw. simpl.
    replace (now w1 j) with (now w j) by reflexivity.
    rewrite wrap_small; [reflexivity|].
    rewrite (Hclk j) by lia. pose proof (lv_bound (T + delta) j ltac:(lia) ltac:(lia)).
    pose proof (lv_nonneg (T + delta) j ltac:(lia) ltac:(lia)). lia. }
  split; [exact Hw|]. split; [reflexivity|]. split; [lia|].
  split.
  { split; [exact Hs|]. destruct (Z.eq_dec j 0) as [->|]; [rewrite !lv_0; lia|].
    specialize (Hone ltac:(lia)). lia. }
  split; [exact Hiff|]. split; [exact Hl|].
  split.
  { rewrite Ht. unfold w1. wunfold. rewrite fn_insert_eq.
    destruct (decide (e = e)); [|done]. simpl.
    rewrite Hnow0. apply wrap_small. lia. }
  split.
  { intros e' He'. split.
    - rewrite Hlo by done. unfold w1. wunfold. rewrite fn_insert_eq.
      destruct (decide (e = e')); [done|reflexivity].
    - rewrite Ht. unfold w1. wunfold. rewrite fn_insert_eq.
      destruct (decide (e = e')); [done|reflexivity]. }
  split.
  { intros r' Hr' Hl'. rewrite Hso; [reflexivity|done|].
    unfold w1. wunfold. rewrite fn_insert_eq. destruct (decide (e = e)); done. }
  split; [exact Hc|]. split; [exact Hx|exact Hok'].
Qed.

Lemma placed_not_current T j a :
  0 <= j -> ~ placed T j (Z.land (lv T j) kMask) a.
Proof.
  intros Hj [Hs Hd]. rewrite !land_mask in Hs.
  assert (lv a j = lv T j + (lv a j - lv T j)) by lia.
  rewrite H in Hs.
  rewrite <- (Z.mod_small (lv a j - lv T j) 256) in Hs at 1 by lia.
  assert ((lv a j - lv T j) mod 256 = 0).
  { apply (f_equal (fun x => (x - lv T j mod 256) mod 256)) in Hs.
    rewrite Z.sub_diag in Hs. rewrite Zminus_mod_idemp_r in Hs.
    rewrite Zminus_mod_idemp_l in Hs.
    replace (lv T j + (lv a j - lv T j) `mod` 256 - lv T j) with ((lv a j - lv T j) `mod` 256) in Hs by lia.
    rewrite Z.mod_mod in Hs by lia. rewrite Z.mod_0_l in Hs by lia. lia. }
  rewrite Z.mod_small in H0 by lia. lia.
Qed.

Lemma due_range T l a :
  0 <= l -> 0 <= T -> 0 <= a -> lv T l * 2 ^ (8 * l) = T -> lv a l = lv T l ->
  T <= a < T + 2 ^ (8 * l).
Proof.
  intros Hl HT Ha Hmul Heq. rewrite lv_div in Heq by lia.
  assert (0 < 2 ^ (8 * l)) by (apply Z.pow_pos_nonneg; lia).
  pose proof (Z.div_mod a (2 ^ (8 * l)) ltac:(lia)).
  pose proof (Z.mod_pos_bound a (2 ^ (8 * l)) ltac:(lia)).
  rewrite Heq in H0. nia.
Qed.

Lemma clock_at_same T w w' : same_clock w w' -> clock_at T w -> clock_at T w'.
Proof. intros [Hn _] Hc j Hj. rewrite Hn. by apply Hc. Qed.

Lemma Execute_spec e w :
  let w' := Execute e w in
  executed w' = executed w ++ [(e, now w 0)] /\
  (forall r, slot w' r = slot w r) /\ (forall e', link w' e' = link w e') /\
  same_ticks w w' /\ same_clock w w' /\ (linked_ok w -> linked_ok w').
Proof. simpl. split; [done|]. do 4 (split; [done|]). intros H. exact H. Qed.

(** The loop of [ProcessCurrentSlot] on the current slot of level [l], at a
    tick [T] that is a multiple of [2^(8l)]. *)
Lemma drain_spec T l :
  0 <= l <= 7 -> 0 <= T < 2 ^ 64 -> lv T l * 2 ^ (8 * l) = T ->
  forall fuel m w,
    clock_at T w -> linked_ok w -> inv_G T l w ->
    (length (slot w (l, Z.land (lv T l) kMask)) < fuel)%nat ->
    Z.of_nat (length (slot w (l, Z.land (lv T l) kMask))) < m < 2 ^ 64 ->
    exists w' batch,
      drain fuel (l, Z.land (lv T l) kMask) l m w = Done (true, w') /\
      slot w' (l, Z.land (lv T l) kMask) = [] /\
      same_clock w w' /\ linked_ok w' /\ inv_G T l w' /\ fired T batch w w'.
Proof.
  intros Hl HT Hmul. set (r := (l, Z.land (lv T l) kMask)).
  induction fuel as [|fuel IH]; intros m w Hclk Hok HG Hfuel Hm; [lia|].
  simpl. destruct (slot w r) as [|e rest] eqn:Hs.
  { exists w, []. split; [done|]. split; [done|]. split; [by split|].
    split; [done|]. split; [done|]. apply fired_refl. }
  destruct (PopEvent_spec w r e rest Hs Hok) as (Hs1 & Hso1 & Hl1 & Hlo1 & Ht1 & Hc1 & Hx1 & Hok1).
  set (w1 := PopEvent r w) in *. simpl in Hfuel, Hm.
  assert (Hle : link w e = Some r) by (apply Hok; rewrite Hs; left).
  destruct (HG e l _ Hle) as (_ & Ha & Hpl).
  assert (Hdue : lv (scheduled_at w e) l = lv T l).
  { destruct Hpl as [Hp|[_ [_ Hd]]]; [|done]. by apply placed_not_current in Hp; [|lia]. }
  pose proof (due_range T l (scheduled_at w e) ltac:(lia) ltac:(lia) ltac:(lia) Hmul Hdue) as Hrange.
  assert (Hnow : now w1 0 = T).
  { destruct Hc1 as [Hn _]. rewrite Hn, (Hclk 0) by lia. apply lv_0. }
  assert (Hclk1 : clock_at T w1) by (by apply (clock_at_same T w)).
  assert (HG1 : inv_G T l w1).
  { intros e0 j s H0. destruct (decide (e0 = e)) as [->|Hne]; [congruence|].
    rewrite Hlo1 in H0 by done. rewrite Ht1. by apply HG. }
  rewrite Ht1, Hnow.
  destruct ((0 <? l) && negb (scheduled_at w e <=? T)) eqn:Hcond.
  - (* not yet due: back into the wheel at the residual delta *)
    apply andb_true_iff in Hcond as [Hl0 Hlate].
    apply Z.ltb_lt in Hl0. apply negb_true_iff, Z.leb_gt in Hlate.
    rewrite wrap_small by lia.
    destruct (Schedule_spec T e (scheduled_at w e - T) w1 Hclk1 ltac:(lia) ltac:(lia)
                ltac:(lia) Hok1)
      as (j & s & w2 & HS & _ & _ & Hj & Hp & _ & Hl2 & Ht2 & Hlo2 & Hso2 & Hc2 & Hx2 & Hok2).
    replace (T + (scheduled_at w e - T)) with (scheduled_at w e) in * by lia.
    rewrite HS. simpl.
    assert (Hrne : r <> (j, s)).
    { intros Heq. unfold r in Heq. inversion Heq; subst j s.
      by apply placed_not_current in Hp; [|lia]. }
    assert (Hs2 : slot w2 r = rest).
    { rewrite Hso2; [done|done|congruence]. }
    destruct (IH m w2) as (w' & batch & HD & Hse & Hc' & Hok' & HG' & Hf').
    + by apply (clock_at_same T w1).
    + done.
    + intros e0 j0 s0 H0. destruct (decide (e0 = e)) as [->|Hne].
      * rewrite Hl2 in H0. inversion H0; subst j0 s0. rewrite Ht2.
        split; [lia|]. split; [lia|]. by left.
      * destruct (Hlo2 e0 Hne) as [Hla Hta]. rewrite Hla in H0. rewrite Hta.
        by apply HG1.
    + rewrite Hs2. lia.
    + rewrite Hs2. lia.
    + exists w', batch. split; [done|]. split; [done|].
      split.
      { destruct Hc1 as [? ?], Hc2 as [? ?], Hc' as [? ?].
        split; [intros; congruence|congruence]. }
      split; [done|]. split; [done|].
      replace batch with ([] ++ batch) by done.
      apply (fired_trans T [] batch w w2 w'); [|done].
      split; [rewrite Hx2, Hx1; by rewrite app_nil_r|]. split; [constructor|].
      split; [intros ? ? H0; inversion H0|].
      split.
      { intros e0 _. destruct (decide (e0 = e)) as [->|Hne].
        - rewrite Hl2, Hle. done.
        - destruct (Hlo2 e0 Hne) as [Hla _]. rewrite Hla, Hlo1 by done. done. }
      intros e0. destruct (decide (e0 = e)) as [->|Hne].
      { rewrite Ht2. done. }
      destruct (Hlo2 e0 Hne) as [_ Hta]. rewrite Hta. apply Ht1.
  - (* level 0, or due now *)
    assert (Hat : scheduled_at w e = T).
    { apply andb_false_iff in Hcond as [Hl0|Hdue'].
      - apply Z.ltb_ge in Hl0. assert (l = 0) by lia. subst l.
        rewrite !lv_0 in Hdue. done.
      - apply negb_false_iff, Z.leb_le in Hdue'. lia. }
    rewrite wrap_small by lia.
    destruct (Z.eqb_spec (m - 1) 0) as [?|Hm1]; [lia|].
    set (w2 := Execute e w1).
    destruct (IH (m - 1) w2) as (w' & batch & HD & Hse & Hc' & Hok' & HG' & Hf').
    + done.
    + done.
    + done.
    + change (slot w2 r) with (slot w1 r). rewrite Hs1. lia.
    + change (slot w2 r) with (slot w1 r). rewrite Hs1. lia.
    + exists w', ((e, T) :: batch). split; [done|]. split; [done|].
      split.
      { destruct Hc1 as [? ?], Hc' as [Hn' Hp'].
        split; [intros; rewrite Hn'; change (now w2 l0) with (now w1 l0); auto|].
        rewrite Hp'. change (pending w2) with (pending w1). done. }
      split; [done|]. split; [done|].
      change ((e, T) :: batch) with ([(e, T)] ++ batch).
      apply (fired_trans T _ batch w w2 w'); [|done].
      split.
      { change (executed w2) with (executed w1 ++ [(e, now w1 0)]).
        rewrite Hx1, Hnow. done. }
      split; [simpl; apply NoDup_singleton|].
      split.
      { intros e0 t H0. apply list_elem_of_singleton in H0. inversion H0; subst e0 t.
        split; [done|]. split; [done|]. split; [congruence|]. done. }
      split.
      { intros e0 H0. simpl in H0. rewrite list_elem_of_singleton in H0.
        change (link w2 e0) with (link w1 e0). rewrite Hlo1 by done. done. }
      intros e0. change (scheduled_at w2 e0) with (scheduled_at w1 e0). apply Ht1.
Qed.

Lemma bounded_length U w r :
  bounded U w -> linked_ok w -> (length (slot w r) <= length U)%nat.
Proof.
  intros Hb (Hin & _ & Hnd). apply submseteq_length, NoDup_submseteq; [apply Hnd|].
  intros e He. apply Hb. rewrite (Hin _ _ He). done.
Qed.

Lemma fired_bounded T b U w w' : fired T b w w' -> bounded U w -> bounded U w'.
Proof.
  intros (_ & _ & Hb & Ho & _) HU e He. apply HU.
  destruct (decide (e ∈ b.*1)) as [Hin|Hnin].
  - apply list_elem_of_fmap in Hin as ([e1 t1] & -> & Hin). simpl in *.
    destruct (Hb _ _ Hin) as (_ & _ & _ & ?). done.
  - intros Hn. apply He. by apply Ho.
Qed.

Lemma pow8_pos l : 0 <= l -> 0 < 2 ^ (8 * l).
Proof. intros. apply Z.pow_pos_nonneg; lia. Qed.

Lemma pow8_succ l : 0 <= l -> 2 ^ (8 * (l + 1)) = 256 * 2 ^ (8 * l).
Proof.
  intros. replace (8 * (l + 1)) with (8 + 8 * l) by lia.
  rewrite Z.pow_add_r by lia. reflexivity.
Qed.

(** A tick that starts a new rotation of level [l] is a multiple of the
    next level's span as well. *)
Lemma cascade_multiple T l :
  0 <= l -> lv T l * 2 ^ (8 * l) = T -> Z.land (lv T l) kMask = 0 ->
  lv T (l + 1) * 2 ^ (8 * (l + 1)) = T.
Proof.
  intros Hl Hmul Hz. rewrite land_mask in Hz.
  rewrite lv_succ, pow8_succ by lia.
  pose proof (Z.div_mod (lv T l) 256 ltac:(lia)). nia.
Qed.

Lemma lv_pred_multiple T j :
  0 <= j -> 1 <= T -> lv T j * 2 ^ (8 * j) = T -> lv (T - 1) j = lv T j - 1.
Proof.
  intros Hj HT Hmul. pose proof (pow8_pos j Hj) as Hp.
  rewrite (lv_div (T - 1)) by lia.
  symmetry. apply (Z.div_unique _ _ _ (2 ^ (8 * j) - 1)); [lia|]. lia.
Qed.

Lemma multiple_below T l j :
  0 <= j <= l -> lv T l * 2 ^ (8 * l) = T -> lv T j * 2 ^ (8 * j) = T.
Proof.
  intros Hj Hmul. pose proof (pow8_pos j ltac:(lia)) as Hp.
  rewrite (lv_div T j) by lia.
  assert (Hsplit : 2 ^ (8 * l) = 2 ^ (8 * (l - j)) * 2 ^ (8 * j)).
  { rewrite <- Z.pow_add_r by lia. f_equal. lia. }
  rewrite <- Hmul at 1. rewrite Hsplit, Z.mul_assoc, Z.div_mul by lia.
  rewrite <- Z.mul_assoc, <- Hsplit. exact Hmul.
Qed.

Lemma lv_pred_same T l j :
  0 <= l < j -> 1 <= T -> lv T l * 2 ^ (8 * l) = T -> Z.land (lv T l) kMask <> 0 ->
  lv (T - 1) j = lv T j.
Proof.
  intros Hj HT Hmul Hnz. rewrite land_mask in Hnz.
  pose proof (pow8_pos j ltac:(lia)) as Hp. pose proof (pow8_pos l ltac:(lia)) as Hpl.
  rewrite !lv_div by lia.
  assert (Hmod : T mod 2 ^ (8 * j) <> 0).
  { intros Hm. apply Hnz.
    assert (Hsplit : 2 ^ (8 * j) = 2 ^ (8 * (j - l - 1)) * 256 * 2 ^ (8 * l)).
    { change 256 with (2 ^ 8). rewrite <- !Z.pow_add_r by lia. f_equal. lia. }
    apply Z.mod_divide in Hm; [|lia]. destruct Hm as [k Hk].
    assert (lv T l = k * 2 ^ (8 * (j - l - 1)) * 256) by nia.
    rewrite H. apply Z.mod_mul. lia. }
  pose proof (Z.div_mod T (2 ^ (8 * j)) ltac:(lia)).
  pose proof (Z.mod_pos_bound T (2 ^ (8 * j)) ltac:(lia)).
  symmetry. apply (Z.div_unique _ _ _ (T mod 2 ^ (8 * j) - 1)); lia.
Qed.

Lemma top_not_zero T : 1 <= T < 2 ^ 64 -> lv T 7 * 2 ^ (8 * 7) = T ->
  Z.land (lv T 7) kMask <> 0.
Proof.
  intros HT Hmul Hz. rewrite land_mask in Hz.
  pose proof (lv_top T ltac:(lia)). pose proof (lv_nonneg T 7 ltac:(lia) ltac:(lia)).
  rewrite Z.mod_small in Hz by lia. lia.
Qed.

(** Moving the clock from [T - 1] to [T] leaves every event placed, except
    those of the slots that become current, on the levels that roll over. *)
Lemma inv_G_tick T l w :
  0 <= l <= 7 -> 1 <= T -> lv T l * 2 ^ (8 * l) = T ->
  (forall j, l < j <= 7 -> lv (T - 1) j = lv T j) ->
  inv_G (T - 1) (-1) w -> inv_G T l w.
Proof.
  intros Hl HT Hmul Hup HG e j s He.
  destruct (HG e j s He) as (Hj & Ha & Hpl). split; [done|]. split; [done|].
  destruct Hpl as [[Hs Hd]|[? _]]; [|lia].
  destruct (Z_le_gt_dec j l) as [Hjl|Hjl].
  - pose proof (multiple_below T l j ltac:(lia) Hmul) as Hmj.
    rewrite (lv_pred_multiple T j ltac:(lia) HT Hmj) in Hd.
    destruct (Z.eq_dec (lv (scheduled_at w e) j) (lv T j)) as [Heq|Hne].
    + right. split; [done|]. split; [|done]. by rewrite <- Heq.
    + left. split; [done|lia].
  - left. rewrite Hup in Hd by lia. split; done.
Qed.

Lemma ProcessCurrentSlot_unfold up fuel t m l w :
  ProcessCurrentSlot up fuel t m l w =
  (p <- (if (Z.land t kMask =? 0) && (l <? kMaxLevel) then
           match up with
           | O => Fault OutOfRange
           | S up' => Advance_body (ProcessCurrentSlot up' fuel) 1 m (l + 1) w
           end
         else Done (true, w)) ;;
   if negb (fst p) then Done (false, snd p)
   else drain fuel (l, Z.land t kMask) l m (snd p)).
Proof. destruct up; reflexivity. Qed.

Section Tick.
Variables (U : list EventId) (fuel : nat) (m : Z) (T : Z).
Hypothesis HT : 1 <= T < 2 ^ 64.
Hypothesis Hfuel : (length U < fuel)%nat.
Hypothesis Hm : Z.of_nat (length U) < m < 2 ^ 64.

(** [ProcessCurrentSlot] at level [l], entered when the levels up to [l]
    already show the new tick [T]. *)
Lemma ProcessCurrentSlot_spec :
  forall up l w,
    Z.of_nat up = 7 - l -> 0 <= l -> lv T l * 2 ^ (8 * l) = T ->
    (forall j, 0 <= j <= l -> now w j = lv T j) ->
    (forall j, l < j <= 7 -> now w j = lv (T - 1) j) ->
    pending w = 0 -> linked_ok w -> inv_G (T - 1) (-1) w -> bounded U w ->
    exists w' batch,
      ProcessCurrentSlot up fuel (lv T l) m l w = Done (true, w') /\
      clock_at T w' /\ pending w' = 0 /\ linked_ok w' /\
      inv_G T (l - 1) w' /\ fired T batch w w'.
Proof.
  induction up as [|up IH]; intros l w Hup Hl Hmul Hlow Hhigh Hpend Hok HG HU;
    rewrite ProcessCurrentSlot_unfold.
  - (* the outermost level *)
    assert (l = 7) by lia. subst l.
    replace (7 <? kMaxLevel) with false by reflexivity. rewrite andb_false_r. simpl bind.
    cbn [fst snd negb].
    pose proof (top_not_zero T HT Hmul) as Hnz.
    assert (Hclk : clock_at T w) by (intros j Hj; apply Hlow; lia).
    assert (HG' : inv_G T 7 w).
    { apply inv_G_tick; try lia; try done. }
    destruct (drain_spec T 7 ltac:(lia) ltac:(lia) Hmul fuel m w Hclk Hok HG')
      as (w' & batch & HD & Hse & Hc & Hok' & HGd & Hf).
    { pose proof (bounded_length U w (7, Z.land (lv T 7) kMask) HU Hok). lia. }
    { pose proof (bounded_length U w (7, Z.land (lv T 7) kMask) HU Hok). lia. }
    exists w', batch. split; [done|]. split; [by apply (clock_at_same T w)|].
    split; [destruct Hc; congruence|]. split; [done|]. split; [|done].
    intros e j s He. destruct (HGd e j s He) as (Hj & Ha & Hpl).
    split; [done|]. split; [done|].
    destruct Hpl as [?|[Hj7 Hd]]; [by left|]. right. split; [|done].
    destruct (Z.eq_dec j 7) as [->|]; [|lia].
    exfalso. destruct Hd as [-> _]. apply Hok' in He. rewrite Hse in He. inversion He.
  - destruct ((Z.land (lv T l) kMask =? 0) && (l <? kMaxLevel)) eqn:Hcas.
    + (* level [l] starts a new rotation: one tick of the level above first *)
      apply andb_true_iff in Hcas as [Hz _]. apply Z.eqb_eq in Hz.
      pose proof (cascade_multiple T l Hl Hmul Hz) as Hmul'.
      unfold Advance_body. rewrite Hpend. simpl Z.eqb. cbv iota.
      change (Z.to_nat 1) with 1%nat. cbn [advance_ticks].
      assert (Ht' : wrap (now w (l + 1) + 1) = lv T (l + 1)).
      { rewrite Hhigh by lia. rewrite (lv_pred_multiple T (l + 1)) by (try lia; done).
        pose proof (lv_nonneg T (l + 1) ltac:(lia) ltac:(lia)).
        pose proof (lv_bound T (l + 1) ltac:(lia) ltac:(lia)).
        rewrite wrap_small by lia. lia. }
      rewrite Ht'.
      set (w1 := set_now (l + 1) (lv T (l + 1)) w).
      destruct (IH (l + 1) w1) as (w2 & b2 & HP & Hclk2 & Hp2 & Hok2 & HG2 & Hf2);
        try done; try lia.
      { intros j Hj. unfold w1, now, set_now. cbn. rewrite fn_insert_eq.
        destruct (decide (l + 1 = j)) as [<-|]; [done|]. apply Hlow. lia. }
      { intros j Hj. unfold w1, now, set_now. cbn. rewrite fn_insert_eq.
        destruct (decide (l + 1 = j)) as [|]; [lia|]. apply Hhigh. lia. }
      rewrite HP. simpl bind. cbn [fst snd negb].
      replace (l + 1 - 1) with l in HG2 by lia.
      assert (HU2 : bounded U w2) by (by apply (fired_bounded T b2 U w1)).
      destruct (drain_spec T l ltac:(lia) ltac:(lia) Hmul fuel m w2 Hclk2 Hok2 HG2)
        as (w' & batch & HD & Hse & Hc & Hok' & HGd & Hf).
      { pose proof (bounded_length U w2 (l, Z.land (lv T l) kMask) HU2 Hok2). lia. }
      { pose proof (bounded_length U w2 (l, Z.land (lv T l) kMask) HU2 Hok2). lia. }
      exists w', (b2 ++ batch). split; [done|]. split; [by apply (clock_at_same T w2)|].
      split; [destruct Hc; congruence|]. split; [done|]. split.
      * intros e j s He. destruct (HGd e j s He) as (Hj & Ha & Hpl).
        split; [done|]. split; [done|].
        destruct Hpl as [?|[Hjl Hd]]; [by left|]. right. split; [|done].
        destruct (Z.eq_dec j l) as [->|]; [|lia].
        exfalso. destruct Hd as [-> _]. apply Hok' in He. rewrite Hse in He. inversion He.
      * apply (fired_trans T b2 batch w w2 w'); [|done]. exact Hf2.
    + (* no rotation above *)
      simpl bind. cbn [fst snd negb].
      assert (Hnz : Z.land (lv T l) kMask <> 0).
      { apply andb_false_iff in Hcas as [Hz|Hl7].
        - by apply Z.eqb_neq in Hz.
        - apply Z.ltb_ge in Hl7. change kMaxLevel with 7 in Hl7.
          assert (l = 7) by lia. subst l. by apply top_not_zero. }
      assert (Hsame : forall j, l < j <= 7 -> lv (T - 1) j = lv T j).
      { intros j Hj. apply (lv_pred_same T l); try lia; done. }
      assert (Hclk : clock_at T w).
      { intros j Hj. destruct (Z_le_gt_dec j l); [apply Hlow; lia|].
        rewrite Hhigh by lia. apply Hsame. lia. }
      assert (HG' : inv_G T l w) by (apply inv_G_tick; try lia; done).
      destruct (drain_spec T l ltac:(lia) ltac:(lia) Hmul fuel m w Hclk Hok HG')
        as (w' & batch & HD & Hse & Hc & Hok' & HGd & Hf).
      { pose proof (bounded_length U w (l, Z.land (lv T l) kMask) HU Hok). lia. }
      { pose proof (bounded_length U w (l, Z.land (lv T l) kMask) HU Hok). lia. }
      exists w', batch. split; [done|]. split; [by apply (clock_at_same T w)|].
      split; [destruct Hc; congruence|]. split; [done|]. split; [|done].
      intros e j s He. destruct (HGd e j s He) as (Hj & Ha & Hpl).
      split; [done|]. split; [done|].
      destruct Hpl as [?|[Hjl Hd]]; [by left|]. right. split; [|done].
      destruct (Z.eq_dec j l) as [->|]; [|lia].
      exfalso. destruct Hd as [-> _]. apply Hok' in He. rewrite Hse in He. inversion He.
Qed.

End Tick.

Lemma ran_refl T w : ran T T [] w w.
Proof.
  split; [by rewrite app_nil_r|]. split; [constructor|]. split; [constructor|].
  split; [intros e t H; inversion H|]. split; [tauto|]. by intros e.
Qed.

Lemma fired_ran T b w w' : fired T b w w' -> ran (T - 1) T b w w'.
Proof.
  intros (Hx & Hn & Hb & Ho & Ht). split; [done|]. split; [done|].
  split.
  { assert (Hall : forall x, x ∈ b -> x.2 = T).
    { intros [e t] Hin. by destruct (Hb _ _ Hin) as (-> & _). }
    clear -Hall. induction b as [|x b IH]; constructor.
    - apply IH. intros y Hy. apply Hall. by right.
    - apply Forall_forall. intros y Hy. unfold by_tick.
      assert (Hx : x.2 = T) by (apply Hall; left).
      assert (Hy' : y.2 = T) by (apply Hall; by right).
      rewrite Hx, Hy'. lia. }
  split; [|done].
  intros e t Hin. destruct (Hb _ _ Hin) as (-> & ? & ? & ?). repeat split; try done; lia.
Qed.

Lemma ran_trans T0 T1 T2 l1 l2 w w1 w2 :
  T1 <= T2 -> T0 <= T1 ->
  ran T0 T1 l1 w w1 -> ran T1 T2 l2 w1 w2 -> ran T0 T2 (l1 ++ l2) w w2.
Proof.
  intros H12 H01 (Hx1 & Hn1 & Hs1 & Hb1 & Ho1 & Ht1) (Hx2 & Hn2 & Hs2 & Hb2 & Ho2 & Ht2).
  assert (Hdisj : forall e, e ∈ l1.*1 -> e ∈ l2.*1 -> False).
  { intros e H1 H2. apply list_elem_of_fmap in H1 as ([e1 t1] & -> & H1).
    apply list_elem_of_fmap in H2 as ([e2 t2] & Heq & H2). simpl in *. subst e2.
    destruct (Hb1 _ _ H1) as (_ & _ & _ & Hl). destruct (Hb2 _ _ H2) as (_ & _ & Hl' & _).
    done. }
  split; [rewrite Hx2, Hx1; by rewrite app_assoc|].
  split; [rewrite fmap_app; apply NoDup_app; repeat split; eauto|].
  split.
  { apply StronglySorted_app. split; [|done].
    intros [e1 t1] [e2 t2] H1 H2. unfold by_tick. simpl.
    destruct (Hb1 _ _ H1) as (? & _). destruct (Hb2 _ _ H2) as (? & _). lia. }
  split.
  { intros e t H. apply elem_of_app in H as [H|H].
    - destruct (Hb1 _ _ H) as (? & ? & ? & Hl). split; [lia|]. split; [done|]. split; [done|].
      apply Ho2; [|done].
      intros Hin. apply (Hdisj e); [|done]. apply list_elem_of_fmap. by exists (e, t).
    - destruct (Hb2 _ _ H) as (? & ? & Hl & ?). split; [lia|].
      split; [by rewrite <- Ht1|]. split; [|done].
      intros Hn. apply Hl. apply Ho1; [|done].
      intros Hin. apply (Hdisj e); [done|]. apply list_elem_of_fmap. by exists (e, t). }
  split.
  { intros e H. rewrite fmap_app, elem_of_app in H.
    rewrite (Ho2 e) by tauto. apply Ho1. tauto. }
  intros e. rewrite Ht2. apply Ht1.
Qed.

Lemma ran_bounded T T' l U w w' : ran T T' l w w' -> bounded U w -> bounded U w'.
Proof.
  intros (_ & _ & _ & Hb & Ho & _) HU e He. apply HU.
  destruct (decide (e ∈ l.*1)) as [Hin|Hnin].
  - apply list_elem_of_fmap in Hin as ([e1 t1] & -> & Hin). simpl in *.
    destruct (Hb _ _ Hin) as (_ & _ & _ & ?). done.
  - intros Hn. apply He. by apply Ho.
Qed.

Lemma wheel_inv_new t : 0 <= t < 2 ^ 64 -> wheel_inv t (World_new t).
Proof.
  intros Ht. split; [done|]. split; [by intros j Hj|]. split; [done|].
  split.
  - split; [intros r e H; inversion H|]. split; [intros e r H; inversion H|].
    intros r. constructor.
  - intros e j s H. inversion H.
Qed.

Section Run.
Variables (U : list EventId) (fuel : nat) (m : Z).
Hypothesis Hfuel : (length U < fuel)%nat.
Hypothesis Hm : Z.of_nat (length U) < m < 2 ^ 64.

(** One iteration of the [while (delta--)] loop at level 0. *)
Lemma tick_spec T w :
  wheel_inv T w -> T + 1 < 2 ^ 64 -> bounded U w ->
  exists w' batch,
    ProcessCurrentSlot 7 fuel (T + 1) m 0 (set_now 0 (T + 1) w) = Done (true, w') /\
    wheel_inv (T + 1) w' /\ fired (T + 1) batch w w'.
Proof.
  intros (HT & Hclk & Hp & Hok & HG) Hov HU.
  destruct (ProcessCurrentSlot_spec U fuel m (T + 1) ltac:(lia) Hfuel Hm 7 0
              (set_now 0 (T + 1) w))
    as (w' & batch & HP & Hclk' & Hp' & Hok' & HG' & Hf); try done.
  - rewrite lv_0. simpl. lia.
  - intros j Hj. assert (j = 0) by lia. subst j. rewrite lv_0.
    unfold now, set_now. cbn. by rewrite fn_insert_eq.
  - intros j Hj. replace (T + 1 - 1) with T by lia. rewrite <- Hclk by lia.
    unfold now, set_now. cbn. rewrite fn_insert_eq. destruct (decide (0 = j)); [lia|done].
  - by replace (T + 1 - 1) with T by lia.
  - rewrite lv_0 in HP. exists w', batch. split; [done|]. split; [|done].
    split; [lia|]. split; [done|]. split; [done|]. split; done.
Qed.

Lemma advance_ticks_spec :
  forall n T w,
    wheel_inv T w -> T + Z.of_nat n < 2 ^ 64 -> bounded U w ->
    exists w' log,
      advance_ticks (ProcessCurrentSlot 7 fuel) n m 0 w = Done (true, w') /\
      wheel_inv (T + Z.of_nat n) w' /\ ran T (T + Z.of_nat n) log w w'.
Proof.
  induction n as [|n IH]; intros T w Hinv Hov HU.
  - exists w, []. simpl. rewrite Z.add_0_r. split; [done|]. split; [done|]. apply ran_refl.
  - cbn [advance_ticks].
    assert (Hnow : now w 0 = T).
    { destruct Hinv as (? & Hclk & _). rewrite (Hclk 0) by lia. apply lv_0. }
    rewrite Hnow. rewrite wrap_small by (destruct Hinv; lia).
    destruct (tick_spec T w Hinv ltac:(lia) HU) as (w1 & batch & HP & Hinv1 & Hf).
    rewrite HP. simpl bind. cbn [fst snd].
    destruct (IH (T + 1) w1 Hinv1 ltac:(lia) ltac:(by apply (fired_bounded (T + 1) batch U w)))
      as (w' & log & HA & Hinv' & Hr).
    replace (T + 1 + Z.of_nat n) with (T + Z.of_nat (S n)) in * by lia.
    exists w', (batch ++ log). split; [done|]. split; [done|].
    apply (ran_trans T (T + 1) _ batch log w w1 w'); try lia; [|done].
    apply fired_ran in Hf. by replace (T + 1 - 1) with T in Hf by lia.
Qed.

(** [Advance] with nothing pending. *)
Lemma Advance_spec T delta w :
  wheel_inv T w -> 0 <= delta -> T + delta < 2 ^ 64 -> bounded U w ->
  exists w' log,
    Advance fuel delta m 0 w = Done (true, w') /\
    wheel_inv (T + delta) w' /\ ran T (T + delta) log w w'.
Proof.
  intros Hinv Hd Hov HU.
  destruct (advance_ticks_spec (Z.to_nat delta) T w Hinv ltac:(lia) HU)
    as (w' & log & HA & Hinv' & Hr).
  rewrite Z2Nat.id in * by lia.
  exists w', log. split; [|done].
  unfold Advance, Advance_body. destruct Hinv as (_ & _ & Hp & _). rewrite Hp.
  exact HA.
Qed.

End Run.

(** [Schedule] on a wheel between two calls. *)
Lemma Schedule_inv T e delta w :
  wheel_inv T w -> 0 < delta -> T + delta < 2 ^ 64 ->
  exists w',
    Schedule e delta w = Done w' /\ wheel_inv T w' /\
    link w' e <> None /\ scheduled_at w' e = T + delta /\
    (forall e', e' <> e ->
       link w' e' = link w e' /\ scheduled_at w' e' = scheduled_at w e') /\
    executed w' = executed w.
Proof.
  intros (HT & Hclk & Hp & Hok & HG) Hd Hov.
  destruct (Schedule_spec T e delta w Hclk ltac:(lia) Hd Hov Hok)
    as (j & s & w' & HS & _ & _ & Hj & Hpl & _ & Hl & Hat & Hlo & _ & Hc & Hx & Hok').
  exists w'. split; [done|]. split.
  { split; [done|]. split; [by apply (clock_at_same T w)|].
    split; [destruct Hc; congruence|]. split; [done|].
    intros e0 j0 s0 H0. destruct (decide (e0 = e)) as [->|Hne].
    - rewrite Hl in H0. inversion H0; subst j0 s0. rewrite Hat.
      split; [done|]. split; [lia|]. by left.
    - destruct (Hlo e0 Hne) as [Hla Hta]. rewrite Hla in H0. rewrite Hta. by apply HG. }
  split; [congruence|]. split; [done|]. split; done.
Qed.

Lemma Cancel_spec w e :
  linked_ok w ->
  let w' := Cancel e w in
  linked_ok w' /\ link w' e = None /\
  (forall e', e' <> e -> link w' e' = link w e') /\
  (forall r', link w e <> Some r' -> slot w' r' = slot w r') /\
  same_ticks w w' /\ same_clock w w' /\ executed w' = executed w /\
  called_off w' = called_off w.
Proof.
  intros (Hin & Hlk & Hnd) w'. subst w'. unfold Cancel.
  destruct (link w e) as [old|] eqn:Hold.
  2:{ split; [done|]. split; [done|]. split; [done|]. split; [done|].
      split; [done|]. split; done. }
  unfold Relink. rewrite Hold. destruct (decide (None = Some old)) as [|_]; [done|].
  split; [split; [|split]|].
  - intros r0 e0. wunfold. rewrite !fn_insert_eq.
    destruct (decide (e = e0)) as [<-|He]; simpl; intros H0.
    + destruct (decide (old = r0)) as [<-|Hr].
      * unfold unlink in H0. apply list_elem_of_filter in H0 as [? _]. done.
      * apply Hin in H0. congruence.
    + destruct (decide (old = r0)) as [<-|Hr].
      * unfold unlink in H0. apply list_elem_of_filter in H0 as [_ ?]. by apply Hin.
      * by apply Hin.
  - intros e0 r0. wunfold. rewrite !fn_insert_eq.
    destruct (decide (e = e0)) as [<-|He]; simpl; intros H0; [done|].
    destruct (decide (old = r0)) as [<-|Hr].
    + unfold unlink. apply list_elem_of_filter. split; [congruence|by apply Hlk].
    + by apply Hlk.
  - intros r0. wunfold. rewrite !fn_insert_eq.
    destruct (decide (old = r0)) as [<-|]; [|apply Hnd].
    unfold unlink. apply NoDup_filter, Hnd.
  - split.
    { wunfold. rewrite fn_insert_eq. destruct (decide (e = e)); done. }
    split.
    { intros e' He'. wunfold. rewrite fn_insert_eq. destruct (decide (e = e')); congruence. }
    split.
    { intros r' Hr'. wunfold. rewrite !fn_insert_eq. destruct (decide (old = r')); congruence. }
    split.
    { intros e'. wunfold. rewrite fn_insert_eq. destruct (decide (e = e')); subst; done. }
    split; [done|]. split; done.
Qed.

(** [TimerEventBase::Cancel] keeps the state of the wheel between two
    calls, unlinks the event and leaves every other event alone. *)
Lemma Cancel_inv T e w :
  wheel_inv T w ->
  wheel_inv T (Cancel e w) /\ link (Cancel e w) e = None /\
  (forall e', e' <> e -> link (Cancel e w) e' = link w e') /\
  same_ticks w (Cancel e w) /\ executed (Cancel e w) = executed w.
Proof.
  intros (HT & Hclk & Hp & Hok & HG).
  destruct (Cancel_spec w e Hok) as (Hok' & Hl & Hlo & _ & Ht & Hc & Hx & _).
  split; [|done].
  split; [done|]. split; [by apply (clock_at_same T w)|].
  split; [destruct Hc; congruence|]. split; [done|].
  intros e0 j0 s0 H0. destruct (decide (e0 = e)) as [->|Hne]; [congruence|].
  rewrite Hlo in H0 by done. rewrite Ht. by apply HG.
Qed.

Lemma filter_fst_none (e : EventId) (l : list (EventId * Tick)) :
  e ∉ l.*1 -> filter (fun x => x.1 = e) l = [].
Proof.
  induction l as [|[e1 t1] l IH]; intros Hn; [done|].
  rewrite fmap_cons, not_elem_of_cons in Hn. destruct Hn as [Hne Hn]. simpl in Hne.
  rewrite filter_cons_False by (simpl; congruence). by apply IH.
Qed.

Lemma filter_fst_unique (e : EventId) (t : Tick) (l : list (EventId * Tick)) :
  NoDup l.*1 -> (e, t) ∈ l -> filter (fun x => x.1 = e) l = [(e, t)].
Proof.
  induction l as [|[e1 t1] l IH]; intros Hnd Hin; [inversion Hin|].
  rewrite fmap_cons in Hnd. apply NoDup_cons in Hnd as [Hn1 Hnd]. simpl in Hn1.
  apply elem_of_cons in Hin as [Heq|Hin].
  - inversion Heq; subst e1 t1. rewrite filter_cons_True by done.
    by rewrite filter_fst_none.
  - assert (e1 <> e).
    { intros ->. apply Hn1. apply list_elem_of_fmap. by exists (e, t). }
    rewrite filter_cons_False by (simpl; congruence). by apply IH.
Qed.

Lemma follows_refl e w : follows e [] w w.
Proof. split; [done|]. left. split; [|done]. simpl. apply not_elem_of_nil. Qed.

Lemma follows_trans e l1 l2 w w1 w2 :
  follows e l1 w w1 -> follows e l2 w1 w2 -> follows e (l1 ++ l2) w w2.
Proof.
  intros [Ht1 H1] [Ht2 H2]. split; [congruence|].
  destruct H1 as [[Hn1 Hi1]|(Hl1 & Hu1 & Hf1)], H2 as [[Hn2 Hi2]|(Hl2 & Hu2 & Hf2)].
  - left. split; [rewrite fmap_app, elem_of_app; tauto|tauto].
  - right. split; [tauto|]. split; [done|].
    rewrite filter_app, (filter_fst_none e l1 Hn1), Hf2. simpl. congruence.
  - right. split; [done|]. split; [tauto|].
    rewrite filter_app, (filter_fst_none e l2 Hn2), Hf1. done.
  - done.
Qed.

Lemma ran_follows T T' log w w' e : ran T T' log w w' -> follows e log w w'.
Proof.
  intros (_ & Hnd & _ & Hb & Ho & Ht). split; [apply Ht|].
  destruct (decide (e ∈ log.*1)) as [Hin|Hnin].
  - right. apply list_elem_of_fmap in Hin as ([e1 t1] & -> & Hin). simpl.
    destruct (Hb _ _ Hin) as (_ & Hs & Hl & Hu). split; [done|]. split; [done|].
    rewrite Hs. by apply filter_fst_unique.
  - left. split; [done|]. by apply Ho.
Qed.

Lemma placed_later T j s a : 0 <= j -> placed T j s a -> T < a.
Proof.
  intros Hj [_ Hd]. destruct (Z_lt_ge_dec T a) as [|Hge]; [done|].
  pose proof (lv_mono a T j Hj ltac:(lia)). lia.
Qed.

(** In a wheel at tick [T], whatever is linked is scheduled after [T]. *)
Lemma wheel_inv_later T w e : wheel_inv T w -> link w e <> None -> T < scheduled_at w e.
Proof.
  intros (_ & _ & _ & _ & HG) Hl. destruct (link w e) as [[j s]|] eqn:He; [|done].
  destruct (HG e j s He) as (Hj & _ & [Hp|[? _]]); [|lia].
  apply (placed_later T j s); [lia|done].
Qed.

Lemma wheel_inv_unlinked T w e : wheel_inv T w -> link w e = None -> forall r, e ∉ slot w r.
Proof.
  intros (_ & _ & _ & (Hin & _) & _) Hl r He. apply Hin in He. congruence.
Qed.

Lemma wheel_inv_now T w : wheel_inv T w -> now w 0 = T.
Proof. intros (? & Hclk & _). rewrite (Hclk 0) by lia. apply lv_0. Qed.

Lemma valid_ops_app T a b :
  valid_ops T (a ++ b) = valid_ops T a && valid_ops (clock_after T a) b.
Proof.
  revert T. induction a as [|[e d|d|e] a IH]; intros T; simpl; [done| | |];
    rewrite IH; by rewrite ?andb_assoc.
Qed.

Lemma clock_after_app T a b : clock_after T (a ++ b) = clock_after (clock_after T a) b.
Proof. revert T. induction a as [|[e d|d|e] a IH]; intros T; simpl; auto. Qed.

Lemma touched_ids_app a b : touched_ids (a ++ b) = touched_ids a ++ touched_ids b.
Proof. induction a as [|[e d|d|e] a IH]; simpl; auto; by rewrite IH. Qed.

Lemma touched_ids_length ops : (length (touched_ids ops) <= length ops)%nat.
Proof. induction ops as [|[e d|d|e] a IH]; simpl; lia. Qed.

Lemma run_ops_app fuel m a b w :
  run_ops fuel m (a ++ b) w =
  bind (run_ops fuel m a w)
       (fun p => if fst p then run_ops fuel m b (snd p) else Done (false, snd p)).
Proof.
  revert w. induction a as [|[e d|d|e] a IH]; intros w; simpl.
  - done.
  - destruct (Schedule e d w) as [w1|f]; simpl; [apply IH|done].
  - destruct (Advance fuel d m 0 w) as [[ok w1]|f]; simpl; [|done].
    destruct ok; [apply IH|done].
  - apply IH.
Qed.

Lemma clock_after_le T ops : valid_ops T ops = true -> T <= clock_after T ops.
Proof.
  revert T. induction ops as [|[e d|d|e] a IH]; intros T Hv; simpl in *; [lia| | |].
  - apply andb_true_iff in Hv as [_ Hv]. by apply IH.
  - apply andb_true_iff in Hv as [Hv1 Hv]. apply andb_true_iff in Hv1 as [Hd _].
    apply Z.ltb_lt in Hd. specialize (IH _ Hv). lia.
  - by apply IH.
Qed.

Section Ops.
Variables (U : list EventId) (fuel : nat) (m : Z).
Hypothesis Hfuel : (length U < fuel)%nat.
Hypothesis Hm : Z.of_nat (length U) < m < 2 ^ 64.

(** Any valid sequence of calls runs to the end and keeps the wheel's
    invariant. *)
Lemma run_ops_spec :
  forall ops T w,
    wheel_inv T w -> valid_ops T ops = true -> bounded U w ->
    (forall e, e ∈ touched_ids ops -> e ∈ U) ->
    exists w' log,
      run_ops fuel m ops w = Done (true, w') /\
      wheel_inv (clock_after T ops) w' /\ bounded U w' /\
      executed w' = executed w ++ log /\
      forall e, e ∉ touched_ids ops -> follows e log w w'.
Proof.
  induction ops as [|[e d|d|e] ops IH]; intros T w Hinv Hv HU Hids; simpl in *.
  - exists w, []. split; [done|]. split; [done|]. split; [done|].
    split; [by rewrite app_nil_r|]. intros e _. apply follows_refl.
  - apply andb_true_iff in Hv as [Hv1 Hv]. apply andb_true_iff in Hv1 as [Hd Hov].
    apply Z.ltb_lt in Hd, Hov.
    destruct (Schedule_inv T e d w Hinv Hd Hov) as (w1 & HS & Hinv1 & Hl1 & Hs1 & Hlo1 & Hx1).
    rewrite HS. simpl bind.
    destruct (IH T w1 Hinv1 Hv) as (w' & log & HR & Hinv' & HU' & Hx' & Hfol).
    { intros e0 He0. destruct (decide (e0 = e)) as [->|Hne].
      - apply Hids. left.
      - apply HU. destruct (Hlo1 e0 Hne) as [<- _]. done. }
    { intros e0 He0. apply Hids. by right. }
    exists w', log. split; [done|]. split; [done|]. split; [done|].
    split; [by rewrite Hx', Hx1|].
    intros e0 He0. rewrite not_elem_of_cons in He0. destruct He0 as [Hne He0].
    destruct (Hfol e0 He0) as [Ht Hk]. destruct (Hlo1 e0 Hne) as [Hla Hta].
    split; [congruence|]. by rewrite Hla, Hta in Hk.
  - apply andb_true_iff in Hv as [Hv1 Hv]. apply andb_true_iff in Hv1 as [Hd Hov].
    apply Z.ltb_lt in Hd, Hov.
    destruct (Advance_spec U fuel m Hfuel Hm T d w Hinv ltac:(lia) Hov HU)
      as (w1 & l1 & HA & Hinv1 & Hr1).
    rewrite HA. simpl bind. cbn [fst snd].
    destruct (IH (T + d) w1 Hinv1 Hv) as (w' & log & HR & Hinv' & HU' & Hx' & Hfol).
    { by apply (ran_bounded T (T + d) l1 U w). }
    { done. }
    exists w', (l1 ++ log). split; [done|]. split; [done|]. split; [done|].
    split.
    { destruct Hr1 as (Hx1 & _). rewrite Hx', Hx1. by rewrite app_assoc. }
    intros e0 He0. apply (follows_trans e0 l1 log w w1 w'); [|by apply Hfol].
    by apply (ran_follows T (T + d)).
  - destruct (Cancel_inv T e w Hinv) as (Hinv1 & Hl1 & Hlo1 & Ht1 & Hx1).
    destruct (IH T (Cancel e w) Hinv1 Hv) as (w' & log & HR & Hinv' & HU' & Hx' & Hfol).
    { intros e0 He0. destruct (decide (e0 = e)) as [->|Hne]; [done|].
      apply HU. by rewrite <- Hlo1. }
    { intros e0 He0. apply Hids. by right. }
    exists w', log. split; [done|]. split; [done|]. split; [done|].
    split; [by rewrite Hx', Hx1|].
    intros e0 He0. rewrite not_elem_of_cons in He0. destruct He0 as [Hne He0].
    destruct (Hfol e0 He0) as [Ht Hk]. rewrite (Hlo1 e0 Hne), (Ht1 e0) in Hk.
    split; [by rewrite Ht, (Ht1 e0)|done].
Qed.

End Ops.

Lemma StronglySorted_lookup_lt (l : list (EventId * Tick)) i j x y :
  StronglySorted by_tick l -> l !! i = Some x -> l !! j = Some y ->
  x.2 < y.2 -> (i < j)%nat.
Proof.
  intros Hs Hi Hj Hlt. destruct (Nat.lt_ge_cases i j) as [|Hge]; [done|exfalso].
  destruct (Nat.eq_dec i j) as [->|Hne]; [rewrite Hi in Hj; inversion Hj; subst; lia|].
  assert (Hji : (j < i)%nat) by lia. clear Hge Hne.
  revert i j Hi Hj Hji. induction Hs as [|a l Hs IH Hall]; intros i j Hi Hj Hji; [done|].
  destruct j as [|j]; destruct i as [|i]; try lia; simpl in *.
  - inversion Hj; subst y. rewrite Forall_forall in Hall.
    assert (by_tick a x) by (apply Hall, list_elem_of_lookup; eauto).
    unfold by_tick, Tick in *. lia.
  - apply (IH i j); [done|done|lia].
Qed.

Lemma schedule_all_spec :
  forall evs T w,
    wheel_inv T w -> NoDup evs.*1 ->
    Forall (fun ed => 0 < ed.2 /\ T + ed.2 < 2 ^ 64) evs ->
    exists w',
      schedule_all evs w = Done w' /\ wheel_inv T w' /\ executed w' = executed w /\
      (forall e D, (e, D) ∈ evs -> link w' e <> None /\ scheduled_at w' e = T + D) /\
      (forall e, e ∉ evs.*1 ->
         link w' e = link w e /\ scheduled_at w' e = scheduled_at w e).
Proof.
  induction evs as [|[e D] evs IH]; intros T w Hinv Hnd Hall; simpl.
  - exists w. split; [done|]. split; [done|]. split; [done|].
    split; [intros e D H; inversion H|done].
  - rewrite fmap_cons in Hnd. apply NoDup_cons in Hnd as [Hne Hnd]. simpl in Hne.
    apply Forall_cons in Hall as [[Hd Hov] Hall]. simpl in Hd, Hov.
    destruct (Schedule_inv T e D w Hinv Hd Hov) as (w1 & HS & Hinv1 & Hl1 & Hs1 & Hlo1 & Hx1).
    rewrite HS. simpl bind.
    destruct (IH T w1 Hinv1 Hnd Hall) as (w' & HA & Hinv' & Hx' & Hevs & Hoth).
    exists w'. split; [done|]. split; [done|]. split; [congruence|]. split.
    + intros e0 D0 Hin. apply elem_of_cons in Hin as [Heq|Hin]; [|by apply Hevs].
      inversion Heq; subst e0 D0. destruct (Hoth e Hne) as [-> ->]. done.
    + intros e0 Hn. rewrite not_elem_of_cons in Hn. destruct Hn as [Hn0 Hn].
      simpl in Hn0. destruct (Hoth e0 Hn) as [-> ->]. by apply Hlo1.
Qed.

Lemma size_max_bound (n : nat) : Z.of_nat n < size_max -> Z.of_nat n < size_max < 2 ^ 64.
Proof. unfold size_max. lia. Qed.

(** C1 (timer ordering).  Events scheduled on a wheel at tick [t0] with
    positive deltas, then one [Advance] with the default [max_execute]
    that takes the clock to [t0 + delta], at or past every deadline: every
    event is executed, once, at the tick [t0 + D] it was scheduled for, and
    the executions come in non-decreasing order of that tick, so that
    whatever is scheduled for an earlier tick runs before anything
    scheduled for a later one. *)
Theorem timer_ordering (t0 : Z) (evs : list (EventId * Tick)) (delta : Z) (fuel : nat) :
  0 <= t0 -> 0 < delta -> t0 + delta < 2 ^ 64 ->
  NoDup evs.*1 ->
  Forall (fun ed => 0 < ed.2 <= delta) evs ->
  (length evs < fuel)%nat -> Z.of_nat (length evs) < size_max ->
  exists w1 w2,
    schedule_all evs (World_new t0) = Done w1 /\
    Advance fuel delta size_max 0 w1 = Done (true, w2) /\
    now w2 0 = t0 + delta /\
    (executed w2).*1 ≡ₚ evs.*1 /\
    (forall e t, (e, t) ∈ executed w2 -> exists D, (e, D) ∈ evs /\ t = t0 + D) /\
    StronglySorted by_tick (executed w2) /\
    (forall i j x y,
       executed w2 !! i = Some x -> executed w2 !! j = Some y ->
       x.2 < y.2 -> (i < j)%nat).
Proof.
  intros Ht0 Hd Hov Hnd Hall Hfuel Hsz.
  pose proof (wheel_inv_new t0 ltac:(lia)) as Hinv0.
  destruct (schedule_all_spec evs t0 (World_new t0) Hinv0 Hnd) as (w1 & HS & Hinv1 & Hx1 & Hevs & Hoth).
  { eapply Forall_impl; [exact Hall|]. intros [e D] H. simpl in *. lia. }
  assert (HU : bounded evs.*1 w1).
  { intros e He. destruct (decide (e ∈ evs.*1)) as [|Hn]; [done|].
    destruct (Hoth e Hn) as [Hl _]. rewrite Hl in He. done. }
  destruct (Advance_spec evs.*1 fuel size_max) with (T := t0) (delta := delta) (w := w1)
    as (w2 & log & HA & Hinv2 & Hr); try done; try lia.
  { by rewrite length_fmap. }
  { rewrite length_fmap. by apply size_max_bound. }
  exists w1, w2. split; [done|]. split; [done|].
  split; [by apply wheel_inv_now|].
  destruct Hr as (Hx2 & Hnd2 & Hsort & Hb & Ho & Ht).
  assert (Hlog : executed w2 = log) by (rewrite Hx2, Hx1; done).
  rewrite Hlog.
  assert (Hin_evs : forall e, e ∈ evs.*1 -> exists D, (e, D) ∈ evs).
  { intros e He. apply list_elem_of_fmap in He as ([e1 D] & -> & He). by exists D. }
  split.
  { apply NoDup_Permutation; [done|done|]. intros e. split.
    - intros He. apply list_elem_of_fmap in He as ([e1 t] & -> & He). simpl.
      destruct (Hb _ _ He) as (_ & _ & Hl & _). by apply HU.
    - intros He. destruct (decide (e ∈ log.*1)) as [|Hn]; [done|exfalso].
      destruct (Hin_evs e He) as (D & HD). destruct (Hevs e D HD) as (Hl & Hat).
      assert (Hl2 : link w2 e <> None) by (rewrite (Ho e Hn); done).
      pose proof (wheel_inv_later _ _ _ Hinv2 Hl2) as Hlater.
      rewrite Ht, Hat in Hlater. rewrite Forall_forall in Hall.
      specialize (Hall _ HD). simpl in Hall. lia. }
  split.
  { intros e t He. destruct (Hb _ _ He) as (_ & Hat & Hl & _).
    destruct (Hin_evs e (HU e Hl)) as (D & HD). exists D. split; [done|].
    destruct (Hevs e D HD) as (_ & Hat'). congruence. }
  split; [done|].
  intros i j x y. by apply StronglySorted_lookup_lt.
Qed.

Lemma timer_ordering_witness :
  exists w1 w2,
    schedule_all [(1%nat, 300); (2%nat, 500); (3%nat, 500)] (World_new 0) = Done w1 /\
    Advance 4 1000 size_max 0 w1 = Done (true, w2) /\
    now w2 0 = 0 + 1000 /\
    (executed w2).*1 ≡ₚ [(1%nat, 300); (2%nat, 500); (3%nat, 500)].*1 /\
    (forall e t, (e, t) ∈ executed w2 ->
       exists D, (e, D) ∈ [(1%nat, 300); (2%nat, 500); (3%nat, 500)] /\ t = 0 + D) /\
    StronglySorted by_tick (executed w2) /\
    (forall i j x y,
       executed w2 !! i = Some x -> executed w2 !! j = Some y ->
       x.2 < y.2 -> (i < j)%nat).
Proof.
  apply (timer_ordering 0 [(1%nat, 300); (2%nat, 500); (3%nat, 500)] 1000 4).
  - lia.
  - lia.
  - lia.
  - compute_done.
  - repeat constructor; simpl; lia.
  - simpl. lia.
  - vm_compute. reflexivity.
Defined.

(** C6, as stated, fails: by [now = 0xFF00] and [delta = 2^64 - 256] the
    level walk of [Schedule] is still at a delta of 256 on the last level
    and steps to level 8, past [now_] and [slots_]. *)
Lemma Schedule_level_walk_overflow :
  0 < 2 ^ 64 - 256 < 2 ^ 64 /\
  level_walk (Z.to_nat kNumLevels) (now_ (wheel (World_new 65280))) 0 (2 ^ 64 - 256)
    = Fault OutOfRange /\
  Schedule 1%nat (2 ^ 64 - 256) (World_new 65280) = Fault OutOfRange /\
  ~ (exists w', Schedule 1%nat (2 ^ 64 - 256) (World_new 65280) = Done w').
Proof.
  split; [lia|]. split; [by vm_compute|]. split; [by vm_compute|].
  intros [w' H]. vm_compute in H. discriminate H.
Qed.

(** C6, amended.  On a wheel reached by valid calls, for a delta [D > 0]
    with [now[0] + D < 2^64]: [Schedule] sets [scheduled_at] to
    [now[0] + D] and links the event into
    [slots[level][(now[level] + D') & 255]] and nowhere else, where
    [(level, D')] is what the level walk returns; [D < 2^8] gives level 0
    and [D >= 2^8] a level from 1 to 7. *)
Theorem Schedule_places (t0 : Z) (ops : list op) (fuel : nat) (w : World)
    (e : EventId) (D : Z) :
  0 <= t0 < 2 ^ 64 -> valid_ops t0 ops = true ->
  (length ops < fuel)%nat -> Z.of_nat (length ops) < size_max ->
  run_ops fuel size_max ops (World_new t0) = Done (true, w) ->
  0 < D -> now w 0 + D < 2 ^ 64 ->
  exists level D' w',
    level_walk (Z.to_nat kNumLevels) (now_ (wheel w)) 0 D = Done (level, D') /\
    Schedule e D w = Done w' /\
    scheduled_at w' e = now w 0 + D /\
    link w' e = Some (level, Z.land (now w level + D') kMask) /\
    e ∈ slot w' (level, Z.land (now w level + D') kMask) /\
    (forall r, e ∈ slot w' r -> r = (level, Z.land (now w level + D') kMask)) /\
    (D < 2 ^ 8 -> level = 0) /\ (2 ^ 8 <= D -> 1 <= level <= 7).
Proof.
  intros Ht0 Hv Hfuel Hsz Hrun HD Hov.
  pose proof (touched_ids_length ops) as Hlen.
  destruct (run_ops_spec (touched_ids ops) fuel size_max ltac:(lia)
              ltac:(unfold size_max in *; lia) ops t0 (World_new t0)
              (wheel_inv_new t0 Ht0) Hv)
    as (w0 & log & HR & Hinv & _); [by intros e0 He0|done|].
  rewrite Hrun in HR. inversion HR; subst w0. clear HR.
  pose proof (wheel_inv_now _ _ Hinv) as Hnow. rewrite Hnow in *.
  destruct Hinv as (HT & Hclk & Hp & Hok & HG).
  destruct (Schedule_spec (clock_after t0 ops) e D w Hclk ltac:(lia) HD Hov Hok)
    as (j & s & w' & HS & Hw & Hs & Hj & Hpl & Hiff & Hl & Hat & _ & _ & _ & _ & Hok').
  exists j, (lv (clock_after t0 ops + D) j - lv (clock_after t0 ops) j), w'.
  rewrite <- Hs. split; [done|]. split; [done|]. split; [done|]. split; [done|].
  split; [by apply Hok'|]. split.
  { intros r Hr. apply Hok' in Hr. congruence. }
  change (2 ^ 8) with 256. split; [intros; apply Hiff; lia|].
  intros Hge. assert (j <> 0) by (intros H0; apply Hiff in H0; lia). lia.
Qed.

Lemma Schedule_places_witness :
  exists level D' w',
    level_walk (Z.to_nat kNumLevels) (now_ (wheel (World_new 250))) 0 300
      = Done (level, D') /\
    Schedule 1%nat 300 (World_new 250) = Done w' /\
    scheduled_at w' 1%nat = now (World_new 250) 0 + 300 /\
    link w' 1%nat = Some (level, Z.land (now (World_new 250) level + D') kMask) /\
    1%nat ∈ slot w' (level, Z.land (now (World_new 250) level + D') kMask) /\
    (forall r, 1%nat ∈ slot w' r ->
       r = (level, Z.land (now (World_new 250) level + D') kMask)) /\
    (300 < 2 ^ 8 -> level = 0) /\ (2 ^ 8 <= 300 -> 1 <= level <= 7).
Proof.
  apply (Schedule_places 250 [] 1 (World_new 250) 1%nat 300).
  - lia.
  - reflexivity.
  - simpl. lia.
  - vm_compute. reflexivity.
  - reflexivity.
  - lia.
  - vm_compute. reflexivity.
Defined.

(** C7 (timer liveness).  An event scheduled, on a wheel reached by valid
    calls, for the tick [ts + D]; the calls that follow do not schedule it
    again and advance (with the default [max_execute]) the clock to
    [ts + D] or beyond.  Then the event is linked nowhere in the wheel, and
    since it was scheduled it has been executed exactly once, at
    [ts + D]. *)
Theorem timer_liveness (t0 : Z) (pre post : list op) (e : EventId) (D : Z) (fuel : nat) :
  0 <= t0 < 2 ^ 64 ->
  valid_ops t0 (pre ++ OpSchedule e D :: post) = true ->
  e ∉ touched_ids post ->
  clock_after t0 pre + D <= clock_after t0 (pre ++ OpSchedule e D :: post) ->
  (length (pre ++ OpSchedule e D :: post) < fuel)%nat ->
  Z.of_nat (length (pre ++ OpSchedule e D :: post)) < size_max ->
  exists w1 w2 log,
    run_ops fuel size_max (pre ++ [OpSchedule e D]) (World_new t0) = Done (true, w1) /\
    link w1 e <> None /\ scheduled_at w1 e = clock_after t0 pre + D /\
    run_ops fuel size_max post w1 = Done (true, w2) /\
    now w2 0 = clock_after t0 (pre ++ OpSchedule e D :: post) /\
    link w2 e = None /\ IsActive w2 e = false /\ (forall r, e ∉ slot w2 r) /\
    executed w2 = executed w1 ++ log /\
    filter (fun x => x.1 = e) log = [(e, clock_after t0 pre + D)].
Proof.
  intros Ht0 Hv Hne Hreach Hfuel Hsz.
  set (ops := pre ++ OpSchedule e D :: post) in *.
  set (U := touched_ids ops).
  pose proof (touched_ids_length ops) as Hlen.
  assert (HfU : (length U < fuel)%nat) by (unfold U; lia).
  assert (HmU : Z.of_nat (length U) < size_max < 2 ^ 64) by (unfold U, size_max in *; lia).
  unfold ops in Hv. rewrite valid_ops_app in Hv. apply andb_true_iff in Hv as [Hv1 Hv2].
  simpl in Hv2. apply andb_true_iff in Hv2 as [Hv2 Hv3]. apply andb_true_iff in Hv2 as [HD Hov].
  apply Z.ltb_lt in HD, Hov.
  set (ts := clock_after t0 pre) in *.
  assert (Hclock : clock_after t0 ops = clock_after ts post).
  { unfold ops. rewrite clock_after_app. done. }
  assert (Hids : touched_ids ops = touched_ids pre ++ e :: touched_ids post).
  { unfold ops. rewrite touched_ids_app. done. }
  (* up to the call that schedules [e] *)
  destruct (run_ops_spec U fuel size_max HfU HmU pre t0 (World_new t0)
              (wheel_inv_new t0 Ht0) Hv1)
    as (w0 & l0 & HR0 & Hinv0 & HU0 & _).
  { by intros e0 He0. }
  { intros e0 He0. unfold U. rewrite Hids. apply elem_of_app. by left. }
  fold ts in Hinv0.
  destruct (Schedule_inv ts e D w0 Hinv0 HD Hov) as (w1 & HS & Hinv1 & Hl1 & Hs1 & Hlo1 & Hx1).
  assert (HU1 : bounded U w1).
  { intros e0 He0. destruct (decide (e0 = e)) as [->|Hn].
    - unfold U. rewrite Hids. apply elem_of_app. right. left.
    - apply HU0. destruct (Hlo1 e0 Hn) as [<- _]. done. }
  (* the calls after it *)
  destruct (run_ops_spec U fuel size_max HfU HmU post ts w1 Hinv1 Hv3 HU1)
    as (w2 & log & HR2 & Hinv2 & _ & Hx2 & Hfol).
  { intros e0 He0. unfold U. rewrite Hids. apply elem_of_app. right. by right. }
  exists w1, w2, log.
  split.
  { rewrite run_ops_app, HR0. simpl. rewrite HS. done. }
  split; [done|]. split; [done|]. split; [done|].
  split; [rewrite Hclock; by apply wheel_inv_now|].
  destruct (Hfol e Hne) as [Hat [[Hnin Hiff]|(_ & Hun & Hfil)]].
  { exfalso. assert (Hl2 : link w2 e <> None) by (rewrite Hiff; done).
    pose proof (wheel_inv_later _ _ _ Hinv2 Hl2) as Hlater.
    rewrite Hat, Hs1 in Hlater. rewrite Hclock in Hreach. lia. }
  split; [done|]. split; [unfold IsActive; by rewrite Hun|].
  split; [by apply (wheel_inv_unlinked _ _ _ Hinv2)|]. split; [done|].
  by rewrite Hfil, Hs1.
Qed.

Lemma timer_liveness_witness :
  exists w1 w2 log,
    run_ops 6 size_max ([OpSchedule 1%nat 40; OpAdvance 250] ++ [OpSchedule 2%nat 300])
      (World_new 0) = Done (true, w1) /\
    link w1 2%nat <> None /\
    scheduled_at w1 2%nat = clock_after 0 [OpSchedule 1%nat 40; OpAdvance 250] + 300 /\
    run_ops 6 size_max [OpAdvance 299; OpAdvance 1] w1 = Done (true, w2) /\
    now w2 0 =
      clock_after 0 ([OpSchedule 1%nat 40; OpAdvance 250] ++
                     OpSchedule 2%nat 300 :: [OpAdvance 299; OpAdvance 1]) /\
    link w2 2%nat = None /\ IsActive w2 2%nat = false /\ (forall r, 2%nat ∉ slot w2 r) /\
    executed w2 = executed w1 ++ log /\
    filter (fun x => x.1 = 2%nat) log =
      [(2%nat, clock_after 0 [OpSchedule 1%nat 40; OpAdvance 250] + 300)].
Proof.
  apply (timer_liveness 0 [OpSchedule 1%nat 40; OpAdvance 250] [OpAdvance 299; OpAdvance 1]
           2%nat 300 6).
  - lia.
  - vm_compute. reflexivity.
  - simpl. apply not_elem_of_nil.
  - simpl. lia.
  - simpl. lia.
  - vm_compute. reflexivity.
Defined.

(** A valid sequence of calls on a new wheel runs to the end, and leaves
    the wheel in the state [wheel_inv] with only events of the calls
    linked. *)
Lemma reached_inv (t0 : Z) (ops : list op) (fuel : nat) :
  0 <= t0 < 2 ^ 64 -> valid_ops t0 ops = true ->
  (length ops < fuel)%nat -> Z.of_nat (length ops) < size_max ->
  exists w,
    run_ops fuel size_max ops (World_new t0) = Done (true, w) /\
    wheel_inv (clock_after t0 ops) w /\ bounded (touched_ids ops) w.
Proof.
  intros Ht0 Hv Hfuel Hsz.
  pose proof (touched_ids_length ops) as Hlen.
  destruct (run_ops_spec (touched_ids ops) fuel size_max ltac:(lia)
              ltac:(unfold size_max in *; lia) ops t0 (World_new t0)
              (wheel_inv_new t0 Ht0) Hv)
    as (w0 & log & HR & Hinv & HU & _); [by intros e0 He0|done|].
  exists w0. split; [done|]. split; done.
Qed.

(** [x & (2^W - 2^m)] clears the [m] low bits of a [W]-bit [x]. *)
Lemma land_high W x m :
  0 <= m <= W -> 0 <= x < 2 ^ W -> Z.land x (2 ^ W - 2 ^ m) = x - x mod 2 ^ m.
Proof.
  intros Hm Hx.
  assert (H1 : 2 ^ W - 2 ^ m = Z.shiftl (Z.ones (W - m)) m).
  { rewrite Z.ones_equiv, Z.shiftl_mul_pow2 by lia.
    replace (Z.pred (2 ^ (W - m)) * 2 ^ m) with (2 ^ (W - m) * 2 ^ m - 2 ^ m) by lia.
    rewrite <- Z.pow_add_r by lia. by replace (W - m + m) with W by lia. }
  assert (H2 : x - x mod 2 ^ m = Z.shiftl (Z.shiftr x m) m).
  { rewrite Z.shiftl_mul_pow2, Z.shiftr_div_pow2 by lia.
    pose proof (Z.div_mod x (2 ^ m) ltac:(lia)). lia. }
  rewrite H1, H2. apply Z.bits_inj'. intros n Hn.
  rewrite Z.land_spec, !Z.shiftl_spec by done.
  destruct (Z_lt_ge_dec n m) as [Hlt|Hge].
  - rewrite !(Z.testbit_neg_r _ (n - m)) by lia. apply andb_false_r.
  - rewrite Z.shiftr_spec by lia. replace (n - m + m) with n by lia.
    rewrite Z.testbit_ones by lia.
    destruct (Z_lt_ge_dec n W) as [HltW|HgeW].
    + replace (0 <=? n - m) with true by (symmetry; apply Z.leb_le; lia).
      replace (n - m <? W - m) with true by (symmetry; apply Z.ltb_lt; lia).
      apply andb_true_r.
    + replace (Z.testbit x n) with false; [done|].
      symmetry. rewrite <- (Z.mod_small x (2 ^ W)) by lia.
      apply Z.mod_pow2_bits_high. lia.
Qed.

(** The masks of the loop of [ScheduleInRange]. *)
Lemma land_mask_at x k :
  0 <= k <= 8 -> 0 <= x < 2 ^ 64 ->
  Z.land x (2 ^ 64 - 2 ^ (8 * k)) = 2 ^ (8 * k) * lv x k.
Proof.
  intros Hk Hx. rewrite (land_high 64) by lia. rewrite lv_div by lia.
  pose proof (Z.div_mod x (2 ^ (8 * k)) ltac:(lia)). lia.
Qed.

Lemma mask_at_shift k :
  0 <= k <= 7 ->
  wrap (Z.shiftl (2 ^ 64 - 2 ^ (8 * k)) kWidthBits) = 2 ^ 64 - 2 ^ (8 * (k + 1)).
Proof.
  intros Hk.
  assert (Hc : k = 0 \/ k = 1 \/ k = 2 \/ k = 3 \/ k = 4 \/ k = 5 \/ k = 6 \/ k = 7) by lia.
  destruct Hc as [->|[->|[->|[->|[->|[->|[->| ->]]]]]]]; reflexivity.
Qed.

Lemma mask_at_shiftr k :
  1 <= k <= 8 ->
  Z.shiftr (2 ^ 64 - 2 ^ (8 * k)) kWidthBits = 2 ^ 56 - 2 ^ (8 * (k - 1)).
Proof.
  intros Hk.
  assert (Hc : k = 1 \/ k = 2 \/ k = 3 \/ k = 4 \/ k = 5 \/ k = 6 \/ k = 7 \/ k = 8) by lia.
  destruct Hc as [->|[->|[->|[->|[->|[->|[->| ->]]]]]]]; reflexivity.
Qed.

Lemma lv_8 x : 0 <= x < 2 ^ 64 -> lv x 8 = 0.
Proof. intros Hx. rewrite lv_div by lia. apply Z.div_small. simpl. lia. Qed.

(** The loop stops at the first level [k] at which [start] and [end_]
    agree from that level up. *)
Lemma range_mask_spec (start end_ : Z) :
  0 <= start < 2 ^ 64 -> 0 <= end_ < 2 ^ 64 ->
  forall n k,
    0 <= k -> k + Z.of_nat n = 8 ->
    (forall j, 0 <= j < k -> lv start j <> lv end_ j) ->
    exists k', k <= k' <= 8 /\
      range_mask n start end_ (2 ^ 64 - 2 ^ (8 * k)) = 2 ^ 64 - 2 ^ (8 * k') /\
      lv start k' = lv end_ k' /\
      (forall j, 0 <= j < k' -> lv start j <> lv end_ j).
Proof.
  intros Hs He. induction n as [|n IH]; intros k Hk Hkn Hne.
  - assert (k = 8) by lia. subst k. exists 8. split; [lia|]. split.
    + simpl. by destruct (_ =? _).
    + split; [by rewrite !lv_8|done].
  - cbn [range_mask]. rewrite !land_mask_at by lia.
    destruct (Z.eqb_spec (2 ^ (8 * k) * lv start k) (2 ^ (8 * k) * lv end_ k)) as [Heq|Hneq].
    + exists k. split; [lia|]. split; [done|]. split; [|done].
      pose proof (pow8_pos k Hk). nia.
    + rewrite mask_at_shift by lia.
      destruct (IH (k + 1) ltac:(lia) ltac:(lia)) as (k' & Hk' & HR & Hlv & Hmin).
      { intros j Hj. destruct (decide (j = k)) as [->|]; [congruence|apply Hne; lia]. }
      exists k'. split; [lia|]. split; done.
Qed.

(** The delta that [ScheduleInRange] computes, for [start < end_ < 2^56],
    lies after [start] and not after [end_]. *)
Lemma range_delta (start end_ : Z) :
  0 <= start -> start < end_ -> end_ < 2 ^ 56 ->
  let mask := range_mask (Z.to_nat kNumLevels) start end_ (wrap (Z.lnot 0)) in
  start < Z.land end_ (Z.shiftr mask kWidthBits) <= end_.
Proof.
  intros Hs Hlt He mask.
  destruct (range_mask_spec start end_ ltac:(lia) ltac:(lia) 8%nat 0 ltac:(lia) ltac:(lia))
    as (k & Hk & HR & Hlv & Hmin); [intros; lia|].
  change (range_mask 8 start end_ (2 ^ 64 - 2 ^ (8 * 0))) with mask in HR.
  rewrite HR.
  assert (Hk0 : k <> 0).
  { intros ->. rewrite !lv_0 in Hlv. lia. }
  assert (Hk7 : k <= 7).
  { destruct (decide (k = 8)) as [->|]; [|lia]. exfalso. apply (Hmin 7); [lia|].
    rewrite !lv_div by lia. rewrite !Z.div_small; [done| |]; simpl; lia. }
  rewrite mask_at_shiftr by lia. rewrite (land_high 56) by lia.
  specialize (Hmin (k - 1) ltac:(lia)).
  rewrite !lv_div in Hmin by lia.
  pose proof (pow8_pos (k - 1) ltac:(lia)) as Hp.
  pose proof (Z.div_mod start (2 ^ (8 * (k - 1))) ltac:(lia)) as Hds.
  pose proof (Z.div_mod end_ (2 ^ (8 * (k - 1))) ltac:(lia)) as Hde.
  pose proof (Z.mod_pos_bound start (2 ^ (8 * (k - 1))) Hp).
  pose proof (Z.mod_pos_bound end_ (2 ^ (8 * (k - 1))) Hp).
  pose proof (Z.div_le_mono start end_ (2 ^ (8 * (k - 1))) Hp ltac:(lia)).
  split; [|lia]. nia.
Qed.

Lemma Slot_call_off_spec (err : option Err.Error) (r : SlotRef) :
  forall l fuel w,
    slot w r = l -> (length l <= fuel)%nat -> linked_ok w ->
    exists w',
      Slot_call_off fuel err r w = Done w' /\
      slot w' r = [] /\
      (forall r', r' <> r -> slot w' r' = slot w r') /\
      (forall e, e ∈ l -> link w' e = None) /\
      (forall e, e ∉ l -> link w' e = link w e) /\
      same_ticks w w' /\ same_clock w w' /\ executed w' = executed w /\
      linked_ok w' /\
      called_off w' = called_off w ++ map (fun e => (e, err)) l.
Proof.
  induction l as [|e rest IH]; intros fuel w Hs Hlen Hok.
  - exists w. split; [destruct fuel; simpl; by rewrite Hs|].
    split; [done|]. split; [done|]. split; [intros e He; inversion He|].
    split; [done|]. split; [done|]. split; [done|]. split; [done|].
    split; [done|]. simpl. by rewrite app_nil_r.
  - destruct fuel as [|fuel]; [simpl in Hlen; lia|]. simpl in Hlen.
    destruct (PopEvent_spec w r e rest Hs Hok) as (Hs1 & Hso1 & Hl1 & Hlo1 & Ht1 & Hc1 & Hx1 & Hok1).
    assert (Hnd := proj2 (proj2 Hok) r). rewrite Hs in Hnd.
    apply NoDup_cons in Hnd as [Hne Hnd].
    destruct (IH fuel (call_off e err (PopEvent r w)) Hs1 ltac:(lia) Hok1)
      as (w' & HR & Hs' & Hso' & Hl' & Hlo' & Ht' & Hc' & Hx' & Hok' & Hco').
    exists w'. split; [simpl; by rewrite Hs|].
    split; [done|].
    split; [intros r' Hr'; rewrite Hso' by done; by apply Hso1|].
    split.
    { intros e0 He0. apply elem_of_cons in He0 as [->|He0]; [|by apply Hl'].
      rewrite Hlo' by done. apply Hl1. }
    split.
    { intros e0 He0. rewrite not_elem_of_cons in He0. destruct He0 as [Hne0 He0].
      rewrite Hlo' by done. by apply Hlo1. }
    split; [intros e0; rewrite (Ht' e0); apply Ht1|].
    split.
    { destruct Hc' as [Hc'1 Hc'2], Hc1 as [Hc11 Hc12]. split.
      - intros l0. rewrite Hc'1. apply Hc11.
      - rewrite Hc'2. apply Hc12. }
    split; [rewrite Hx'; apply Hx1|]. split; [done|].
    rewrite Hco'. unfold call_off at 1. cbn [called_off map].
    replace (called_off (PopEvent r w)) with (called_off w).
    + by rewrite <- app_assoc.
    + unfold PopEvent. rewrite Hs. reflexivity.
Qed.

(** Calling off the slots [rs]: every event linked to one of them is called
    back once with [err], unlinked, and nothing else changes. *)
Lemma call_off_slots_spec (err : option Err.Error) (fuel : nat) :
  forall rs w,
    linked_ok w -> (forall r, (length (slot w r) <= fuel)%nat) ->
    exists w' log,
      call_off_slots fuel err rs w = Done w' /\
      linked_ok w' /\
      called_off w' = called_off w ++ map (fun e => (e, err)) log /\
      NoDup log /\
      (forall e, e ∈ log <-> exists r, r ∈ rs /\ link w e = Some r) /\
      (forall e, e ∈ log -> link w' e = None) /\
      (forall e, e ∉ log -> link w' e = link w e) /\
      same_ticks w w' /\ same_clock w w' /\ executed w' = executed w.
Proof.
  induction rs as [|r rs IH]; intros w Hok Hlen.
  - exists w, []. split; [done|]. split; [done|]. split; [simpl; by rewrite app_nil_r|].
    split; [constructor|]. split.
    { intros e. split; [intros He; inversion He|intros (r & Hr & _); inversion Hr]. }
    split; [intros e He; inversion He|]. split; [done|]. split; [done|]. split; done.
  - destruct (Slot_call_off_spec err r (slot w r) fuel w eq_refl (Hlen r) Hok)
      as (w1 & HR1 & Hs1 & Hso1 & Hl1 & Hlo1 & Ht1 & Hc1 & Hx1 & Hok1 & Hco1).
    destruct (IH w1 Hok1) as (w' & log & HR & Hok' & Hco' & Hnd' & Hlog & Hl' & Hlo' & Ht' & Hc' & Hx').
    { intros r'. destruct (decide (r' = r)) as [->|Hne].
      - rewrite Hs1. simpl. lia.
      - rewrite Hso1 by done. apply Hlen. }
    destruct Hok as (Hin & Hlk & Hnd).
    assert (Hdisj : forall e, e ∈ slot w r -> e ∉ log).
    { intros e He Hel. apply Hlog in Hel as (r' & _ & Hr'). rewrite Hl1 in Hr'; done. }
    exists w', (slot w r ++ log).
    split; [simpl; rewrite HR1; simpl; done|]. split; [done|].
    split; [rewrite Hco', Hco1, map_app; by rewrite app_assoc|].
    split.
    { apply NoDup_app. split; [apply Hnd|]. split; [apply Hdisj|done]. }
    split.
    { intros e. rewrite elem_of_app. split.
      - intros [He|He].
        + exists r. split; [left|by apply Hin].
        + apply Hlog in He as (r' & Hr' & He).
          destruct (decide (e ∈ slot w r)) as [Hes|Hes]; [rewrite Hl1 in He; done|].
          rewrite Hlo1 in He by done. exists r'. split; [by right|done].
      - intros (r' & Hr' & He).
        destruct (decide (e ∈ slot w r)) as [Hes|Hes]; [by left|right].
        apply Hlog. exists r'. rewrite Hlo1 by done. split; [|done].
        apply elem_of_cons in Hr' as [->|Hr']; [|done].
        exfalso. apply Hes. by apply Hlk. }
    split.
    { intros e He. apply elem_of_app in He as [He|He]; [|by apply Hl'].
      rewrite Hlo' by (by apply Hdisj). by apply Hl1. }
    split.
    { intros e He. rewrite elem_of_app in He.
      rewrite Hlo' by tauto. apply Hlo1. tauto. }
    split; [intros e; rewrite (Ht' e); apply Ht1|].
    split.
    { destruct Hc' as [Hc'1 Hc'2], Hc1 as [Hc11 Hc12]. split.
      - intros l0. rewrite Hc'1. apply Hc11.
      - rewrite Hc'2. apply Hc12. }
    by rewrite Hx'.
Qed.

Lemma all_slots_elem j s : 0 <= j <= 7 -> 0 <= s <= 255 -> (j, s) ∈ all_slots.
Proof.
  intros Hj Hs. unfold all_slots. apply list_elem_of_In, in_flat_map.
  exists j. split.
  - apply list_elem_of_In, elem_of_seqZ. change kNumLevels with 8. lia.
  - apply in_map. apply list_elem_of_In, elem_of_seqZ. change kNumSlots with 256. lia.
Qed.

Lemma wheel_inv_slot T w e r : wheel_inv T w -> link w e = Some r -> r ∈ all_slots.
Proof.
  intros (_ & _ & _ & _ & HG) Hl. destruct r as [j s].
  destruct (HG e j s Hl) as (Hj & _ & Hpd).
  assert (Hs : s = Z.land (lv T j) kMask \/ s = Z.land (lv (scheduled_at w e) j) kMask).
  { destruct Hpd as [[-> _]|[_ [-> _]]]; auto. }
  apply all_slots_elem; [done|].
  destruct Hs as [-> | ->]; rewrite land_mask;
    match goal with |- context [?a mod 256] => pose proof (Z.mod_pos_bound a 256 ltac:(lia)) end; lia.
Qed.

Lemma IsEmpty_true w :
  linked_ok w -> (forall e, link w e = None) -> IsEmpty w = true.
Proof.
  intros (Hin & _) Hl. unfold IsEmpty. apply forallb_forall. intros r _.
  apply bool_decide_eq_true. destruct (slot w r) as [|e l] eqn:Hs; [done|].
  assert (He : e ∈ slot w r) by (rewrite Hs; left).
  apply Hin in He. rewrite Hl in He. done.
Qed.

(** What [TimerWheel::Cancel] and [TimerWheel::Abort] do to a wheel between
    two calls. *)
Lemma call_off_all_spec (err : option Err.Error) (fuel : nat) T U w :
  wheel_inv T w -> bounded U w -> (length U <= fuel)%nat ->
  exists w' log,
    call_off_slots fuel err all_slots w = Done w' /\
    IsEmpty w' = true /\
    (forall e, link w' e = None) /\
    called_off w' = called_off w ++ map (fun e => (e, err)) log /\
    NoDup log /\
    (forall e, e ∈ log <-> link w e <> None) /\
    executed w' = executed w /\
    wheel_inv T w'.
Proof.
  intros Hinv HU Hfuel. pose proof Hinv as (HT & Hclk & Hp & Hok & HG).
  destruct (call_off_slots_spec err fuel all_slots w Hok)
    as (w' & log & HR & Hok' & Hco & Hnd & Hlog & Hl' & Hlo' & Ht' & Hc' & Hx').
  { intros r. pose proof (bounded_length U w r HU Hok). lia. }
  assert (Hlog' : forall e, e ∈ log <-> link w e <> None).
  { intros e. rewrite Hlog. split.
    - intros (r & _ & ->). done.
    - intros He. destruct (link w e) as [r|] eqn:Hr; [|done].
      exists r. split; [|done]. by apply (wheel_inv_slot T w e). }
  assert (Hnone : forall e, link w' e = None).
  { intros e. destruct (decide (e ∈ log)) as [He|He]; [by apply Hl'|].
    rewrite Hlo' by done. destruct (link w e) eqn:Hle; [|done].
    exfalso. apply He, Hlog'. by rewrite Hle. }
  exists w', log. split; [done|]. split; [by apply IsEmpty_true|].
  split; [done|]. split; [done|]. split; [done|]. split; [done|]. split; [done|].
  split; [done|]. split; [by apply (clock_at_same T w)|].
  split; [destruct Hc'; congruence|]. split; [done|].
  intros e j s He. rewrite Hnone in He. done.
Qed.

(** X1.  An event cancelled with [TimerEventBase::Cancel] and not scheduled
    again is not executed by any of the calls that follow, however far they
    advance the clock, and stays unlinked. *)
Theorem cancelled_event_not_executed (t0 : Z) (pre post : list op) (e : EventId)
    (fuel : nat) :
  0 <= t0 < 2 ^ 64 ->
  valid_ops t0 (pre ++ OpCancel e :: post) = true ->
  e ∉ touched_ids post ->
  (length (pre ++ OpCancel e :: post) < fuel)%nat ->
  Z.of_nat (length (pre ++ OpCancel e :: post)) < size_max ->
  exists w1 w2 log,
    run_ops fuel size_max (pre ++ [OpCancel e]) (World_new t0) = Done (true, w1) /\
    IsActive w1 e = false /\
    run_ops fuel size_max post w1 = Done (true, w2) /\
    executed w2 = executed w1 ++ log /\
    (e ∉ log.*1) /\ IsActive w2 e = false /\ (forall r, e ∉ slot w2 r).
Proof.
  intros Ht0 Hv Hne Hfuel Hsz.
  set (ops := pre ++ OpCancel e :: post) in *.
  set (U := touched_ids ops).
  pose proof (touched_ids_length ops) as Hlen.
  assert (HfU : (length U < fuel)%nat) by (unfold U; lia).
  assert (HmU : Z.of_nat (length U) < size_max < 2 ^ 64) by (unfold U, size_max in *; lia).
  unfold ops in Hv. rewrite valid_ops_app in Hv. apply andb_true_iff in Hv as [Hv1 Hv2].
  simpl in Hv2.
  set (ts := clock_after t0 pre) in *.
  assert (Hids : touched_ids ops = touched_ids pre ++ e :: touched_ids post).
  { unfold ops. rewrite touched_ids_app. done. }
  destruct (run_ops_spec U fuel size_max HfU HmU pre t0 (World_new t0)
              (wheel_inv_new t0 Ht0) Hv1)
    as (w0 & l0 & HR0 & Hinv0 & HU0 & _).
  { by intros e0 He0. }
  { intros e0 He0. unfold U. rewrite Hids. apply elem_of_app. by left. }
  fold ts in Hinv0.
  destruct (Cancel_inv ts e w0 Hinv0) as (Hinv1 & Hl1 & Hlo1 & Ht1 & Hx1).
  assert (HU1 : bounded U (Cancel e w0)).
  { intros e0 He0. destruct (decide (e0 = e)) as [->|Hn]; [done|].
    apply HU0. by rewrite <- Hlo1. }
  destruct (run_ops_spec U fuel size_max HfU HmU post ts (Cancel e w0) Hinv1 Hv2 HU1)
    as (w2 & log & HR2 & Hinv2 & _ & Hx2 & Hfol).
  { intros e0 He0. unfold U. rewrite Hids. apply elem_of_app. right. by right. }
  exists (Cancel e w0), w2, log.
  split; [rewrite run_ops_app, HR0; done|].
  split; [unfold IsActive; by rewrite Hl1|]. split; [done|]. split; [done|].
  destruct (Hfol e Hne) as [_ [[Hnin Hiff]|(Hl & _)]]; [|done].
  assert (Hl2 : link w2 e = None) by (by apply Hiff).
  split; [done|]. split; [unfold IsActive; by rewrite Hl2|].
  by apply (wheel_inv_unlinked _ _ _ Hinv2).
Qed.

Lemma cancelled_event_not_executed_witness :
  exists w1 w2 log,
    run_ops 6 size_max ([OpSchedule 1%nat 40; OpSchedule 2%nat 300] ++ [OpCancel 2%nat])
      (World_new 0) = Done (true, w1) /\
    IsActive w1 2%nat = false /\
    run_ops 6 size_max [OpAdvance 299; OpAdvance 1] w1 = Done (true, w2) /\
    executed w2 = executed w1 ++ log /\
    (2%nat ∉ log.*1) /\ IsActive w2 2%nat = false /\ (forall r, 2%nat ∉ slot w2 r).
Proof.
  apply (cancelled_event_not_executed 0 [OpSchedule 1%nat 40; OpSchedule 2%nat 300]
           [OpAdvance 299; OpAdvance 1] 2%nat 6).
  - lia.
  - vm_compute. reflexivity.
  - simpl. apply not_elem_of_nil.
  - simpl. lia.
  - vm_compute. reflexivity.
Defined.

(** X2.  The wheel after any valid sequence of calls: no tick is pending,
    every event is in the list of the slot its [slot_] names and in no
    other, at most once, that slot is one of the [kNumLevels * kNumSlots]
    slots of the wheel, and every linked event is scheduled for a tick
    after [now()]: nothing overdue is left behind. *)
Theorem reached_wheel_well_formed (t0 : Z) (ops : list op) (fuel : nat) :
  0 <= t0 < 2 ^ 64 -> valid_ops t0 ops = true ->
  (length ops < fuel)%nat -> Z.of_nat (length ops) < size_max ->
  exists w,
    run_ops fuel size_max ops (World_new t0) = Done (true, w) /\
    now w 0 = clock_after t0 ops /\ pending w = 0 /\
    (forall e r, e ∈ slot w r <-> link w e = Some r) /\
    (forall r, NoDup (slot w r)) /\
    (forall e r, link w e = Some r -> r ∈ all_slots) /\
    (forall e, IsActive w e = true -> now w 0 < scheduled_at w e < 2 ^ 64).
Proof.
  intros Ht0 Hv Hfuel Hsz.
  destruct (reached_inv t0 ops fuel Ht0 Hv Hfuel Hsz) as (w & HR & Hinv & HU).
  exists w. split; [done|]. split; [by apply wheel_inv_now|].
  pose proof Hinv as (HT & Hclk & Hp & (Hin & Hlk & Hnd) & HG).
  split; [done|]. split; [intros e r; split; [apply Hin|apply Hlk]|].
  split; [done|]. split; [intros e r; apply (wheel_inv_slot _ _ _ _ Hinv)|].
  intros e He. unfold IsActive in He. apply bool_decide_eq_true in He.
  rewrite (wheel_inv_now _ _ Hinv). split; [by apply wheel_inv_later|].
  destruct (link w e) as [[j s]|] eqn:Hl; [|done].
  destruct (HG e j s Hl) as (_ & ? & _). lia.
Qed.

Lemma reached_wheel_well_formed_witness :
  exists w,
    run_ops 4 size_max [OpSchedule 1%nat 40; OpAdvance 250; OpSchedule 2%nat 300]
      (World_new 7) = Done (true, w) /\
    now w 0 = clock_after 7 [OpSchedule 1%nat 40; OpAdvance 250; OpSchedule 2%nat 300] /\
    pending w = 0 /\
    (forall e r, e ∈ slot w r <-> link w e = Some r) /\
    (forall r, NoDup (slot w r)) /\
    (forall e r, link w e = Some r -> r ∈ all_slots) /\
    (forall e, IsActive w e = true -> now w 0 < scheduled_at w e < 2 ^ 64).
Proof.
  apply (reached_wheel_well_formed 7
           [OpSchedule 1%nat 40; OpAdvance 250; OpSchedule 2%nat 300] 4).
  - lia.
  - vm_compute. reflexivity.
  - simpl. lia.
  - vm_compute. reflexivity.
Defined.

(** X3.  [TimerWheel::IsEmpty] on a wheel reached by valid calls: it
    answers true exactly when no event is active. *)
Theorem IsEmpty_iff_no_active_event (t0 : Z) (ops : list op) (fuel : nat) :
  0 <= t0 < 2 ^ 64 -> valid_ops t0 ops = true ->
  (length ops < fuel)%nat -> Z.of_nat (length ops) < size_max ->
  exists w,
    run_ops fuel size_max ops (World_new t0) = Done (true, w) /\
    (IsEmpty w = true <-> forall e, IsActive w e = false).
Proof.
  intros Ht0 Hv Hfuel Hsz.
  destruct (reached_inv t0 ops fuel Ht0 Hv Hfuel Hsz) as (w & HR & Hinv & HU).
  exists w. split; [done|].
  pose proof Hinv as (HT & Hclk & Hp & (Hin & Hlk & Hnd) & HG).
  split.
  - intros He e. unfold IsActive. apply bool_decide_eq_false. intros Hl. apply Hl.
    destruct (link w e) as [r|] eqn:Hr; [exfalso|done].
    unfold IsEmpty in He. rewrite forallb_forall in He.
    specialize (He r). rewrite bool_decide_eq_true in He.
    pose proof (Hlk e r Hr) as Hes. rewrite He in Hes; [inversion Hes|].
    apply list_elem_of_In. by apply (wheel_inv_slot _ _ _ _ Hinv Hr).
  - intros Hno. apply IsEmpty_true; [done|]. intros e. specialize (Hno e).
    unfold IsActive in Hno. apply bool_decide_eq_false in Hno.
    destruct (link w e); [exfalso; by apply Hno|done].
Qed.

Lemma IsEmpty_iff_no_active_event_witness :
  exists w,
    run_ops 4 size_max [OpSchedule 1%nat 40; OpAdvance 250; OpSchedule 2%nat 300]
      (World_new 7) = Done (true, w) /\
    (IsEmpty w = true <-> forall e, IsActive w e = false).
Proof.
  apply (IsEmpty_iff_no_active_event 7
           [OpSchedule 1%nat 40; OpAdvance 250; OpSchedule 2%nat 300] 4).
  - lia.
  - vm_compute. reflexivity.
  - simpl. lia.
  - vm_compute. reflexivity.
Defined.

(** X4.  [TimerWheel::Cancel(err)] on a wheel reached by valid calls
    empties it: every active event gets [OnCancel] once, with a copy of
    [err], events that are not active get none, no event is executed, and
    afterwards [IsEmpty()] holds and no event is active. *)
Theorem TimerWheel_Cancel_calls_off_all (t0 : Z) (ops : list op) (fuel : nat)
    (err : Err.Error) :
  0 <= t0 < 2 ^ 64 -> valid_ops t0 ops = true ->
  (length ops < fuel)%nat -> Z.of_nat (length ops) < size_max ->
  exists w w' log,
    run_ops fuel size_max ops (World_new t0) = Done (true, w) /\
    TimerWheel_Cancel fuel err w = Done w' /\
    IsEmpty w' = true /\ (forall e, IsActive w' e = false) /\
    called_off w' = called_off w ++ map (fun e => (e, Some err)) log /\
    NoDup log /\ (forall e, e ∈ log <-> IsActive w e = true) /\
    executed w' = executed w.
Proof.
  intros Ht0 Hv Hfuel Hsz.
  destruct (reached_inv t0 ops fuel Ht0 Hv Hfuel Hsz) as (w & HR & Hinv & HU).
  pose proof (touched_ids_length ops) as Hlen.
  destruct (call_off_all_spec (Some err) fuel _ _ w Hinv HU ltac:(lia))
    as (w' & log & HC & HE & Hno & Hco & Hnd & Hlog & Hx & _).
  exists w, w', log. split; [done|]. split; [done|]. split; [done|].
  split; [intros e; unfold IsActive; by rewrite Hno|]. split; [done|]. split; [done|].
  split; [|done]. intros e. rewrite Hlog. unfold IsActive.
  by rewrite bool_decide_eq_true.
Qed.

Lemma TimerWheel_Cancel_calls_off_all_witness :
  exists w w' log,
    run_ops 4 size_max [OpSchedule 1%nat 40; OpAdvance 250; OpSchedule 2%nat 300]
      (World_new 7) = Done (true, w) /\
    TimerWheel_Cancel 4 (Err.MkSysError 4) w = Done w' /\
    IsEmpty w' = true /\ (forall e, IsActive w' e = false) /\
    called_off w' = called_off w ++ map (fun e => (e, Some (Err.MkSysError 4))) log /\
    NoDup log /\ (forall e, e ∈ log <-> IsActive w e = true) /\
    executed w' = executed w.
Proof.
  apply (TimerWheel_Cancel_calls_off_all 7
           [OpSchedule 1%nat 40; OpAdvance 250; OpSchedule 2%nat 300] 4 (Err.MkSysError 4)).
  - lia.
  - vm_compute. reflexivity.
  - simpl. lia.
  - vm_compute. reflexivity.
Defined.

(** X5.  [TimerWheel::Abort()] on a wheel reached by valid calls empties
    it: every active event gets [OnAbort] once, events that are not active
    get none, and no event is executed. *)
Theorem TimerWheel_Abort_calls_off_all (t0 : Z) (ops : list op) (fuel : nat) :
  0 <= t0 < 2 ^ 64 -> valid_ops t0 ops = true ->
  (length ops < fuel)%nat -> Z.of_nat (length ops) < size_max ->
  exists w w' log,
    run_ops fuel size_max ops (World_new t0) = Done (true, w) /\
    TimerWheel_Abort fuel w = Done w' /\
    IsEmpty w' = true /\ (forall e, IsActive w' e = false) /\
    called_off w' = called_off w ++ map (fun e => (e, None)) log /\
    NoDup log /\ (forall e, e ∈ log <-> IsActive w e = true) /\
    executed w' = executed w.
Proof.
  intros Ht0 Hv Hfuel Hsz.
  destruct (reached_inv t0 ops fuel Ht0 Hv Hfuel Hsz) as (w & HR & Hinv & HU).
  pose proof (touched_ids_length ops) as Hlen.
  destruct (call_off_all_spec None fuel _ _ w Hinv HU ltac:(lia))
    as (w' & log & HC & HE & Hno & Hco & Hnd & Hlog & Hx & _).
  exists w, w', log. split; [done|]. split; [done|]. split; [done|].
  split; [intros e; unfold IsActive; by rewrite Hno|]. split; [done|]. split; [done|].
  split; [|done]. intros e. rewrite Hlog. unfold IsActive.
  by rewrite bool_decide_eq_true.
Qed.

Lemma TimerWheel_Abort_calls_off_all_witness :
  exists w w' log,
    run_ops 4 size_max [OpSchedule 1%nat 40; OpAdvance 250; OpSchedule 2%nat 300]
      (World_new 7) = Done (true, w) /\
    TimerWheel_Abort 4 w = Done w' /\
    IsEmpty w' = true /\ (forall e, IsActive w' e = false) /\
    called_off w' = called_off w ++ map (fun e => (e, None)) log /\
    NoDup log /\ (forall e, e ∈ log <-> IsActive w e = true) /\
    executed w' = executed w.
Proof.
  apply (TimerWheel_Abort_calls_off_all 7
           [OpSchedule 1%nat 40; OpAdvance 250; OpSchedule 2%nat 300] 4).
  - lia.
  - vm_compute. reflexivity.
  - simpl. lia.
  - vm_compute. reflexivity.
Defined.

(** X6.  [TimerWheel::ScheduleInRange(event, start, end)] on a wheel
    reached by valid calls, for [0 <= start < end < 2^56] with
    [now() + end < 2^64]: an active event already scheduled between
    [now() + start] and [now() + end] is left where it is, and otherwise
    the event is scheduled for a tick after [now() + start] and not after
    [now() + end]; no other event is touched. *)
Theorem ScheduleInRange_in_range (t0 : Z) (ops : list op) (fuel : nat) (e : EventId)
    (start end_ : Z) :
  0 <= t0 < 2 ^ 64 -> valid_ops t0 ops = true ->
  (length ops < fuel)%nat -> Z.of_nat (length ops) < size_max ->
  0 <= start -> start < end_ -> end_ < 2 ^ 56 ->
  clock_after t0 ops + end_ < 2 ^ 64 ->
  exists w w',
    run_ops fuel size_max ops (World_new t0) = Done (true, w) /\
    ScheduleInRange e start end_ w = Done w' /\
    IsActive w' e = true /\
    now w 0 + start <= scheduled_at w' e <= now w 0 + end_ /\
    (IsActive w e = true -> now w 0 + start <= scheduled_at w e <= now w 0 + end_ ->
     w' = w) /\
    (IsActive w e = false \/
     ~ (now w 0 + start <= scheduled_at w e <= now w 0 + end_) ->
     now w 0 + start < scheduled_at w' e) /\
    (forall e', e' <> e ->
       link w' e' = link w e' /\ scheduled_at w' e' = scheduled_at w e') /\
    executed w' = executed w.
Proof.
  intros Ht0 Hv Hfuel Hsz Hs Hlt He Hov.
  destruct (reached_inv t0 ops fuel Ht0 Hv Hfuel Hsz) as (w & HR & Hinv & HU).
  pose proof (wheel_inv_now _ _ Hinv) as Hnow.
  set (T := clock_after t0 ops) in *.
  pose proof Hinv as (HT & Hclk & Hp & Hok & HG).
  exists w.
  assert (Hact : IsActive w e = true -> T < scheduled_at w e < 2 ^ 64).
  { intros Ha. unfold IsActive in Ha. apply bool_decide_eq_true in Ha.
    split; [by apply wheel_inv_later|].
    destruct (link w e) as [[j s]|] eqn:Hl; [|done].
    destruct (HG e j s Hl) as (_ & ? & _). lia. }
  unfold ScheduleInRange. rewrite Hnow.
  destruct (IsActive w e && (start <=? wrap (scheduled_at w e - T)) &&
            (wrap (scheduled_at w e - T) <=? end_)) eqn:Hc.
  - apply andb_true_iff in Hc as [Hc Hc3]. apply andb_true_iff in Hc as [Hc1 Hc2].
    specialize (Hact Hc1). rewrite wrap_small in Hc2, Hc3 by lia.
    apply Z.leb_le in Hc2, Hc3.
    exists w. split; [done|]. split; [done|]. split; [done|]. split; [lia|].
    split; [done|]. split; [|done].
    intros [Hf|Hf]; [congruence|]. exfalso. apply Hf. lia.
  - pose proof (range_delta start end_ Hs Hlt He) as Hd. cbv zeta in Hd.
    set (delta := Z.land end_ _) in *.
    destruct (Schedule_inv T e delta w Hinv ltac:(lia) ltac:(lia))
      as (w' & HS & Hinv' & Hl' & Hat' & Hlo' & Hx').
    exists w'. split; [done|]. split; [done|].
    split; [unfold IsActive; by apply bool_decide_eq_true|].
    split; [lia|]. split.
    { intros Ha Hr. exfalso. specialize (Hact Ha).
      rewrite Ha in Hc. rewrite wrap_small in Hc by lia. simpl in Hc.
      apply andb_false_iff in Hc as [Hc|Hc]; [apply Z.leb_gt in Hc|apply Z.leb_gt in Hc]; lia. }
    split; [intros _; lia|]. split; done.
Qed.

Lemma ScheduleInRange_in_range_witness :
  exists w w',
    run_ops 4 size_max [OpSchedule 1%nat 40; OpAdvance 250; OpSchedule 2%nat 300]
      (World_new 7) = Done (true, w) /\
    ScheduleInRange 2%nat 1000 5000 w = Done w' /\
    IsActive w' 2%nat = true /\
    now w 0 + 1000 <= scheduled_at w' 2%nat <= now w 0 + 5000 /\
    (IsActive w 2%nat = true ->
     now w 0 + 1000 <= scheduled_at w 2%nat <= now w 0 + 5000 -> w' = w) /\
    (IsActive w 2%nat = false \/
     ~ (now w 0 + 1000 <= scheduled_at w 2%nat <= now w 0 + 5000) ->
     now w 0 + 1000 < scheduled_at w' 2%nat) /\
    (forall e', e' <> 2%nat ->
       link w' e' = link w e' /\ scheduled_at w' e' = scheduled_at w e') /\
    executed w' = executed w.
Proof.
  apply (ScheduleInRange_in_range 7
           [OpSchedule 1%nat 40; OpAdvance 250; OpSchedule 2%nat 300] 4 2%nat 1000 5000).
  - lia.
  - vm_compute. reflexivity.
  - simpl. lia.
  - vm_compute. reflexivity.
  - lia.
  - lia.
  - lia.
  - simpl. lia.
Defined.

Lemma bound_or_event_refl w now0 m : bound_or_event w now0 m m.
Proof. split; [lia|by left]. Qed.

Lemma bound_or_event_trans w now0 m v v' :
  bound_or_event w now0 m v -> bound_or_event w now0 v v' -> bound_or_event w now0 m v'.
Proof.
  intros [H1 H2] [H3 H4]. split; [lia|].
  destruct H4 as [->|H4]; [done|by right].
Qed.

Lemma bound_or_event_min w now0 m e r :
  e ∈ slot w r -> bound_or_event w now0 m (Z.min m (wrap (scheduled_at w e - now0))).
Proof.
  intros He. split; [lia|].
  destruct (Z.min_spec m (wrap (scheduled_at w e - now0))) as [[_ ->]|[_ ->]];
    [by left|right; eauto].
Qed.

Lemma slot_min_spec w r now0 m : bound_or_event w now0 m (slot_min w r now0 m).
Proof.
  unfold slot_min.
  assert (H : forall l, (forall e, e ∈ l -> e ∈ slot w r) ->
            forall m, bound_or_event w now0 m
              (foldl (fun m e => Z.min m (wrap (scheduled_at w e - now0))) m l)).
  { induction l as [|e l IH]; intros Hl m0; [apply bound_or_event_refl|]. simpl.
    eapply bound_or_event_trans; [apply (bound_or_event_min w now0 m0 e r)|].
    - apply Hl. left.
    - apply IH. intros e0 He0. apply Hl. by right. }
  by apply H.
Qed.

Lemma scan_slots_spec w level now0 idxs :
  forall m, bound_or_event w now0 m
              (match scan_slots w level now0 idxs m with inl v => v | inr v => v end).
Proof.
  induction idxs as [|i idxs IH]; intros m; [apply bound_or_event_refl|].
  cbn [scan_slots].
  set (slot_index := Z.land (wrap (now w level + i + 1)) kMask).
  set (m1 := if (slot_index =? 0) && (level <? kMaxLevel) then
               if (0 <? level) || bool_decide (slot w (level, slot_index) = []) then
                 slot_min w (level + 1, Z.land (wrap (now w (level + 1) + 1)) kMask) now0 m
               else m
             else m).
  assert (Hm1 : bound_or_event w now0 m m1).
  { unfold m1. destruct ((slot_index =? 0) && (level <? kMaxLevel));
      [|apply bound_or_event_refl].
    destruct ((0 <? level) || bool_decide (slot w (level, slot_index) = []));
      [apply slot_min_spec|apply bound_or_event_refl]. }
  destruct (slot w (level, slot_index)) as [|e l] eqn:Hs.
  - eapply bound_or_event_trans; [exact Hm1|apply IH].
  - destruct (level =? 0).
    + eapply bound_or_event_trans; [exact Hm1|].
      apply (bound_or_event_min w now0 m1 e (level, slot_index)). rewrite Hs. left.
    + eapply bound_or_event_trans; [exact Hm1|]. apply slot_min_spec.
Qed.

Lemma TicksToNextEvent_spec w max :
  pending w = 0 ->
  forall up level, bound_or_event w (now w 0) max (TicksToNextEvent up max level w).
Proof.
  intros Hp. induction up as [|up IH]; intros level; cbn [TicksToNextEvent];
    rewrite Hp; cbn [Z.eqb negb];
    pose proof (scan_slots_spec w level (now w 0) (seqZ 0 kNumSlots) max) as Hs;
    destruct (scan_slots w level (now w 0) (seqZ 0 kNumSlots) max) as [v|v]; try done;
    destruct ((level <? kMaxLevel) && (0 <? Z.shiftr max (kWidthBits * level + 1)));
    try apply bound_or_event_refl.
  apply IH.
Qed.

(** X18.  [TimerWheel::TicksToNextEvent(max)] on a wheel reached by valid
    calls, for [0 < max < 2^64]: the answer is positive and at most
    [max]; it is [max] itself or the distance from [now()] to the tick of
    an active event; so with no active event it is [max]. *)
Theorem TicksToNextEvent_bounds (t0 : Z) (ops : list op) (fuel : nat) (max : Z) :
  0 <= t0 < 2 ^ 64 -> valid_ops t0 ops = true ->
  (length ops < fuel)%nat -> Z.of_nat (length ops) < size_max ->
  0 < max -> 
  exists w,
    run_ops fuel size_max ops (World_new t0) = Done (true, w) /\
    let t := TicksToNextEvent (Z.to_nat kMaxLevel) max 0 w in
    0 < t <= max /\
    (t = max \/ exists e, IsActive w e = true /\ t = scheduled_at w e - now w 0) /\
    ((forall e, IsActive w e = false) -> t = max).
Proof.
  intros Ht0 Hv Hfuel Hsz Hmax.
  destruct (reached_inv t0 ops fuel Ht0 Hv Hfuel Hsz) as (w & HR & Hinv & HU).
  exists w. split; [done|].
  pose proof Hinv as (HT & Hclk & Hp & (Hin & Hlk & Hnd) & HG).
  pose proof (wheel_inv_now _ _ Hinv) as Hnow.
  destruct (TicksToNextEvent_spec w max Hp (Z.to_nat kMaxLevel) 0) as [Hle Hor].
  set (t := TicksToNextEvent (Z.to_nat kMaxLevel) max 0 w) in *. cbv zeta.
  assert (Hev : forall e r, e ∈ slot w r ->
            IsActive w e = true /\
            wrap (scheduled_at w e - now w 0) = scheduled_at w e - now w 0 /\
            0 < scheduled_at w e - now w 0).
  { intros e r He. apply Hin in He.
    assert (Hl : link w e <> None) by congruence.
    pose proof (wheel_inv_later _ _ _ Hinv Hl) as Hlater.
    destruct r as [j s]. destruct (HG e j s He) as (_ & Hb & _).
    rewrite Hnow. split; [unfold IsActive; by apply bool_decide_eq_true|].
    split; [apply wrap_small; lia|lia]. }
  split.
  { split; [|done]. destruct Hor as [->|(e & r & He & ->)]; [done|].
    destruct (Hev e r He) as (_ & -> & ?). done. }
  split.
  { destruct Hor as [->|(e & r & He & ->)]; [by left|right].
    destruct (Hev e r He) as (Ha & -> & _). by exists e. }
  intros Hno. destruct Hor as [->|(e & r & He & _)]; [done|].
  destruct (Hev e r He) as (Ha & _). rewrite Hno in Ha. done.
Qed.

Lemma TicksToNextEvent_bounds_witness :
  exists w,
    run_ops 4 size_max [OpSchedule 1%nat 40; OpAdvance 250; OpSchedule 2%nat 300]
      (World_new 7) = Done (true, w) /\
    let t := TicksToNextEvent (Z.to_nat kMaxLevel) 1000 0 w in
    0 < t <= 1000 /\
    (t = 1000 \/ exists e, IsActive w e = true /\ t = scheduled_at w e - now w 0) /\
    ((forall e, IsActive w e = false) -> t = 1000).
Proof.
  apply (TicksToNextEvent_bounds 7
           [OpSchedule 1%nat 40; OpAdvance 250; OpSchedule 2%nat 300] 4 1000).
  - lia.
  - vm_compute. reflexivity.
  - simpl. lia.
  - vm_compute. reflexivity.
  - lia.
Defined.

End WheelFacts.

(* ------------------------------------------------------------------ *)
(** ** Timer events                                                    *)
(* ------------------------------------------------------------------ *)

Module TimerEvFacts.
Import Err TimerEv.

Lemma run_calls_fired cs ev :
  callback_ ev = None -> run_calls cs ev = (ev, []).
Proof.
  intros Hc. induction cs as [|c cs IH]; [done|]. simpl.
  destruct c; unfold Execute, OnCancel; rewrite Hc; simpl; by rewrite IH.
Qed.

(** X19.  The handler of a [TimerEvent] is called at most once, by the
    first of the calls the wheel makes on it: [Execute] calls it with the
    empty [Error], [OnCancel(e)] with [e]; every later call does nothing.
    [IsFired()] is true exactly when the handler has been called, whether
    the timer fired or was cancelled. *)
Theorem TimerEvent_handler_called_once (h : nat) (cs : list Call) :
  let r := run_calls cs (TimerEvent_new h) in
  (length (snd r) <= 1)%nat /\
  (forall c rest, cs = c :: rest -> snd r = [(h, call_arg c)]) /\
  (cs = [] -> snd r = []) /\
  (IsFired (fst r) = true <-> snd r <> []).
Proof.
  destruct cs as [|c rest]; cbv zeta.
  - simpl. split; [lia|]. split; [done|]. split; [done|].
    split; [intros H; vm_compute in H; discriminate H|done].
  - assert (H : run_calls (c :: rest) (TimerEvent_new h) =
                (mkTimerEvent None, [(h, call_arg c)])).
    { simpl. destruct c; simpl; by rewrite run_calls_fired. }
    rewrite H. simpl. split; [lia|]. split; [by intros c0 rest0 [= <- _]|].
    split; [done|]. split; [done|]. intros _. reflexivity.
Qed.

End TimerEvFacts.

(* ------------------------------------------------------------------ *)
(** ** Promises, resolvers and awaiters                                *)
(* ------------------------------------------------------------------ *)

Module PromFacts.
Import Err Prom.

(** C9, as stated, fails for [Set]: [Set(Result<T>&&)] takes the value or
    the error out of its argument before it looks at the state, so with an
    empty [Result] it fails the [DCHECK] of [PassError], also through a
    resolver whose state is gone. *)
Lemma expired_resolver_Set_empty_aborts :
  let w := destroy 0%nat (snd (Promise_new World_empty)) in
  let r := GetResolver (fst (Promise_new World_empty)) in
  IsExpired w r = true /\
  Resolver_Set 3 r RNull w = Fault Aborted /\
  ~ (exists b w', Resolver_Set 3 r RNull w = Done (b, w')).
Proof.
  split; [by vm_compute|]. split; [by vm_compute|].
  intros (b & w' & H). vm_compute in H. discriminate H.
Qed.

(** C9, amended.  A resolver whose state has been destroyed (or that
    holds none) is expired, and through it every call is a no-op:
    [Resolve], [Reject] and [Set] of a result that holds a value or an
    error return [false] and [Cancel] returns, all leaving the world as
    it was; the status queries return an empty optional.  The same for
    [PromiseResolver<void>], whose [Set] takes any [Result<void>].  [Set]
    of an empty [Result] does not get as far as the resolver. *)
Theorem expired_resolver_noop (fuel : nat) (w : World) (r : PromiseResolver)
    (v : Value) (e : Error) (resv : ResultVoid) :
  (forall a, ptr_ r = Some a -> heap w !! a = None) ->
  IsExpired w r = true /\
  (Resolver_Resolve fuel r v w = Done (false, w) /\
   Resolver_Reject fuel r e w = Done (false, w) /\
   (forall res, Result_IsEmpty res = false -> Resolver_Set fuel r res w = Done (false, w)) /\
   Resolver_Set fuel r RNull w = Fault Aborted /\
   Resolver_Cancel r w = w /\
   Resolver_IsDone w r = None /\ Resolver_IsEmpty w r = None /\
   Resolver_IsSettled w r = None /\ Resolver_IsSatisfied w r = None /\
   Resolver_IsUnsatisfied w r = None) /\
  (ResolverVoid_Resolve fuel r w = Done (false, w) /\
   ResolverVoid_Reject fuel r e w = Done (false, w) /\
   ResolverVoid_Set fuel r resv w = Done (false, w) /\
   ResolverVoid_Cancel r w = w /\
   ResolverVoid_query IsDone w r = None /\ ResolverVoid_query IsEmpty w r = None /\
   ResolverVoid_query IsSettled w r = None /\ ResolverVoid_query IsSatisfied w r = None /\
   ResolverVoid_query IsUnsatisfied w r = None).
Proof.
  intros Hgone.
  assert (Hexp : lock w r = None).
  { unfold lock. destruct (ptr_ r) as [a|] eqn:Hp; [|done]. by rewrite (Hgone a). }
  split; [unfold IsExpired; by apply bool_decide_eq_true|].
  unfold Resolver_Set, ResolverVoid_Set, Resolver_Resolve, Resolver_Reject, Resolver_Cancel,
    Resolver_IsDone, Resolver_IsEmpty, Resolver_IsSettled, Resolver_IsSatisfied,
    Resolver_IsUnsatisfied, Resolver_query, ResolverVoid_Resolve, ResolverVoid_Reject,
    ResolverVoid_Cancel, ResolverVoid_query.
  rewrite !Hexp. split.
  - split; [done|]. split; [done|]. split; [intros res Hres; by destruct res|].
    by repeat split.
  - repeat split. by destruct (ResultVoid_IsOk resv).
Qed.

Lemma expired_resolver_noop_witness :
  let w := destroy 0%nat (snd (Promise_new World_empty)) in
  let r := GetResolver (fst (Promise_new World_empty)) in
  IsExpired w r = true /\
  (Resolver_Resolve 3 r (VInt 1) w = Done (false, w) /\
   Resolver_Reject 3 r (MkSysError 2) w = Done (false, w) /\
   (forall res, Result_IsEmpty res = false -> Resolver_Set 3 r res w = Done (false, w)) /\
   Resolver_Set 3 r RNull w = Fault Aborted /\
   Resolver_Cancel r w = w /\
   Resolver_IsDone w r = None /\ Resolver_IsEmpty w r = None /\
   Resolver_IsSettled w r = None /\ Resolver_IsSatisfied w r = None /\
   Resolver_IsUnsatisfied w r = None) /\
  (ResolverVoid_Resolve 3 r w = Done (false, w) /\
   ResolverVoid_Reject 3 r (MkSysError 2) w = Done (false, w) /\
   ResolverVoid_Set 3 r ResultVoid_ok w = Done (false, w) /\
   ResolverVoid_Cancel r w = w /\
   ResolverVoid_query IsDone w r = None /\ ResolverVoid_query IsEmpty w r = None /\
   ResolverVoid_query IsSettled w r = None /\ ResolverVoid_query IsSatisfied w r = None /\
   ResolverVoid_query IsUnsatisfied w r = None).
Proof.
  apply (expired_resolver_noop 3 (destroy 0%nat (snd (Promise_new World_empty)))
           (GetResolver (fst (Promise_new World_empty))) (VInt 1) (MkSysError 2)
           ResultVoid_ok).
  intros a Ha. vm_compute in Ha. inversion Ha; subst a. vm_compute. reflexivity.
Defined.

Lemma getT_putT p s w : getT (putT p s w) p = Some s.
Proof. unfold getT, putT. simpl. by rewrite lookup_insert_eq. Qed.

Lemma getT_putT_ne p q s w : p <> q -> getT (putT p s w) q = getT w q.
Proof. intros. unfold getT, putT. simpl. by rewrite lookup_insert_ne. Qed.

Lemma heap_putT p s w : heap (putT p s w) = <[p := ObjT s]> (heap w).
Proof. reflexivity. Qed.

Lemma getT_heap w p s : getT w p = Some s -> heap w !! p = Some (ObjT s).
Proof. unfold getT. destruct (heap w !! p) as [[?|?]|]; congruence. Qed.

Lemma getVoid_heap w p s : getVoid w p = Some s -> heap w !! p = Some (ObjVoid s).
Proof. unfold getVoid. destruct (heap w !! p) as [[?|?]|]; congruence. Qed.

Lemma IsPending_status m :
  IsPending m = true <-> status_ m = kPreFulfilled \/ status_ m = kPreRejected.
Proof. destruct m as [[]]; vm_compute; intuition congruence. Qed.

Lemma putT_putT p a b w : putT p a (putT p b w) = putT p a w.
Proof. unfold putT, set_heap. simpl. by rewrite insert_insert_eq. Qed.

Lemma next_putT p s w : next (putT p s w) p = next_ s.
Proof. unfold next. by rewrite heap_putT, lookup_insert_eq. Qed.




Lemma status_getT w p s : getT w p = Some s -> status w p = Some (status_ (machine s)).
Proof. intros H. unfold status. by rewrite (getT_heap _ _ _ H). Qed.

Lemma alloc_getT s w : getT (snd (alloc (ObjT s) w)) (fst (alloc (ObjT s) w)) = Some s.
Proof. unfold alloc, getT. simpl. by rewrite lookup_insert_eq. Qed.

(** A state that has no callback yet only stores the outcome. *)
Lemma Resolve_fresh fuel p v w s :
  getT w p = Some s -> status_ (machine s) = kInit -> callback_ s = None ->
  Resolve (S fuel) p v w =
    Done (true, putT p (with_machine (mkMachine kPreFulfilled)
                          (with_storage (Some (ROk v)) s)) w).
Proof.
  intros Hs Hi Hc. cbn [Resolve]. rewrite Hs.
  unfold IsEmpty. rewrite bool_decide_true by done.
  unfold TryInvokeCallback_with. rewrite getT_putT.
  cbn [callback_ with_machine with_storage]. rewrite Hc.
  rewrite bool_decide_false by (intros H; by apply H). cbn [andb bind].
  unfold ToPreFulfilled, To. rewrite decide_True by done. done.
Qed.

Lemma Reject_fresh fuel p e w s :
  getT w p = Some s -> status_ (machine s) = kInit -> callback_ s = None ->
  Reject (S fuel) p e w =
    Done (true, putT p (with_machine (mkMachine kPreRejected)
                          (with_storage (Some (RErr e)) s)) w).
Proof.
  intros Hs Hi Hc. cbn [Reject]. rewrite Hs.
  unfold IsEmpty. rewrite bool_decide_true by done.
  unfold TryInvokeCallback_with. rewrite getT_putT.
  cbn [callback_ with_machine with_storage]. rewrite Hc.
  rewrite bool_decide_false by (intros H; by apply H). cbn [andb bind].
  unfold ToPreRejected, To. rewrite decide_True by done. done.
Qed.

Lemma MkResolvedPromise_spec fuel v w :
  exists p w',
    MkResolvedPromise (S fuel) v w = Done (p, w') /\
    getT w' (state_ p) =
      Some (with_machine (mkMachine kPreFulfilled) (with_storage (Some (ROk v)) StateT_new)).
Proof.
  unfold MkResolvedPromise, Promise_new, Promise_Resolve. cbn [fst snd state_].
  rewrite (Resolve_fresh fuel _ v _ StateT_new); [|apply alloc_getT|done|done].
  eexists _, _. split; [reflexivity|]. cbn [fst snd state_]. apply getT_putT.
Qed.

Lemma MkRejectedPromise_spec fuel e w :
  exists p w',
    MkRejectedPromise (S fuel) e w = Done (p, w') /\
    getT w' (state_ p) =
      Some (with_machine (mkMachine kPreRejected) (with_storage (Some (RErr e)) StateT_new)).
Proof.
  unfold MkRejectedPromise, Promise_new, Promise_Reject. cbn [fst snd state_].
  rewrite (Reject_fresh fuel _ e _ StateT_new); [|apply alloc_getT|done|done].
  eexists _, _. split; [reflexivity|]. cbn [fst snd state_]. apply getT_putT.
Qed.

(** C5, evaluated on the code.  On empty input [MkAllPromise] and
    [MkAllPromiseAttachContainer] return a promise resolved with the
    empty vector, [MkAnyPromise] and [MkAnyPromiseAttachContainer] one
    rejected with [(kErrorEventPromiseAny, "no promise")], [MkRacePromise]
    one rejected with [(kErrorEventPromiseRace, "no promise")]; but
    [MkRacePromiseAttachContainer] returns a promise that is [init], with
    nothing stored. *)
Theorem combinators_on_empty_input (fuel : nat) (ex : option Executor) (w : World) :
  settled_with kPreFulfilled (ROk (VVec [])) (MkAllPromise (S fuel) [] ex w) /\
  settled_with kPreFulfilled (ROk (VVec [])) (MkAllPromiseAttachContainer (S fuel) [] ex w) /\
  settled_with kPreRejected (RErr (Err2 kErrorEventPromiseAny "no promise"))
    (MkAnyPromise (S fuel) [] ex w) /\
  settled_with kPreRejected (RErr (Err2 kErrorEventPromiseAny "no promise"))
    (MkAnyPromiseAttachContainer (S fuel) [] ex w) /\
  settled_with kPreRejected (RErr (Err2 kErrorEventPromiseRace "no promise"))
    (MkRacePromise (S fuel) [] ex w) /\
  exists p w',
    MkRacePromiseAttachContainer (S fuel) [] ex w = Done (p, w') /\
    getT w' (state_ p) = Some (StateT_attachment []) /\
    status w' (state_ p) = Some kInit /\
    ~ settled_with kPreRejected (RErr (Err2 kErrorEventPromiseRace "no promise"))
        (MkRacePromiseAttachContainer (S fuel) [] ex w).
Proof.
  assert (Hres : forall v, settled_with kPreFulfilled (ROk v) (MkResolvedPromise (S fuel) v w)).
  { intros v. destruct (MkResolvedPromise_spec fuel v w) as (p & w' & -> & Hg).
    by eexists p, w', _. }
  assert (Hrej : forall e, settled_with kPreRejected (RErr e) (MkRejectedPromise (S fuel) e w)).
  { intros e. destruct (MkRejectedPromise_spec fuel e w) as (p & w' & -> & Hg).
    by eexists p, w', _. }
  split; [apply Hres|]. split; [apply Hres|]. split; [apply Hrej|]. split; [apply Hrej|].
  split; [apply Hrej|].
  assert (Hrace : exists p w',
             MkRacePromiseAttachContainer (S fuel) [] ex w = Done (p, w') /\
             getT w' (state_ p) = Some (StateT_attachment [])).
  { unfold MkRacePromiseAttachContainer.
    destruct (MkRejectedPromise_spec fuel (Err2 kErrorEventPromiseRace "no promise") w)
      as (p0 & w0 & -> & _).
    cbn [bind fst snd]. unfold MkAttachmentPromise, race_body. cbn [then_each bind].
    eexists _, _. split; [reflexivity|]. cbn [state_]. apply alloc_getT. }
  destruct Hrace as (p & w' & Heq & Hg). exists p, w'. rewrite Heq.
  split; [done|]. split; [done|]. split; [by rewrite (status_getT _ _ _ Hg)|].
  intros (p1 & w1 & s & Heq1 & Hg1 & Hst & _). by simplify_eq.
Qed.

(** C4, evaluated on the code.  A chain [p1 -> p2] made by [Then];
    [p1.Cancel()] cancels the state of [p1] and stops there: the next
    state of the chain is still [init].  In general [Promise<T>::Cancel]
    writes to no state but its own. *)
Theorem Promise_Cancel_own_state_only :
  (forall (w : World) (p : Promise) (q : Addr),
     q <> state_ p -> heap (Promise_Cancel p w) !! q = heap w !! q) /\
  (forall (fuel : nat) (f : Result -> Result) (ex : option Executor),
     let p1 := fst (Promise_new World_empty) in
     exists p2 w,
       Then_result fuel p1 f ex (snd (Promise_new World_empty)) = Done (p2, w) /\
       next w (state_ p1) = Some (state_ p2) /\
       status w (state_ p1) = Some kInit /\ status w (state_ p2) = Some kInit /\
       status (Promise_Cancel p1 w) (state_ p1) = Some kCancelled /\
       status (Promise_Cancel p1 w) (state_ p2) = Some kInit).
Proof.
  split.
  - intros w p q Hq. unfold Promise_Cancel, Cancel.
    destruct (getT w (state_ p)) as [s|]; [|done].
    destruct (IsEmpty (machine s) || IsPending (machine s)); [|done].
    rewrite heap_putT, lookup_insert_ne by done. by destruct (co_handle_ s).
  - intros fuel f ex p1. eexists _, _. split; [by vm_compute|]. by vm_compute.
Qed.

(** C3, as stated, fails: a continuation attached with no executor
    ([nullptr]) runs inside [Resolve], which returns with the state
    [fulfilled]; and [PromiseState<void>::Resolve] forces [fulfilled]. *)
Lemma Resolve_runs_continuation_in_place :
  let p := fst (Promise_new World_empty) in
  (exists w1 w2,
     Then_void 1 p (FnUser 7) None (snd (Promise_new World_empty)) = Done w1 /\
     status w1 (state_ p) = Some kInit /\
     Resolve 1 (state_ p) (VInt 1) w1 = Done (true, w2) /\
     status w2 (state_ p) = Some kFulfilled /\
     invoked w2 = [(7%nat, ROk (VInt 1))]) /\
  (let pv := fst (PromiseVoid_new World_empty) in
   exists w2,
     ResolveVoid 1 (state_ pv) (snd (PromiseVoid_new World_empty)) = Done (true, w2) /\
     status w2 (state_ pv) = Some kFulfilled).
Proof.
  split.
  - eexists _, _. split; [by vm_compute|]. split; [by vm_compute|].
    split; [by vm_compute|]. by vm_compute.
  - eexists _. split; by vm_compute.
Qed.

(** C3, amended.  A [PromiseState<T>] that is [init], with a continuation
    attached and an executor that queues what it is posted: [Resolve]
    (and [Reject]) returns [true] with the state in the matching pre
    status, the trampoline at the back of the executor's queue and
    nothing run; the trampoline, when the executor runs it, first makes
    the state [fulfilled] ([rejected]) and then calls the continuation
    with the stored outcome. *)
Theorem Resolve_defers_to_executor (fuel fuel' : nat) (w : World) (p : Addr)
    (s : PromiseStateT) (q : nat) (cb : Callback) :
  getT w p = Some s -> status_ (machine s) = kInit ->
  callback_ s = Some cb -> executor_ s = Some (QueueExecutor q) ->
  (forall v,
     let s1 := with_machine (mkMachine kPreFulfilled) (with_storage (Some (ROk v)) s) in
     let w1 := Post q (Trampoline p) (putT p s1 w) in
     Resolve (S fuel) p v w = Done (true, w1) /\
     status w1 p = Some kPreFulfilled /\
     queues w1 !! q = Some (default [] (queues w !! q) ++ [Trampoline p]) /\
     invoked w1 = invoked w /\ notified w1 = notified w /\ resumed w1 = resumed w /\
     run_thunk fuel' (Trampoline p) w1 =
       run_callback (Resolve fuel') (Reject fuel') (PropagateResultVoid fuel') cb (ROk v)
         (putT p (with_callback None (with_machine (mkMachine kFulfilled) s1)) w1)) /\
  (forall e,
     let s1 := with_machine (mkMachine kPreRejected) (with_storage (Some (RErr e)) s) in
     let w1 := Post q (Trampoline p) (putT p s1 w) in
     Reject (S fuel) p e w = Done (true, w1) /\
     status w1 p = Some kPreRejected /\
     queues w1 !! q = Some (default [] (queues w !! q) ++ [Trampoline p]) /\
     invoked w1 = invoked w /\ notified w1 = notified w /\ resumed w1 = resumed w /\
     run_thunk fuel' (Trampoline p) w1 =
       run_callback (Resolve fuel') (Reject fuel') (PropagateResultVoid fuel') cb (RErr e)
         (putT p (with_callback None (with_machine (mkMachine kRejected) s1)) w1)).
Proof.
  intros Hs Hi Hc He. split.
  - intros v s1 w1.
    assert (Hg1 : getT w1 p = Some s1) by (unfold w1, Post; apply getT_putT).
    split.
    { cbn [Resolve]. rewrite Hs. unfold IsEmpty. rewrite bool_decide_true by done.
      unfold TryInvokeCallback_with. rewrite getT_putT.
      cbn [callback_ machine with_machine with_storage]. rewrite Hc.
      rewrite bool_decide_true by done.
      unfold ToPreFulfilled, To. rewrite decide_True by done. cbn [snd andb].
      replace (IsPending {| status_ := kPreFulfilled |}) with true by reflexivity.
      unfold RunInExecutor_with. rewrite getT_putT.
      cbn [executor_ with_machine with_storage]. rewrite He. done. }
    split; [by rewrite (status_getT _ _ _ Hg1)|].
    split; [unfold w1, Post; simpl; by rewrite lookup_insert_eq|].
    split; [done|]. split; [done|]. split; [done|].
    unfold run_thunk, run_thunk_with. rewrite Hg1. cbn [machine s1 with_machine status_].
    unfold InvokeCallback_with. rewrite getT_putT. unfold s1.
    cbn [storage_ callback_ with_machine with_storage]. rewrite Hc, putT_putT. done.
  - intros e s1 w1.
    assert (Hg1 : getT w1 p = Some s1) by (unfold w1, Post; apply getT_putT).
    split.
    { cbn [Reject]. rewrite Hs. unfold IsEmpty. rewrite bool_decide_true by done.
      unfold TryInvokeCallback_with. rewrite getT_putT.
      cbn [callback_ machine with_machine with_storage]. rewrite Hc.
      rewrite bool_decide_true by done.
      unfold ToPreRejected, To. rewrite decide_True by done. cbn [snd andb].
      replace (IsPending {| status_ := kPreRejected |}) with true by reflexivity.
      unfold RunInExecutor_with. rewrite getT_putT.
      cbn [executor_ with_machine with_storage]. rewrite He. done. }
    split; [by rewrite (status_getT _ _ _ Hg1)|].
    split; [unfold w1, Post; simpl; by rewrite lookup_insert_eq|].
    split; [done|]. split; [done|]. split; [done|].
    unfold run_thunk, run_thunk_with. rewrite Hg1. cbn [machine s1 with_machine status_].
    unfold InvokeCallback_with. rewrite getT_putT. unfold s1.
    cbn [storage_ callback_ with_machine with_storage]. rewrite Hc, putT_putT. done.
Qed.

Lemma Resolve_defers_to_executor_witness :
  let fuel := 1%nat in
  let fuel' := 2%nat in
  let p := 0%nat in
  let q := 0%nat in
  let cb := CbVoid 0%nat (FnUser 7%nat) in
  let s := with_executor (Some (QueueExecutor q)) (with_callback (Some cb) StateT_new) in
  let w := putT p s (snd (Promise_new World_empty)) in
  (forall v,
     let s1 := with_machine (mkMachine kPreFulfilled) (with_storage (Some (ROk v)) s) in
     let w1 := Post q (Trampoline p) (putT p s1 w) in
     Resolve (S fuel) p v w = Done (true, w1) /\
     status w1 p = Some kPreFulfilled /\
     queues w1 !! q = Some (default [] (queues w !! q) ++ [Trampoline p]) /\
     invoked w1 = invoked w /\ notified w1 = notified w /\ resumed w1 = resumed w /\
     run_thunk fuel' (Trampoline p) w1 =
       run_callback (Resolve fuel') (Reject fuel') (PropagateResultVoid fuel') cb (ROk v)
         (putT p (with_callback None (with_machine (mkMachine kFulfilled) s1)) w1)) /\
  (forall e,
     let s1 := with_machine (mkMachine kPreRejected) (with_storage (Some (RErr e)) s) in
     let w1 := Post q (Trampoline p) (putT p s1 w) in
     Reject (S fuel) p e w = Done (true, w1) /\
     status w1 p = Some kPreRejected /\
     queues w1 !! q = Some (default [] (queues w !! q) ++ [Trampoline p]) /\
     invoked w1 = invoked w /\ notified w1 = notified w /\ resumed w1 = resumed w /\
     run_thunk fuel' (Trampoline p) w1 =
       run_callback (Resolve fuel') (Reject fuel') (PropagateResultVoid fuel') cb (RErr e)
         (putT p (with_callback None (with_machine (mkMachine kRejected) s1)) w1)).
Proof.
  apply (Resolve_defers_to_executor 1 2
           (putT 0%nat (with_executor (Some (QueueExecutor 0%nat))
                          (with_callback (Some (CbVoid 0%nat (FnUser 7%nat))) StateT_new))
              (snd (Promise_new World_empty)))
           0%nat
           (with_executor (Some (QueueExecutor 0%nat))
              (with_callback (Some (CbVoid 0%nat (FnUser 7%nat))) StateT_new))
           0%nat (CbVoid 0%nat (FnUser 7%nat))).
  - vm_compute. reflexivity.
  - reflexivity.
  - reflexivity.
  - reflexivity.
Defined.

Lemma legal_path_refl a : legal_path a a = true.
Proof. by destruct a. Qed.

Lemma legal_path_trans a b c :
  legal_path a b = true -> legal_path b c = true -> legal_path a c = true.
Proof. by destruct a, b, c. Qed.

Lemma moves_refl w : moves_legally w w.
Proof. intros p s H. exists s. split; [done|apply legal_path_refl]. Qed.

Lemma moves_trans w1 w2 w3 :
  moves_legally w1 w2 -> moves_legally w2 w3 -> moves_legally w1 w3.
Proof.
  intros H1 H2 p s Hs. destruct (H1 p s Hs) as (s' & Hs' & Hl).
  destruct (H2 p s' Hs') as (s'' & Hs'' & Hl'). exists s''. split; [done|].
  by apply (legal_path_trans _ (status_ (machine s'))).
Qed.

Lemma moves_heap w w' : heap w' = heap w -> moves_legally w w'.
Proof. intros H p s Hs. exists s. unfold getT in *. rewrite H. split; [done|apply legal_path_refl]. Qed.

Lemma moves_putT w p s s' :
  getT w p = Some s -> legal_path (status_ (machine s)) (status_ (machine s')) = true ->
  moves_legally w (putT p s' w).
Proof.
  intros Hs Hl q sq Hq. destruct (decide (p = q)) as [<-|Hne].
  - rewrite getT_putT. exists s'. split; [done|]. congruence.
  - rewrite getT_putT_ne by done. exists sq. split; [done|apply legal_path_refl].
Qed.

Lemma moves_putVoid w p sv sv' :
  getVoid w p = Some sv -> moves_legally w (putVoid p sv' w).
Proof.
  intros Hv q sq Hq. exists sq. split; [|apply legal_path_refl].
  unfold getT, putVoid in *. simpl. apply getVoid_heap in Hv.
  destruct (decide (p = q)) as [<-|Hne].
  - rewrite Hv in Hq. done.
  - by rewrite lookup_insert_ne.
Qed.

Lemma moves_consume self w : moves_legally w (consume self w).
Proof.
  unfold consume. destruct (getT w self) as [s|] eqn:Hs; [|apply moves_refl].
  apply (moves_putT w self s); [done|]. apply legal_path_refl.
Qed.

Lemma PropagateResultVoid_legal fuel :
  forall p r w w', PropagateResultVoid fuel p r w = Done w' -> moves_legally w w'.
Proof.
  induction fuel as [|fuel IH]; intros p r w w' H; [done|]. simpl in H.
  destruct (getVoid w p) as [sv|] eqn:Hv; [|done].
  destruct (IsDone (vmachine sv)); [done|].
  set (w1 := putVoid p _ w) in H.
  assert (H1 : moves_legally w w1) by (by apply (moves_putVoid w p sv)).
  destruct (vnext_ sv) as [n|].
  - apply (moves_trans w w1 w'); [done|]. by apply (IH n r).
  - by simplify_eq.
Qed.

Section SettleLegal.
Variable resolve : Addr -> Value -> World -> result (bool * World).
Variable reject : Addr -> Error -> World -> result (bool * World).
Variable propagate_void : Addr -> ResultVoid -> World -> result World.
Hypothesis Hres : forall p v w r, resolve p v w = Done r -> moves_legally w (snd r).
Hypothesis Hrej : forall p e w r, reject p e w = Done r -> moves_legally w (snd r).
Hypothesis Hpv : forall p r w w', propagate_void p r w = Done w' -> moves_legally w w'.

Ltac bind_inv H :=
  match type of H with
  | bind ?c _ = Done _ =>
      let E := fresh "E" in destruct c eqn:E; cbn [bind] in H; [|discriminate H]
  end.

Lemma PropagateResult_with_legal p r w w' :
  PropagateResult_with resolve reject p r w = Done w' -> moves_legally w w'.
Proof.
  unfold PropagateResult_with. intros H.
  destruct (Result_IsOk r); repeat bind_inv H; simplify_eq; eauto.
Qed.

Lemma run_functor_legal self f r w w' :
  run_functor resolve reject self f r w = Done w' -> moves_legally w w'.
Proof.
  intros H. destruct f; cbn [run_functor] in H.
  - simplify_eq. by apply moves_heap.
  - destruct (negb (Result_IsOk r)).
    + repeat bind_inv H. simplify_eq.
      apply (moves_trans _ (consume self w)); [apply moves_consume|eauto].
    + bind_inv H. destruct (ctxs (consume self w) !! ctx) as [c|]; [|done].
      match type of H with (if ?b then _ else _) = _ => destruct b end.
      * bind_inv H. simplify_eq.
        apply (moves_trans _ (consume self w)); [apply moves_consume|].
        eapply moves_trans; [|eauto]. by apply moves_heap.
      * simplify_eq. apply (moves_trans _ (consume self w)); [apply moves_consume|].
        by apply moves_heap.
  - destruct (Result_IsOk r).
    + repeat bind_inv H. simplify_eq.
      apply (moves_trans _ (consume self w)); [apply moves_consume|eauto].
    + bind_inv H. destruct (ctxs (consume self w) !! ctx) as [c|]; [|done].
      match type of H with (if ?b then _ else _) = _ => destruct b end.
      * bind_inv H. simplify_eq.
        apply (moves_trans _ (consume self w)); [apply moves_consume|].
        eapply moves_trans; [|eauto]. by apply moves_heap.
      * simplify_eq. apply (moves_trans _ (consume self w)); [apply moves_consume|].
        by apply moves_heap.
  - destruct (Result_IsOk r); repeat bind_inv H; simplify_eq;
      (apply (moves_trans _ (consume self w)); [apply moves_consume|eauto]).
  - simplify_eq. by apply moves_heap.
  - simplify_eq. by apply moves_heap.
  - destruct (Result_IsOk r).
    + simplify_eq. apply moves_heap. by destruct f.
    + bind_inv H. simplify_eq.
      apply (moves_trans _ (consume self w)); [apply moves_consume|].
      apply moves_heap. by destruct f.
Qed.

Lemma run_callback_legal cb r w w' :
  run_callback resolve reject propagate_void cb r w = Done w' -> moves_legally w w'.
Proof.
  intros H. destruct cb; cbn [run_callback] in H;
    destruct (heap w !! self); try (simplify_eq; apply moves_refl).
  - destruct (next w self); [done|]. by apply run_functor_legal in H.
  - destruct (next w self); [by apply PropagateResult_with_legal in H|].
    simplify_eq. apply moves_refl.
  - destruct (next w self); [by apply Hpv in H|]. simplify_eq. apply moves_refl.
Qed.

Lemma InvokeCallback_with_legal p w w' :
  InvokeCallback_with resolve reject propagate_void p w = Done w' -> moves_legally w w'.
Proof.
  unfold InvokeCallback_with. intros H. destruct (getT w p) as [s|] eqn:Hs; [|done].
  destruct (storage_ s) as [r|]; [|done]. destruct (callback_ s) as [cb|]; [|done].
  apply run_callback_legal in H. eapply moves_trans; [|exact H].
  apply (moves_putT w p s); [done|apply legal_path_refl].
Qed.

Lemma run_thunk_with_legal t w w' :
  run_thunk_with resolve reject propagate_void t w = Done w' -> moves_legally w w'.
Proof.
  destruct t as [p]. unfold run_thunk_with. intros H.
  destruct (getT w p) as [s|] eqn:Hs; [|simplify_eq; apply moves_refl].
  destruct (status_ (machine s)) eqn:Hst; try (simplify_eq; apply moves_refl).
  - apply InvokeCallback_with_legal in H. eapply moves_trans; [|exact H].
    apply (moves_putT w p s); [done|]. rewrite Hst.
    unfold ToFulfilled, To. rewrite Hst. by rewrite decide_True.
  - apply InvokeCallback_with_legal in H. eapply moves_trans; [|exact H].
    apply (moves_putT w p s); [done|]. rewrite Hst.
    unfold ToRejected, To. rewrite Hst. by rewrite decide_True.
Qed.

Lemma TryInvokeCallback_with_legal p w w' :
  TryInvokeCallback_with resolve reject propagate_void p w = Done w' -> moves_legally w w'.
Proof.
  unfold TryInvokeCallback_with, RunInExecutor_with. intros H.
  destruct (getT w p) as [s|] eqn:Hs; [|done].
  destruct (bool_decide (callback_ s <> None) && IsPending (machine s));
    [|simplify_eq; apply moves_refl].
  destruct (executor_ s) as [[q|]|].
  - simplify_eq. by apply moves_heap.
  - by apply run_thunk_with_legal in H.
  - by apply run_thunk_with_legal in H.
Qed.

End SettleLegal.

Lemma Resolve_Reject_legal fuel :
  (forall p v w r, Resolve fuel p v w = Done r -> moves_legally w (snd r)) /\
  (forall p e w r, Reject fuel p e w = Done r -> moves_legally w (snd r)).
Proof.
  induction fuel as [|fuel [IHres IHrej]]; [by split|].
  assert (Hpv := PropagateResultVoid_legal fuel).
  split; intros p x w r H; cbn [Resolve Reject] in H;
    (destruct (getT w p) as [s|] eqn:Hs; [|done]);
    unfold IsEmpty in H;
    (destruct (bool_decide_reflect (status_ (machine s) = kInit)) as [Hi|Hi];
      [|simplify_eq; apply moves_refl]);
    match type of H with
    | bind ?c _ = Done _ => destruct c as [w1|] eqn:E; cbn [bind] in H; [|discriminate H]
    end;
    simplify_eq; cbn [snd];
    apply (TryInvokeCallback_with_legal _ _ _ IHres IHrej Hpv) in E;
    (eapply moves_trans; [|exact E]);
    (apply (moves_putT w p s); [done|]); rewrite Hi; done.
Qed.




(** [PromiseState<void>::PropagateResult] sets the status with [Force],
    whatever it was short of [fulfilled] and [rejected].  A chain
    [p1 -> p2] with [p2] a [Promise<void>]; [p2.Cancel()] makes it
    [cancelled]; then [p1] is resolved and the executor run, and [p2] is
    [fulfilled]. *)
Lemma void_state_leaves_cancelled :
  let p1 := fst (Promise_new World_empty) in
  exists p2 w1 w2 w3,
    Then_result_void 1 p1 (fun _ => ResultVoid_ok) (Some (QueueExecutor 0))
      (snd (Promise_new World_empty)) = Done (p2, w1) /\
    status (PromiseVoid_Cancel p2 w1) (state_ p2) = Some kCancelled /\
    Promise_Resolve 1 p1 (VInt 1) (PromiseVoid_Cancel p2 w1) = Done (true, w2) /\
    Run 2 1 0 w2 = Done w3 /\
    status w3 (state_ p2) = Some kFulfilled.
Proof.
  eexists _, _, _, _. split; [by vm_compute|]. split; [by vm_compute|].
  split; [by vm_compute|]. split; by vm_compute.
Qed.





Lemma cancellable_guard m : IsEmpty m || IsPending m = is_cancellable (status_ m).
Proof. by destruct m as [[]]. Qed.

Lemma Cancel_unfold w p s :
  getT w p = Some s ->
  Cancel p w =
    if is_cancellable (status_ (machine s)) then
      putT p (with_machine (mkMachine kCancelled)
                (with_storage None (with_callback None s)))
        (match co_handle_ s with Some h => log_destroyed h w | None => w end)
    else w.
Proof.
  intros Hs. unfold Cancel. rewrite Hs, cancellable_guard.
  destruct (is_cancellable (status_ (machine s))) eqn:Hc; [|done].
  by destruct s as [[[]] ?].
Qed.

(** X7.  [PromiseState<T>::Cancel] on a state that holds no coroutine
    handle, as far as the state's own fields go.  From [init] or a pre
    status the status becomes [cancelled] and [callback_] and [storage_]
    are empty, the other fields as they were; from [fulfilled],
    [rejected] or [cancelled] nothing changes.  A second [Cancel] changes
    nothing, and [Cancel] neither invokes a functor nor posts to an
    executor. *)
Theorem Cancel_releases_state (w : World) (p : Addr) (s : PromiseStateT) :
  getT w p = Some s -> co_handle_ s = None ->
  (is_cancellable (status_ (machine s)) = true ->
   exists s', getT (Cancel p w) p = Some s' /\
     status_ (machine s') = kCancelled /\ callback_ s' = None /\ storage_ s' = None /\
     executor_ s' = executor_ s /\ previous_ s' = previous_ s /\ next_ s' = next_ s /\
     co_handle_ s' = None) /\
  (is_cancellable (status_ (machine s)) = false -> Cancel p w = w) /\
  Cancel p (Cancel p w) = Cancel p w /\
  invoked (Cancel p w) = invoked w /\ queues (Cancel p w) = queues w.
Proof.
  intros Hs Hh. pose proof (Cancel_unfold w p s Hs) as HC. rewrite Hh in HC.
  destruct (is_cancellable (status_ (machine s))) eqn:Hc.
  - rewrite HC.
    split.
    { intros _. eexists. split; [apply getT_putT|]. by destruct s. }
    split; [done|]. split; [|done].
    unfold Cancel. rewrite getT_putT. done.
  - rewrite HC. split; [done|]. split; [done|]. by rewrite HC.
Qed.

Lemma Cancel_releases_state_witness :
  let s := with_storage (Some (ROk (VInt 5)))
             (with_machine (mkMachine kPreFulfilled)
                (with_executor (Some (QueueExecutor 0%nat))
                   (with_callback (Some (CbVoid 0%nat (FnUser 7%nat))) StateT_new))) in
  let w := Post 0%nat (Trampoline 0%nat)
             (putT 1%nat StateT_new (putT 0%nat s (set_next_addr 2%nat World_empty))) in
  let p := 0%nat in
  (getT w p = Some s /\ co_handle_ s = None /\
   is_cancellable (status_ (machine s)) = true /\
   callback_ s <> None /\ storage_ s <> None) /\
  (is_cancellable (status_ (machine s)) = true ->
   exists s', getT (Cancel p w) p = Some s' /\
     status_ (machine s') = kCancelled /\ callback_ s' = None /\ storage_ s' = None /\
     executor_ s' = executor_ s /\ previous_ s' = previous_ s /\ next_ s' = next_ s /\
     co_handle_ s' = None) /\
  (is_cancellable (status_ (machine s)) = false -> Cancel p w = w) /\
  Cancel p (Cancel p w) = Cancel p w /\
  invoked (Cancel p w) = invoked w /\ queues (Cancel p w) = queues w.
Proof.
  split; [by vm_compute|].
  apply (Cancel_releases_state
           (Post 0%nat (Trampoline 0%nat)
              (putT 1%nat StateT_new
                 (putT 0%nat
                    (with_storage (Some (ROk (VInt 5)))
                       (with_machine (mkMachine kPreFulfilled)
                          (with_executor (Some (QueueExecutor 0%nat))
                             (with_callback (Some (CbVoid 0%nat (FnUser 7%nat)))
                                StateT_new))))
                    (set_next_addr 2%nat World_empty))))
           0%nat
           (with_storage (Some (ROk (VInt 5)))
              (with_machine (mkMachine kPreFulfilled)
                 (with_executor (Some (QueueExecutor 0%nat))
                    (with_callback (Some (CbVoid 0%nat (FnUser 7%nat))) StateT_new))))).
  - vm_compute. reflexivity.
  - reflexivity.
Defined.

Lemma run_thunk_legal fuel t w w' : run_thunk fuel t w = Done w' -> moves_legally w w'.
Proof.
  destruct (Resolve_Reject_legal fuel) as [Hr Hj].
  apply (run_thunk_with_legal _ _ _ Hr Hj (PropagateResultVoid_legal fuel)).
Qed.

Lemma legal_from_done a b :
  is_done a = true -> legal_path a b = true -> b = a.
Proof. by destruct a, b. Qed.

(** X8.  The trampoline of a state does its work once: when it has run,
    running it again (with whatever the continuation did in between)
    changes nothing and calls nothing. *)
Theorem trampoline_runs_once (fuel fuel' : nat) (p : Addr) (w w' : World) :
  run_thunk fuel (Trampoline p) w = Done w' ->
  run_thunk fuel' (Trampoline p) w' = Done w'.
Proof.
  intros H. pose proof H as H0. unfold run_thunk, run_thunk_with in H.
  destruct (getT w p) as [s|] eqn:Hs.
  2:{ simplify_eq. unfold run_thunk, run_thunk_with. by rewrite Hs. }
  assert (Hstay : forall m, is_done (status_ m) = true ->
            moves_legally (putT p (with_machine m s) w) w' ->
            run_thunk fuel' (Trampoline p) w' = Done w').
  { intros m Hm Hl. destruct (Hl p (with_machine m s) (getT_putT _ _ _)) as (s' & Hs' & Hp).
    cbn [machine with_machine] in Hp. apply legal_from_done in Hp; [|done].
    unfold run_thunk, run_thunk_with. rewrite Hs', Hp. by destruct (status_ m). }
  assert (Hsame : w' = w -> is_pre (status_ (machine s)) = false ->
            run_thunk fuel' (Trampoline p) w' = Done w').
  { intros -> Hn. unfold run_thunk, run_thunk_with. rewrite Hs.
    by destruct (status_ (machine s)). }
  destruct (Resolve_Reject_legal fuel) as [Hr Hj].
  destruct (status_ (machine s)) eqn:Hst; try (apply Hsame; [congruence|done]).
  - apply (InvokeCallback_with_legal _ _ _ Hr Hj (PropagateResultVoid_legal fuel)) in H.
    apply (Hstay (snd (ToFulfilled (machine s)))); [|done].
    unfold ToFulfilled, To. rewrite Hst. by rewrite decide_True.
  - apply (InvokeCallback_with_legal _ _ _ Hr Hj (PropagateResultVoid_legal fuel)) in H.
    apply (Hstay (snd (ToRejected (machine s)))); [|done].
    unfold ToRejected, To. rewrite Hst. by rewrite decide_True.
Qed.

Lemma trampoline_runs_once_witness :
  run_thunk 1 (Trampoline 0%nat)
    (putT 0%nat (with_callback (Some (CbVoid 0%nat (FnUser 7%nat)))
                   (with_storage (Some (ROk (VInt 5)))
                      (with_machine (mkMachine kPreFulfilled) StateT_new)))
       (snd (Promise_new World_empty)))
  = Done (log_invoked 7%nat (ROk (VInt 5))
            (putT 0%nat (with_storage (Some (ROk (VInt 5)))
                           (with_machine (mkMachine kFulfilled) StateT_new))
               (snd (Promise_new World_empty)))) /\
  run_thunk 1 (Trampoline 0%nat)
    (log_invoked 7%nat (ROk (VInt 5))
       (putT 0%nat (with_storage (Some (ROk (VInt 5)))
                      (with_machine (mkMachine kFulfilled) StateT_new))
          (snd (Promise_new World_empty))))
  = Done (log_invoked 7%nat (ROk (VInt 5))
            (putT 0%nat (with_storage (Some (ROk (VInt 5)))
                           (with_machine (mkMachine kFulfilled) StateT_new))
               (snd (Promise_new World_empty)))).
Proof.
  assert (H : run_thunk 1 (Trampoline 0%nat)
    (putT 0%nat (with_callback (Some (CbVoid 0%nat (FnUser 7%nat)))
                   (with_storage (Some (ROk (VInt 5)))
                      (with_machine (mkMachine kPreFulfilled) StateT_new)))
       (snd (Promise_new World_empty)))
  = Done (log_invoked 7%nat (ROk (VInt 5))
            (putT 0%nat (with_storage (Some (ROk (VInt 5)))
                           (with_machine (mkMachine kFulfilled) StateT_new))
               (snd (Promise_new World_empty))))).
  { vm_compute. reflexivity. }
  split; [exact H|].
  exact (trampoline_runs_once 1 1 0%nat _ _ H).
Defined.

Lemma Resolve_posts fuel w p s q cb v :
  getT w p = Some s -> status_ (machine s) = kInit ->
  callback_ s = Some cb -> executor_ s = Some (QueueExecutor q) ->
  Resolve (S fuel) p v w =
    Done (true, Post q (Trampoline p)
                  (putT p (with_machine (mkMachine kPreFulfilled)
                             (with_storage (Some (ROk v)) s)) w)).
Proof.
  intros Hs Hi Hc He. cbn [Resolve]. rewrite Hs. unfold IsEmpty.
  rewrite bool_decide_true by done.
  unfold TryInvokeCallback_with. rewrite getT_putT.
  cbn [callback_ with_machine with_storage machine]. rewrite Hc.
  rewrite bool_decide_true by done.
  unfold ToPreFulfilled, To. rewrite decide_True by done. cbn [snd].
  replace (IsPending (mkMachine kPreFulfilled)) with true by done. cbn [andb].
  unfold RunInExecutor_with. rewrite getT_putT.
  cbn [executor_ with_machine with_storage]. rewrite He. done.
Qed.

Lemma Reject_posts fuel w p s q cb e :
  getT w p = Some s -> status_ (machine s) = kInit ->
  callback_ s = Some cb -> executor_ s = Some (QueueExecutor q) ->
  Reject (S fuel) p e w =
    Done (true, Post q (Trampoline p)
                  (putT p (with_machine (mkMachine kPreRejected)
                             (with_storage (Some (RErr e)) s)) w)).
Proof.
  intros Hs Hi Hc He. cbn [Reject]. rewrite Hs. unfold IsEmpty.
  rewrite bool_decide_true by done.
  unfold TryInvokeCallback_with. rewrite getT_putT.
  cbn [callback_ with_machine with_storage machine]. rewrite Hc.
  rewrite bool_decide_true by done.
  unfold ToPreRejected, To. rewrite decide_True by done. cbn [snd].
  replace (IsPending (mkMachine kPreRejected)) with true by done. cbn [andb].
  unfold RunInExecutor_with. rewrite getT_putT.
  cbn [executor_ with_machine with_storage]. rewrite He. done.
Qed.

(** X9.  Cancelling between settlement and the executor's turn: the state
    was resolved (or rejected) with a continuation attached on a queueing
    executor, so its trampoline is in the queue, and is then cancelled.
    When the executor runs the trampoline nothing happens: the
    continuation is not called, and the state stays [cancelled] with
    callback and result released. *)
Theorem Cancel_drops_posted_continuation (fuel fuel' : nat) (w : World) (p : Addr)
    (s : PromiseStateT) (q : nat) (cb : Callback) :
  getT w p = Some s -> status_ (machine s) = kInit ->
  callback_ s = Some cb -> executor_ s = Some (QueueExecutor q) ->
  (forall v, exists w1,
     Resolve (S fuel) p v w = Done (true, w1) /\
     In (Trampoline p) (default [] (queues w1 !! q)) /\
     let w2 := Cancel p w1 in
     run_thunk fuel' (Trampoline p) w2 = Done w2 /\
     status w2 p = Some kCancelled /\
     (exists s2, getT w2 p = Some s2 /\ callback_ s2 = None /\ storage_ s2 = None) /\
     invoked w2 = invoked w /\ notified w2 = notified w /\ resumed w2 = resumed w) /\
  (forall e, exists w1,
     Reject (S fuel) p e w = Done (true, w1) /\
     In (Trampoline p) (default [] (queues w1 !! q)) /\
     let w2 := Cancel p w1 in
     run_thunk fuel' (Trampoline p) w2 = Done w2 /\
     status w2 p = Some kCancelled /\
     (exists s2, getT w2 p = Some s2 /\ callback_ s2 = None /\ storage_ s2 = None) /\
     invoked w2 = invoked w /\ notified w2 = notified w /\ resumed w2 = resumed w).
Proof.
  intros Hs Hi Hc He.
  assert (Hgen : forall st r,
    is_pre st = true ->
    let w1 := Post q (Trampoline p)
                (putT p (with_machine (mkMachine st) (with_storage (Some r) s)) w) in
    In (Trampoline p) (default [] (queues w1 !! q)) /\
    let w2 := Cancel p w1 in
    run_thunk fuel' (Trampoline p) w2 = Done w2 /\
    status w2 p = Some kCancelled /\
    (exists s2, getT w2 p = Some s2 /\ callback_ s2 = None /\ storage_ s2 = None) /\
    invoked w2 = invoked w /\ notified w2 = notified w /\ resumed w2 = resumed w).
  { intros st r Hst w1.
    assert (Hg1 : getT w1 p =
              Some (with_machine (mkMachine st) (with_storage (Some r) s))).
    { unfold w1, Post. apply getT_putT. }
    split.
    { unfold w1, Post. cbn [queues set_queues]. rewrite lookup_insert_eq. simpl.
      apply in_or_app. right. by left. }
    pose proof (Cancel_unfold w1 p _ Hg1) as HC.
    cbn [machine with_machine status_] in HC.
    replace (is_cancellable st) with true in HC by (by destruct st).
    intros w2. fold w2 in HC.
    assert (Hg2 : getT w2 p =
              Some (with_machine (mkMachine kCancelled)
                      (with_storage None (with_callback None
                         (with_machine (mkMachine st) (with_storage (Some r) s))))))
      by (rewrite HC; apply getT_putT).
    split.
    { unfold run_thunk, run_thunk_with. by rewrite Hg2. }
    split; [by rewrite (status_getT _ _ _ Hg2)|].
    split; [eexists; split; [exact Hg2|done]|].
    rewrite HC. by destruct (co_handle_ _). }
  split.
  - intros v. eexists. split; [by apply (Resolve_posts fuel w p s q cb)|]. by apply Hgen.
  - intros e. eexists. split; [by apply (Reject_posts fuel w p s q cb)|]. by apply Hgen.
Qed.

Lemma Cancel_drops_posted_continuation_witness :
  let p := 0%nat in
  let q := 0%nat in
  let s := with_executor (Some (QueueExecutor 0%nat))
             (with_callback (Some (CbVoid 0%nat (FnUser 7%nat))) StateT_new) in
  let w := putT p s (snd (Promise_new World_empty)) in
  (forall v, exists w1,
     Resolve 2 p v w = Done (true, w1) /\
     In (Trampoline p) (default [] (queues w1 !! q)) /\
     let w2 := Cancel p w1 in
     run_thunk 2 (Trampoline p) w2 = Done w2 /\
     status w2 p = Some kCancelled /\
     (exists s2, getT w2 p = Some s2 /\ callback_ s2 = None /\ storage_ s2 = None) /\
     invoked w2 = invoked w /\ notified w2 = notified w /\ resumed w2 = resumed w) /\
  (forall e, exists w1,
     Reject 2 p e w = Done (true, w1) /\
     In (Trampoline p) (default [] (queues w1 !! q)) /\
     let w2 := Cancel p w1 in
     run_thunk 2 (Trampoline p) w2 = Done w2 /\
     status w2 p = Some kCancelled /\
     (exists s2, getT w2 p = Some s2 /\ callback_ s2 = None /\ storage_ s2 = None) /\
     invoked w2 = invoked w /\ notified w2 = notified w /\ resumed w2 = resumed w).
Proof.
  apply (Cancel_drops_posted_continuation 1 2
           (putT 0%nat (with_executor (Some (QueueExecutor 0%nat))
                          (with_callback (Some (CbVoid 0%nat (FnUser 7%nat))) StateT_new))
              (snd (Promise_new World_empty)))
           0%nat
           (with_executor (Some (QueueExecutor 0%nat))
              (with_callback (Some (CbVoid 0%nat (FnUser 7%nat))) StateT_new))
           0%nat (CbVoid 0%nat (FnUser 7%nat))).
  - vm_compute. reflexivity.
  - reflexivity.
  - reflexivity.
  - reflexivity.
Defined.

Lemma getVoid_putVoid p s w : getVoid (putVoid p s w) p = Some s.
Proof. unfold getVoid, putVoid. simpl. by rewrite lookup_insert_eq. Qed.

(** X10.  [PromiseState<void>], last in its chain: [Resolve] and [Reject]
    succeed exactly from [init], and go straight to the terminal status,
    with no pre status and no executor in between.  [Reject] with an
    [Error] that holds no error stores an ok [Result<void>], so the state
    ends [fulfilled], not [rejected]. *)
Theorem void_state_settles_directly (fuel : nat) (w : World) (p : Addr)
    (s : PromiseStateVoid) :
  getVoid w p = Some s -> vnext_ s = None ->
  (status_ (vmachine s) = kInit ->
   (exists w', ResolveVoid (S fuel) p w = Done (true, w') /\
               status w' p = Some kFulfilled /\ queues w' = queues w) /\
   (forall e, exists w',
      RejectVoid (S fuel) p e w = Done (true, w') /\
      status w' p = Some (if Has e then kRejected else kFulfilled) /\
      queues w' = queues w)) /\
  (status_ (vmachine s) <> kInit ->
   ResolveVoid (S fuel) p w = Done (false, w) /\
   forall e, RejectVoid (S fuel) p e w = Done (false, w)).
Proof.
  intros Hs Hn. split.
  - intros Hi.
    assert (Hnd : IsDone (vmachine s) = false).
    { unfold IsDone, IsFulfilled, IsRejected. rewrite Hi. done. }
    split.
    + eexists. unfold ResolveVoid. rewrite Hs. unfold IsEmpty.
      rewrite bool_decide_true by done. cbn [PropagateResultVoid]. rewrite Hs, Hnd, Hn.
      cbn [bind]. split; [done|]. split; [|done].
      unfold status. rewrite (getVoid_heap _ _ _ (getVoid_putVoid _ _ _)). done.
    + intros e. eexists. unfold RejectVoid. rewrite Hs. unfold IsEmpty.
      rewrite bool_decide_true by done. cbn [PropagateResultVoid]. rewrite Hs, Hnd, Hn.
      cbn [bind]. split; [done|]. split; [|done].
      unfold status. rewrite (getVoid_heap _ _ _ (getVoid_putVoid _ _ _)).
      cbn [vmachine]. unfold ResultVoid_IsOk, to_bool. cbn [v_].
      by destruct (Has e).
  - intros Hi. unfold ResolveVoid, RejectVoid. rewrite Hs. unfold IsEmpty.
    rewrite bool_decide_false by done. done.
Qed.

Lemma void_state_settles_directly_witness :
  (status_ (vmachine StateVoid_new) = kInit ->
   (exists w', ResolveVoid 1 0%nat (snd (PromiseVoid_new World_empty)) = Done (true, w') /\
               status w' 0%nat = Some kFulfilled /\
               queues w' = queues (snd (PromiseVoid_new World_empty))) /\
   (forall e, exists w',
      RejectVoid 1 0%nat e (snd (PromiseVoid_new World_empty)) = Done (true, w') /\
      status w' 0%nat = Some (if Has e then kRejected else kFulfilled) /\
      queues w' = queues (snd (PromiseVoid_new World_empty)))) /\
  (status_ (vmachine StateVoid_new) <> kInit ->
   ResolveVoid 1 0%nat (snd (PromiseVoid_new World_empty)) =
     Done (false, snd (PromiseVoid_new World_empty)) /\
   forall e, RejectVoid 1 0%nat e (snd (PromiseVoid_new World_empty)) =
               Done (false, snd (PromiseVoid_new World_empty))).
Proof.
  apply (void_state_settles_directly 0 (snd (PromiseVoid_new World_empty)) 0%nat
           StateVoid_new).
  - vm_compute. reflexivity.
  - reflexivity.
Defined.

Ltac heap_simpl :=
  repeat (progress (rewrite ?heap_putT;
    cbn [heap set_heap set_next_addr set_queues next_addr queues invoked
         notified resumed destroyed fst snd];
    rewrite ?lookup_insert_eq; rewrite ?lookup_insert_ne by done)).

Lemma getT_Post q t w p : getT (Post q t w) p = getT w p.
Proof. reflexivity. Qed.

Lemma status_putT_ne p q s w : p <> q -> status (putT p s w) q = status w q.
Proof. intros. unfold status. rewrite heap_putT. by rewrite lookup_insert_ne. Qed.

(** [Then] with a functor returning a [Result], on a state that is [init]:
    the new state is linked behind the old one, and the continuation is
    stored with its executor. *)
Lemma Then_result_init fuel w p s f ex :
  getT w p = Some s -> status_ (machine s) = kInit -> heap w !! next_addr w = None ->
  exists w1,
    Then_result fuel (mkPromise p) f ex w = Done (mkPromise (next_addr w), w1) /\
    getT w1 p = Some (with_executor ex (with_callback (Some (CbResult p f))
                                          (with_next (Some (next_addr w)) s))) /\
    getT w1 (next_addr w) = Some (with_previous (Some p) StateT_new) /\
    queues w1 = queues w /\ invoked w1 = invoked w.
Proof.
  intros Hs Hi Hfresh.
  assert (Hne : p <> next_addr w).
  { intros ->. apply getT_heap in Hs. congruence. }
  unfold Then_result, Promise_new, alloc, Attach_result, Watch. cbn [fst snd state_].
  unfold set_next, AddCallback. heap_simpl.
  rewrite (getT_heap _ _ _ Hs). heap_simpl.
  rewrite getT_putT. unfold TryInvokeCallback, TryInvokeCallback_with. rewrite getT_putT.
  cbn [callback_ machine with_executor with_callback with_next].
  replace (IsPending (machine s)) with false
    by (symmetry; destruct s as [[[]] ?]; simpl in Hi; done).
  rewrite andb_false_r. cbn [bind].
  eexists. split; [done|]. split; [apply getT_putT|].
  split; [|done].
  rewrite !getT_putT_ne by done. apply getT_putT.
Qed.

(** X11.  One link of a chain.  [p.Then(f, executor)] on a promise that is
    [init], with a functor [f] that returns a [Result], gives a new
    promise that is [init].  [Resolve(v)] on [p] leaves it [init]; when
    the executor runs the trampoline, [p] becomes [fulfilled] and the new
    promise is resolved with the value, or rejected with the error, that
    [f] returned for [v]. *)
Theorem Then_hands_result_to_next (fuel fuel' : nat) (w : World) (p : Addr)
    (s : PromiseStateT) (q : nat) (f : Result -> Result) (v : Value) :
  getT w p = Some s -> status_ (machine s) = kInit ->
  heap w !! next_addr w = None -> f (ROk v) <> RNull ->
  exists w1 w2 w3 s2,
    Then_result fuel (mkPromise p) f (Some (QueueExecutor q)) w
      = Done (mkPromise (next_addr w), w1) /\
    status w1 (next_addr w) = Some kInit /\
    Resolve (S fuel) p v w1 = Done (true, w2) /\
    status w2 p = Some kPreFulfilled /\ status w2 (next_addr w) = Some kInit /\
    run_thunk (S fuel') (Trampoline p) w2 = Done w3 /\
    status w3 p = Some kFulfilled /\
    getT w3 (next_addr w) = Some s2 /\
    storage_ s2 = Some (f (ROk v)) /\
    status_ (machine s2) =
      (if Result_IsOk (f (ROk v)) then kPreFulfilled else kPreRejected).
Proof.
  intros Hs Hi Hfresh Hnn.
  assert (Hne : p <> next_addr w).
  { intros ->. apply getT_heap in Hs. congruence. }
  destruct (Then_result_init fuel w p s f (Some (QueueExecutor q)) Hs Hi Hfresh)
    as (w1 & HT & Hp1 & Hn1 & _).
  set (p2 := next_addr w) in *.
  set (sa := with_executor _ _) in Hp1.
  pose proof (Resolve_posts fuel w1 p sa q (CbResult p f) v Hp1 Hi eq_refl eq_refl) as HR.
  set (sb := with_machine (mkMachine kPreFulfilled) (with_storage (Some (ROk v)) sa)) in HR.
  set (w2 := Post q (Trampoline p) (putT p sb w1)) in HR.
  assert (Hp2 : getT w2 p = Some sb) by apply getT_putT.
  assert (Hn2 : getT w2 p2 = Some (with_previous (Some p) StateT_new)).
  { unfold w2. rewrite getT_Post. by rewrite getT_putT_ne. }
  set (sc := with_callback None (with_machine (mkMachine kFulfilled) sb)).
  set (w3 := putT p sc (putT p (with_machine (mkMachine kFulfilled) sb) w2)).
  assert (Hn3 : getT w3 p2 = Some (with_previous (Some p) StateT_new)).
  { unfold w3. by rewrite !getT_putT_ne. }
  assert (Hrun : run_thunk (S fuel') (Trampoline p) w2 =
                 PropagateResult (S fuel') p2 (f (ROk v)) w3).
  { unfold run_thunk, run_thunk_with. rewrite Hp2. cbn [machine sb with_machine status_].
    unfold ToFulfilled, To. rewrite decide_True by done. cbn [snd].
    unfold InvokeCallback_with. rewrite getT_putT.
    cbn [storage_ callback_ with_machine with_storage sb sa with_executor with_callback].
    unfold run_callback. fold sb. fold sc. fold w3.
    rewrite (getT_heap w3 p sc) by apply getT_putT.
    unfold next. rewrite (getT_heap w3 p sc) by apply getT_putT.
    done. }
  destruct (f (ROk v)) as [|v'|e'] eqn:Hf; [done| |].
  - exists w1, w2. eexists. eexists.
    split; [done|]. split; [by rewrite (status_getT _ _ _ Hn1)|].
    split; [done|]. split; [by rewrite (status_getT _ _ _ Hp2)|].
    split; [by rewrite (status_getT _ _ _ Hn2)|].
    split.
    { rewrite Hrun. unfold PropagateResult, PropagateResult_with. cbn [Result_IsOk PassResult bind].
      rewrite (Resolve_fresh fuel' p2 v' w3 _ Hn3) by done. cbn [bind snd]. done. }
    split.
    { rewrite status_putT_ne by done.
      rewrite (status_getT w3 p sc) by apply getT_putT. done. }
    split; [apply getT_putT|]. split; done.
  - exists w1, w2. eexists. eexists.
    split; [done|]. split; [by rewrite (status_getT _ _ _ Hn1)|].
    split; [done|]. split; [by rewrite (status_getT _ _ _ Hp2)|].
    split; [by rewrite (status_getT _ _ _ Hn2)|].
    split.
    { rewrite Hrun. unfold PropagateResult, PropagateResult_with. cbn [Result_IsOk PassError bind].
      rewrite (Reject_fresh fuel' p2 e' w3 _ Hn3) by done. cbn [bind snd]. done. }
    split.
    { rewrite status_putT_ne by done.
      rewrite (status_getT w3 p sc) by apply getT_putT. done. }
    split; [apply getT_putT|]. split; done.
Qed.

Lemma Then_hands_result_to_next_witness :
  let w := snd (Promise_new World_empty) in
  let f := fun r : Result => r in
  exists w1 w2 w3 s2,
    Then_result 1 (mkPromise 0%nat) f (Some (QueueExecutor 0%nat)) w
      = Done (mkPromise (next_addr w), w1) /\
    status w1 (next_addr w) = Some kInit /\
    Resolve 2 0%nat (VInt 5) w1 = Done (true, w2) /\
    status w2 0%nat = Some kPreFulfilled /\ status w2 (next_addr w) = Some kInit /\
    run_thunk 2 (Trampoline 0%nat) w2 = Done w3 /\
    status w3 0%nat = Some kFulfilled /\
    getT w3 (next_addr w) = Some s2 /\
    storage_ s2 = Some (f (ROk (VInt 5))) /\
    status_ (machine s2) =
      (if Result_IsOk (f (ROk (VInt 5))) then kPreFulfilled else kPreRejected).
Proof.
  apply (Then_hands_result_to_next 1 1 (snd (Promise_new World_empty)) 0%nat StateT_new
           0%nat (fun r : Result => r) (VInt 5)).
  - vm_compute. reflexivity.
  - reflexivity.
  - vm_compute. reflexivity.
  - discriminate.
Defined.

(** X12.  A coroutine awaiting a promise that is [init] and has no state
    chained behind it: [co_await] suspends it without resuming or posting
    anything.  [Resolve(v)] on the promise posts the trampoline to the
    loop's executor, still without resuming; when the executor runs the
    trampoline the awaiter's result is set to [v] and the coroutine is
    resumed, once; and [await_resume] then returns [v]. *)
Theorem co_await_resumes_through_executor (fuel fuel' fuel'' : nat) (w : World)
    (p : Promise) (s : PromiseStateT) (a h q : nat) (v : Value) :
  getT w (state_ p) = Some s -> status_ (machine s) = kInit -> next_ s = None ->
  exists w1 w2 w3,
    co_await fuel a p h (QueueExecutor q) w = Done (Suspended, w1) /\
    resumed w1 = resumed w /\ queues w1 = queues w /\
    Resolve (S fuel) (state_ p) v w1 = Done (true, w2) /\
    resumed w2 = resumed w /\
    queues w2 !! q = Some (default [] (queues w !! q) ++ [Trampoline (state_ p)]) /\
    run_thunk fuel' (Trampoline (state_ p)) w2 = Done w3 /\
    resumed w3 = resumed w ++ [h] /\
    status w3 (state_ p) = Some kFulfilled /\
    await_resume fuel'' a p w3 = Done (ROk v, w3).
Proof.
  intros Hs Hi Hn. destruct p as [p]. cbn [state_] in *.
  set (cb := CbVoid p (FnAwaitSuspend a h)).
  set (sa := with_executor (Some (QueueExecutor q)) (with_callback (Some cb) s)).
  set (w1 := putT p sa w).
  assert (Hp1 : getT w1 p = Some sa) by apply getT_putT.
  assert (Hnp : IsPending (machine s) = false).
  { destruct s as [[[]] ?]; simpl in Hi; done. }
  assert (H1 : co_await fuel a (mkPromise p) h (QueueExecutor q) w = Done (Suspended, w1)).
  { unfold co_await, await_ready. cbn [state_]. rewrite Hs, Hnp.
    unfold await_suspend, Then_void, Attach_void, AddCallback. cbn [state_]. rewrite Hs.
    unfold TryInvokeCallback, TryInvokeCallback_with. fold cb. fold sa. fold w1.
    rewrite Hp1. cbn [machine sa with_executor with_callback]. rewrite Hnp.
    by rewrite andb_false_r. }
  pose proof (Resolve_posts fuel w1 p sa q cb v Hp1 Hi eq_refl eq_refl) as HR.
  set (sb := with_machine (mkMachine kPreFulfilled) (with_storage (Some (ROk v)) sa)) in HR.
  set (w2 := Post q (Trampoline p) (putT p sb w1)) in HR.
  assert (Hp2 : getT w2 p = Some sb) by apply getT_putT.
  set (sc := with_callback None (with_machine (mkMachine kFulfilled) sb)).
  set (w3 := log_resumed h
               (set_awaiter_res (<[a := ROk v]> (awaiter_res w2))
                  (putT p sc (putT p (with_machine (mkMachine kFulfilled) sb) w2)))).
  assert (Hp3 : getT w3 p = Some sc) by apply getT_putT.
  exists w1, w2, w3.
  split; [done|]. split; [done|]. split; [done|]. split; [done|]. split; [done|].
  split.
  { unfold w2, Post. cbn [queues set_queues]. by rewrite lookup_insert_eq. }
  split.
  { unfold run_thunk, run_thunk_with. rewrite Hp2. cbn [machine sb with_machine status_].
    unfold ToFulfilled, To. rewrite decide_True by done. cbn [snd].
    unfold InvokeCallback_with. rewrite getT_putT.
    cbn [storage_ callback_ with_machine with_storage sb sa with_executor with_callback].
    unfold run_callback, cb. fold cb. fold sa. fold sb. fold sc.
    rewrite heap_putT, lookup_insert_eq, next_putT.
    replace (next_ sc) with (next_ s) by (by destruct s). rewrite Hn. done. }
  split; [done|].
  split; [by rewrite (status_getT _ _ _ Hp3)|].
  unfold await_resume, await_ready. cbn [state_]. rewrite Hp3. cbn [bind].
  replace (IsPending (machine sc)) with false by done. cbn [bind].
  unfold w3 at 1. cbn [awaiter_res log_resumed set_awaiter_res].
  by rewrite lookup_insert_eq.
Qed.

Lemma co_await_resumes_through_executor_witness :
  let w := Post 0%nat (Trampoline 0%nat)
             (snd (Promise_new (snd (Promise_new World_empty)))) in
  let p := mkPromise 1%nat in
  exists w1 w2 w3,
    co_await 1 3%nat p 9%nat (QueueExecutor 0%nat) w = Done (Suspended, w1) /\
    resumed w1 = resumed w /\ queues w1 = queues w /\
    Resolve 2 (state_ p) (VInt 5) w1 = Done (true, w2) /\
    resumed w2 = resumed w /\
    queues w2 !! 0%nat =
      Some (default [] (queues w !! 0%nat) ++ [Trampoline (state_ p)]) /\
    run_thunk 1 (Trampoline (state_ p)) w2 = Done w3 /\
    resumed w3 = resumed w ++ [9%nat] /\
    status w3 (state_ p) = Some kFulfilled /\
    await_resume 1 3%nat p w3 = Done (ROk (VInt 5), w3).
Proof.
  apply (co_await_resumes_through_executor 1 1 1
           (Post 0%nat (Trampoline 0%nat)
              (snd (Promise_new (snd (Promise_new World_empty)))))
           (mkPromise 1%nat) StateT_new 3%nat 9%nat 0%nat (VInt 5)).
  - vm_compute. reflexivity.
  - reflexivity.
  - reflexivity.
Defined.

Lemma chain_ext w w' c l :
  (forall a, a ∈ l -> heap w' !! a = heap w !! a) -> chain w c l -> chain w' c l.
Proof.
  revert c. induction l as [|a l IH]; intros c Hh; [done|]. simpl.
  intros (-> & Ha & Hc). split; [done|].
  assert (Hsame : heap w' !! a = heap w !! a) by (apply Hh; left).
  split; [by rewrite Hsame|].
  replace (next w' a) with (next w a) by (unfold next; by rewrite Hsame).
  apply IH; [|done]. intros b Hb. apply Hh. by right.
Qed.

Lemma ToCancelled_status m : status_ (snd (ToCancelled m)) = after_cancel (status_ m).
Proof. by destruct m as [[]]. Qed.

Lemma Base_ToCancelled_spec p w st :
  status w p = Some st ->
  let w1 := snd (Base_ToCancelled p w) in
  status w1 p = Some (after_cancel st) /\
  next w1 p = next w p /\
  (forall a, a <> p -> heap w1 !! a = heap w !! a) /\
  (forall s, getT w p = Some s ->
     exists s', getT w1 p = Some s' /\
                callback_ s' = callback_ s /\ storage_ s' = storage_ s) /\
  queues w1 = queues w /\ invoked w1 = invoked w /\ destroyed w1 = destroyed w.
Proof.
  unfold status, Base_ToCancelled, next, getT.
  destruct (heap w !! p) as [[s|s]|] eqn:Hp; [| |done]; intros Hst; simplify_eq; cbn [snd].
  - rewrite heap_putT, !lookup_insert_eq. cbn [machine with_machine next_].
    split; [by rewrite ToCancelled_status|]. split; [done|].
    split; [intros a Ha; by rewrite lookup_insert_ne|].
    split; [|done]. intros s0 [= <-]. eexists. split; [done|]. done.
  - unfold putVoid. cbn [heap set_heap]. rewrite !lookup_insert_eq. cbn [vmachine vnext_].
    split; [by rewrite ToCancelled_status|]. split; [done|].
    split; [intros a Ha; by rewrite lookup_insert_ne|].
    split; [|done]. intros s0 [=].
Qed.

(** X13.  [PromiseStateBase::Cancel], the walk the derived [Cancel]
    hides.  On a chain of states linked by [next()], each state that is
    [init] or pre-settled becomes [cancelled], the others keep their
    status, and states off the chain are not touched.  The walk changes
    statuses only: [OnCancel] is empty, so every callback and stored
    result stays where it was and no coroutine handle is destroyed. *)
Theorem Base_Cancel_walks_chain (fuel : nat) (l : list Addr) :
  forall (w : World) (c : option Addr),
    chain w c l -> NoDup l -> (length l <= fuel)%nat ->
    exists w',
      Base_Cancel fuel c w = Done w' /\
      (forall a st, a ∈ l -> status w a = Some st ->
         status w' a = Some (after_cancel st)) /\
      (forall a, a ∉ l -> heap w' !! a = heap w !! a) /\
      (forall a s, getT w a = Some s ->
         exists s', getT w' a = Some s' /\
                    callback_ s' = callback_ s /\ storage_ s' = storage_ s) /\
      queues w' = queues w /\ invoked w' = invoked w /\ destroyed w' = destroyed w.
Proof.
  revert fuel. induction l as [|p l IH]; intros fuel w c Hc Hnd Hlen.
  - simpl in Hc. subst c. exists w. split; [by destruct fuel|].
    split; [intros a st Ha; inversion Ha|]. split; [done|].
    split; [intros a s Hs; by exists s|]. done.
  - destruct Hc as (-> & Hp & Hc). apply NoDup_cons in Hnd as [Hnin Hnd].
    destruct fuel as [|fuel]; [simpl in Hlen; lia|]. simpl in Hlen.
    cbn [Base_Cancel]. destruct (heap w !! p) as [o|] eqn:Ho; [|done].
    assert (Hst : exists st, status w p = Some st).
    { unfold status. rewrite Ho. destruct o; eauto. }
    destruct Hst as [st Hst].
    destruct (Base_ToCancelled_spec p w st Hst) as (Hs1 & Hn1 & Ho1 & Hk1 & Hq1 & Hi1 & Hd1).
    set (w1 := snd (Base_ToCancelled p w)) in *.
    destruct (IH fuel w1 (next w1 p)) as (w' & HR & Hl' & Ho' & Hk' & Hq' & Hi' & Hd');
      [|done|lia|].
    { rewrite Hn1. apply (chain_ext w); [|done]. intros a Ha. apply Ho1. set_solver. }
    exists w'. split; [done|]. split.
    { intros a st0 Ha Hst0. apply elem_of_cons in Ha as [->|Ha].
      - assert (st0 = st) by congruence. subst st0.
        unfold status. rewrite (Ho' p Hnin). exact Hs1.
      - apply Hl'; [done|]. unfold status. rewrite Ho1 by set_solver. exact Hst0. }
    split.
    { intros a Ha. rewrite not_elem_of_cons in Ha. destruct Ha as [Hap Ha].
      rewrite Ho' by done. by apply Ho1. }
    split.
    { intros a s Hs. destruct (decide (a = p)) as [->|Hap].
      - destruct (Hk1 s Hs) as (s1 & Hs1' & Hc1 & Hst1).
        destruct (Hk' p s1 Hs1') as (s' & Hs' & Hc' & Hst').
        exists s'. split; [done|]. split; congruence.
      - apply Hk'. unfold getT. rewrite Ho1 by done. exact Hs. }
    split; [congruence|]. split; congruence.
Qed.

Lemma Base_Cancel_walks_chain_witness :
  let w := putT 0%nat (with_next (Some 1%nat) StateT_new)
             (putT 1%nat (with_machine (mkMachine kFulfilled) StateT_new) World_empty) in
  exists w',
    Base_Cancel 2 (Some 0%nat) w = Done w' /\
    (forall a st, a ∈ [0%nat; 1%nat] -> status w a = Some st ->
       status w' a = Some (after_cancel st)) /\
    (forall a, a ∉ [0%nat; 1%nat] -> heap w' !! a = heap w !! a) /\
    (forall a s, getT w a = Some s ->
       exists s', getT w' a = Some s' /\
                  callback_ s' = callback_ s /\ storage_ s' = storage_ s) /\
    queues w' = queues w /\ invoked w' = invoked w /\ destroyed w' = destroyed w.
Proof.
  apply (Base_Cancel_walks_chain 2 [0%nat; 1%nat]
           (putT 0%nat (with_next (Some 1%nat) StateT_new)
              (putT 1%nat (with_machine (mkMachine kFulfilled) StateT_new) World_empty))
           (Some 0%nat)).
  - vm_compute. repeat split; discriminate.
  - apply NoDup_cons. split; [|apply NoDup_singleton].
    intros H. apply list_elem_of_singleton in H. discriminate H.
  - simpl. lia.
Defined.

(** What [Then] with the lambda of [MkAllPromise] and a null executor does
    on an input that is already resolved with [v]: the lambda runs in
    place, stores [v] at [idx], counts down, and resolves the target when
    the count reaches 0.  Only the input and the context are written. *)
Lemma Then_void_all_ready fuel w a s v c ctx target idx :
  getT w a = Some s -> status_ (machine s) = kPreFulfilled ->
  storage_ s = Some (ROk v) -> next_ s = None -> ctxs w !! c = Some ctx ->
  exists w1,
    (forall x, x <> a -> heap w1 !! x = heap w !! x) /\
    (exists s1, getT w1 a = Some s1 /\ status_ (machine s1) = kFulfilled) /\
    ctxs w1 = <[c := mkCtx (Wheel.wrap (counter ctx - 1)) (<[idx := v]> (results ctx))
                           (errors ctx)]> (ctxs w) /\
    queues w1 = queues w /\ invoked w1 = invoked w /\
    Then_void fuel (mkPromise a) (FnAll c target idx) None w =
      if Wheel.wrap (counter ctx - 1) =? 0
      then p <- Resolve fuel target (VVec (<[idx := v]> (results ctx))) w1 ;; Done (snd p)
      else Done w1.
Proof.
  intros Hs Hst Hsto Hnx Hc.
  set (cb := CbVoid a (FnAll c target idx)).
  set (sa := with_executor None (with_callback (Some cb) s)).
  set (sb := with_machine (mkMachine kFulfilled) sa).
  set (sc := with_callback None sb).
  set (sd := with_storage (Some RNull) sc).
  set (w0 := putT a sd (putT a sc (putT a sb (putT a sa w)))).
  set (c' := mkCtx (Wheel.wrap (counter ctx - 1)) (<[idx := v]> (results ctx)) (errors ctx)).
  exists (set_ctxs (<[c := c']> (ctxs w0)) (next_ctx w0) w0).
  split.
  { intros x Hx. cbn [heap set_ctxs]. unfold w0. rewrite !heap_putT.
    by rewrite !lookup_insert_ne. }
  split.
  { exists sd. split; [|done]. change (getT w0 a = Some sd). apply getT_putT. }
  split; [done|]. split; [done|]. split; [done|].
  unfold Then_void, Attach_void, AddCallback. cbn [state_]. rewrite Hs.
  fold cb. fold sa.
  unfold TryInvokeCallback, TryInvokeCallback_with. rewrite getT_putT.
  cbn [callback_ machine sa with_executor with_callback]. rewrite bool_decide_true by done.
  rewrite (proj2 (IsPending_status _)) by (by left). cbn [andb].
  unfold RunInExecutor_with. rewrite getT_putT. cbn [executor_ sa with_executor].
  unfold run_thunk_with. rewrite getT_putT. cbn [machine sa with_executor with_callback].
  rewrite Hst. unfold ToFulfilled, To. rewrite Hst, decide_True by done. cbn [snd].
  unfold InvokeCallback_with. fold sa. fold sb. rewrite getT_putT.
  cbn [storage_ callback_ sb sa with_machine with_executor with_callback]. rewrite Hsto.
  fold sa. fold sb. fold sc.
  unfold run_callback, cb. rewrite heap_putT, lookup_insert_eq, next_putT.
  replace (next_ sc) with (next_ s) by (by destruct s). rewrite Hnx.
  unfold run_functor. cbn [Result_IsOk negb PassResult bind].
  unfold consume. rewrite getT_putT. fold sd. fold w0.
  replace (ctxs w0 !! c) with (Some ctx) by done.
  fold c'. cbn [counter c' results]. done.
Qed.

(** The loop of [MkAllPromise] over inputs that are all resolved already,
    with a null executor. *)
Lemma then_each_all_ready fuel c target st :
  forall (ins : list (Addr * Value)) (done_vs : list Value) (w : World),
    ins <> [] ->
    NoDup ins.*1 -> target ∉ ins.*1 ->
    Z.of_nat (length ins) < 2 ^ 64 ->
    (forall a v, (a, v) ∈ ins ->
       exists s, getT w a = Some s /\ status_ (machine s) = kPreFulfilled /\
                 storage_ s = Some (ROk v) /\ next_ s = None) ->
    getT w target = Some st -> status_ (machine st) = kInit -> callback_ st = None ->
    ctxs w !! c = Some (mkCtx (Z.of_nat (length ins))
                          (done_vs ++ replicate (length ins) Value_default) []) ->
    exists w',
      then_each (S fuel) (FnAll c target) None (length done_vs) ins.*1 w = Done w' /\
      getT w' target =
        Some (with_machine (mkMachine kPreFulfilled)
                (with_storage (Some (ROk (VVec (done_vs ++ ins.*2)))) st)) /\
      (forall a, a ∈ ins.*1 -> status w' a = Some kFulfilled) /\
      (forall x, x ∉ ins.*1 -> x <> target -> heap w' !! x = heap w !! x) /\
      queues w' = queues w /\ invoked w' = invoked w.
Proof.
  induction ins as [|[a v] ins IH]; intros done_vs w Hne Hnd Ht Hlen Hins Hst Hi Hcb Hc;
    [done|].
  rewrite fmap_cons in Hnd, Ht. cbn [fst] in Hnd, Ht.
  apply NoDup_cons in Hnd as [Ha Hnd]. rewrite not_elem_of_cons in Ht.
  destruct Ht as [Hta Ht]. cbn [length] in Hlen, Hc.
  destruct (Hins a v ltac:(left)) as (s & Hs & Hss & Hsto & Hnx).
  destruct (Then_void_all_ready (S fuel) w a s v c _ target (length done_vs) Hs Hss Hsto Hnx Hc)
    as (w1 & Hh1 & (s1 & Hs1 & Hs1f) & Hc1 & Hq1 & Hi1 & HT).
  cbn [counter results errors] in HT, Hc1.
  assert (Hins1 : <[length done_vs := v]>
                    (done_vs ++ replicate (S (length ins)) Value_default)
                  = (done_vs ++ [v]) ++ replicate (length ins) Value_default).
  { rewrite insert_app_r_alt by lia. rewrite Nat.sub_diag. simpl.
    by rewrite <- app_assoc. }
  rewrite Hins1 in HT, Hc1.
  assert (Hw : Wheel.wrap (Z.of_nat (S (length ins)) - 1) = Z.of_nat (length ins)).
  { unfold Wheel.wrap. rewrite Z.mod_small; lia. }
  rewrite Hw in HT, Hc1.
  assert (Hgt : forall x, x <> a -> getT w1 x = getT w x).
  { intros x Hx. unfold getT. by rewrite Hh1. }
  rewrite !fmap_cons. cbn [fst snd then_each]. rewrite HT.
  assert (Hst1 : getT w1 target = Some st) by (rewrite Hgt; done).
  destruct ins as [|[a2 v2] ins'].
  - (* the last input: the count reaches 0 and the target is resolved *)
    cbn [length Z.of_nat]. rewrite Z.eqb_refl. cbn [replicate]. rewrite app_nil_r.
    rewrite (Resolve_fresh fuel target _ w1 st Hst1 Hi Hcb).
    cbn [bind snd fmap list_fmap then_each].
    eexists. split; [done|]. split; [apply getT_putT|]. split.
    { intros x Hx. apply list_elem_of_singleton in Hx. subst x.
      rewrite status_putT_ne by done. by rewrite (status_getT _ _ _ Hs1), Hs1f. }
    split.
    { intros x Hx Hxt. rewrite heap_putT, lookup_insert_ne by done. apply Hh1.
      intros ->. apply Hx. left. }
    done.
  - (* more inputs follow *)
    replace (Z.of_nat (length ((a2, v2) :: ins')) =? 0) with false
      by (symmetry; apply Z.eqb_neq; simpl; lia).
    cbn [bind].
    destruct (IH (done_vs ++ [v]) w1) as (w' & HR & Hgt' & Hful & Hoth & Hq' & Hi');
      try done.
    { lia. }
    { intros x vx Hx. destruct (Hins x vx ltac:(by right)) as (sx & Hsx & Hx1 & Hx2).
      exists sx. split; [|done]. rewrite Hgt; [done|].
      intros ->. apply Ha. apply list_elem_of_fmap. by exists (a, vx). }
    { rewrite Hc1. by rewrite lookup_insert_eq. }
    rewrite length_app in HR. cbn [length] in HR. rewrite Nat.add_1_r in HR.
    exists w'. split; [done|]. split.
    { rewrite Hgt'. by rewrite <- app_assoc. }
    split.
    { intros x Hx. apply elem_of_cons in Hx as [->|Hx]; [|by apply Hful].
      unfold status. rewrite Hoth by done.
      fold (status w1 a). by rewrite (status_getT _ _ _ Hs1), Hs1f. }
    split.
    { intros x Hx Hxt. rewrite not_elem_of_cons in Hx. destruct Hx as [Hxa Hx].
      rewrite Hoth by done. by apply Hh1. }
    split; congruence.
Qed.

(** X16.  [MkAllPromise] with a null executor over promises that are all
    resolved already (and not yet consumed) and have no state chained
    behind them: the promise it returns is resolved, before
    [MkAllPromise] returns, with the vector of their values in the order
    of the range; every input ends [fulfilled], and nothing is posted to
    any executor. *)
Theorem MkAllPromise_of_resolved (fuel : nat) (w : World) (ins : list (Addr * Value)) :
  ins <> [] -> NoDup ins.*1 -> Z.of_nat (length ins) < 2 ^ 64 ->
  heap w !! next_addr w = None ->
  (forall a v, (a, v) ∈ ins ->
     exists s, getT w a = Some s /\ status_ (machine s) = kPreFulfilled /\
               storage_ s = Some (ROk v) /\ next_ s = None) ->
  exists p w' s,
    MkAllPromise (S fuel) ins.*1 None w = Done (p, w') /\
    state_ p = next_addr w /\
    getT w' (state_ p) = Some s /\ status_ (machine s) = kPreFulfilled /\
    storage_ s = Some (ROk (VVec ins.*2)) /\
    (forall a, a ∈ ins.*1 -> status w' a = Some kFulfilled) /\
    queues w' = queues w /\ invoked w' = invoked w.
Proof.
  intros Hne Hnd Hlen Hfresh Hins.
  set (target := next_addr w).
  set (w1 := snd (alloc (ObjT StateT_new) w)).
  set (c := next_ctx w1).
  set (w2 := snd (alloc_ctx (Ctx_all (length ins.*1)) w1)).
  assert (Htin : target ∉ ins.*1).
  { intros Hin. apply list_elem_of_fmap in Hin as ([a v] & Ha & Hin). simpl in Ha. subst a.
    destruct (Hins _ _ Hin) as (s & Hs & _). apply getT_heap in Hs.
    unfold target in Hs. congruence. }
  assert (Hg2 : forall x, x <> target -> getT w2 x = getT w x).
  { intros x Hx. unfold getT, w2, alloc_ctx, w1, alloc. cbn [snd heap set_ctxs set_next_addr set_heap].
    by rewrite lookup_insert_ne. }
  assert (Ht2 : getT w2 target = Some StateT_new).
  { unfold getT, w2, alloc_ctx, w1, alloc. cbn [snd heap set_ctxs set_next_addr set_heap].
    by rewrite lookup_insert_eq. }
  destruct (then_each_all_ready fuel c target StateT_new ins [] w2)
    as (w' & HR & Hgt & Hful & Hoth & Hq & Hi); try done.
  { intros a v Hin. destruct (Hins a v Hin) as (s & Hs & H1 & H2). exists s.
    split; [|done]. rewrite Hg2; [done|]. intros ->. apply Htin.
    apply list_elem_of_fmap. by exists (target, v). }
  { unfold w2, alloc_ctx, c. cbn [snd ctxs set_ctxs]. rewrite lookup_insert_eq.
    unfold Ctx_all. by rewrite length_fmap. }
  exists (mkPromise target), w'. eexists.
  split.
  { replace (MkAllPromise (S fuel) ins.*1 None w)
      with (MkPromise (all_body (S fuel) ins.*1 None) w)
      by (destruct ins as [|[a v] ins']; done).
    unfold MkPromise, all_body.
    change (alloc (ObjT StateT_new) w) with (target, w1). cbn [fst snd].
    fold w2.
    change (fst (alloc_ctx (Ctx_all (length ins.*1)) w1)) with c.
    cbn [length] in HR. rewrite HR. done. }
  split; [done|]. split; [exact Hgt|]. split; [done|]. split; [done|].
  split; [done|]. split; [by rewrite Hq|by rewrite Hi].
Qed.

Lemma MkAllPromise_of_resolved_witness :
  let w := putT 0%nat (with_storage (Some (ROk (VInt 5)))
                         (with_machine (mkMachine kPreFulfilled) StateT_new))
             (putT 1%nat (with_storage (Some (ROk (VInt 6)))
                            (with_machine (mkMachine kPreFulfilled) StateT_new))
                (set_next_addr 2%nat World_empty)) in
  let ins := [(0%nat, VInt 5); (1%nat, VInt 6)] in
  exists p w' s,
    MkAllPromise 2 ins.*1 None w = Done (p, w') /\
    state_ p = next_addr w /\
    getT w' (state_ p) = Some s /\ status_ (machine s) = kPreFulfilled /\
    storage_ s = Some (ROk (VVec ins.*2)) /\
    (forall a, a ∈ ins.*1 -> status w' a = Some kFulfilled) /\
    queues w' = queues w /\ invoked w' = invoked w.
Proof.
  apply (MkAllPromise_of_resolved 1
           (putT 0%nat (with_storage (Some (ROk (VInt 5)))
                          (with_machine (mkMachine kPreFulfilled) StateT_new))
              (putT 1%nat (with_storage (Some (ROk (VInt 6)))
                             (with_machine (mkMachine kPreFulfilled) StateT_new))
                 (set_next_addr 2%nat World_empty)))
           [(0%nat, VInt 5); (1%nat, VInt 6)]).
  - discriminate.
  - apply NoDup_cons. split; [|apply NoDup_singleton].
    intros H. apply list_elem_of_singleton in H. discriminate H.
  - simpl. lia.
  - vm_compute. reflexivity.
  - intros a v H. apply elem_of_cons in H as [H|H].
    + inversion H; subst. eexists. split; [vm_compute; reflexivity|]. repeat split; reflexivity.
    + apply list_elem_of_singleton in H. inversion H; subst.
      eexists. split; [vm_compute; reflexivity|]. repeat split; reflexivity.
Defined.

(** What [Then] with the lambda of [MkRacePromise] and a null executor
    does on an input that is settled already: the lambda runs in place and
    hands the outcome to the target. *)
Lemma Then_void_race_ready fuel w a s r target :
  getT w a = Some s -> r <> RNull -> status_ (machine s) = pre_status r ->
  storage_ s = Some r -> next_ s = None ->
  exists w1,
    (forall x, x <> a -> heap w1 !! x = heap w !! x) /\
    status w1 a = Some (done_status r) /\
    queues w1 = queues w /\ invoked w1 = invoked w /\
    Then_void fuel (mkPromise a) (FnRace target) None w =
      (p <- settle fuel target r w1 ;; Done (snd p)).
Proof.
  intros Hs Hr Hst Hsto Hnx.
  set (cb := CbVoid a (FnRace target)).
  set (sa := with_executor None (with_callback (Some cb) s)).
  set (sb := with_machine (mkMachine (done_status r)) sa).
  set (sc := with_callback None sb).
  set (sd := with_storage (Some RNull) sc).
  set (w0 := putT a sd (putT a sc (putT a sb (putT a sa w)))).
  exists w0.
  split.
  { intros x Hx. unfold w0. rewrite !heap_putT. by rewrite !lookup_insert_ne. }
  split.
  { by rewrite (status_getT w0 a sd) by apply getT_putT. }
  split; [done|]. split; [done|].
  unfold Then_void, Attach_void, AddCallback. cbn [state_]. rewrite Hs.
  fold cb. fold sa.
  unfold TryInvokeCallback, TryInvokeCallback_with. rewrite getT_putT.
  cbn [callback_ machine sa with_executor with_callback]. rewrite bool_decide_true by done.
  rewrite (proj2 (IsPending_status _))
    by (rewrite Hst; unfold pre_status; destruct (Result_IsOk r); auto).
  cbn [andb].
  unfold RunInExecutor_with. rewrite getT_putT. cbn [executor_ sa with_executor].
  unfold run_thunk_with. rewrite getT_putT. cbn [machine sa with_executor with_callback].
  rewrite Hst.
  destruct r as [|v|e]; [done| |]; unfold pre_status; cbn [Result_IsOk].
  - unfold ToFulfilled, To. rewrite Hst. unfold pre_status. cbn [Result_IsOk].
    rewrite decide_True by done. cbn [snd].
    unfold InvokeCallback_with. fold sa. rewrite getT_putT.
    cbn [storage_ callback_ sa with_machine with_executor with_callback]. rewrite Hsto.
    fold sa. change (mkMachine kFulfilled) with (mkMachine (done_status (ROk v))).
    fold sb. fold sc.
    unfold run_callback, cb. rewrite heap_putT, lookup_insert_eq, next_putT.
    replace (next_ sc) with (next_ s) by (by destruct s). rewrite Hnx.
    unfold run_functor. cbn [Result_IsOk PassResult bind].
    unfold consume. rewrite getT_putT. fold sd. fold w0. done.
  - unfold ToRejected, To. rewrite Hst. unfold pre_status. cbn [Result_IsOk].
    rewrite decide_True by done. cbn [snd].
    unfold InvokeCallback_with. fold sa. rewrite getT_putT.
    cbn [storage_ callback_ sa with_machine with_executor with_callback]. rewrite Hsto.
    fold sa. change (mkMachine kRejected) with (mkMachine (done_status (RErr e))).
    fold sb. fold sc.
    unfold run_callback, cb. rewrite heap_putT, lookup_insert_eq, next_putT.
    replace (next_ sc) with (next_ s) by (by destruct s). rewrite Hnx.
    unfold run_functor. cbn [Result_IsOk PassError bind].
    unfold consume. rewrite getT_putT. fold sd. fold w0. done.
Qed.

Lemma settle_not_init fuel p r w s :
  getT w p = Some s -> status_ (machine s) <> kInit -> r <> RNull ->
  settle (S fuel) p r w = Done (false, w).
Proof.
  intros Hs Hi Hr. destruct r as [|v|e]; [done| |]; cbn [settle Resolve Reject];
    rewrite Hs; unfold IsEmpty; by rewrite bool_decide_false.
Qed.

Lemma settle_fresh fuel p r w s :
  getT w p = Some s -> status_ (machine s) = kInit -> callback_ s = None -> r <> RNull ->
  settle (S fuel) p r w =
    Done (true, putT p (with_machine (mkMachine (pre_status r))
                          (with_storage (Some r) s)) w).
Proof.
  intros Hs Hi Hc Hr. destruct r as [|v|e]; [done| |]; cbn [settle].
  - by apply Resolve_fresh.
  - by apply Reject_fresh.
Qed.

(** The loop of [MkRacePromise] over settled inputs once the target is
    settled: the later inputs are consumed and change nothing of it. *)
Lemma then_each_race_settled fuel target st :
  forall (ins : list (Addr * Result)) (idx : nat) (w : World),
    NoDup ins.*1 -> target ∉ ins.*1 ->
    (forall a r, (a, r) ∈ ins ->
       r <> RNull /\
       exists s, getT w a = Some s /\ status_ (machine s) = pre_status r /\
                 storage_ s = Some r /\ next_ s = None) ->
    getT w target = Some st -> status_ (machine st) <> kInit ->
    exists w',
      then_each (S fuel) (fun _ => FnRace target) None idx ins.*1 w = Done w' /\
      getT w' target = Some st /\
      (forall a r, (a, r) ∈ ins -> status w' a = Some (done_status r)) /\
      (forall x, x ∉ ins.*1 -> heap w' !! x = heap w !! x) /\
      queues w' = queues w /\ invoked w' = invoked w.
Proof.
  induction ins as [|[a r] ins IH]; intros idx w Hnd Ht Hins Hst Hi.
  { exists w. split; [done|]. split; [done|]. split; [intros a r H; inversion H|]. done. }
  rewrite fmap_cons in Hnd, Ht. cbn [fst] in Hnd, Ht.
  apply NoDup_cons in Hnd as [Ha Hnd]. rewrite not_elem_of_cons in Ht.
  destruct Ht as [Hta Ht].
  destruct (Hins a r ltac:(left)) as (Hr & s & Hs & Hss & Hsto & Hnx).
  destruct (Then_void_race_ready (S fuel) w a s r target Hs Hr Hss Hsto Hnx)
    as (w1 & Hh1 & Hs1 & Hq1 & Hi1 & HT).
  assert (Hgt : forall x, x <> a -> getT w1 x = getT w x).
  { intros x Hx. unfold getT. by rewrite Hh1. }
  assert (Hst1 : getT w1 target = Some st) by (rewrite Hgt; done).
  rewrite (settle_not_init fuel target r w1 st Hst1 Hi Hr) in HT. cbn [bind snd] in HT.
  rewrite !fmap_cons. cbn [fst snd then_each]. rewrite HT. cbn [bind].
  destruct (IH (S idx) w1 Hnd Ht) as (w' & HR & Hgt' & Hful & Hoth & Hq' & Hi'); try done.
  { intros x rx Hx. destruct (Hins x rx ltac:(by right)) as (Hrx & sx & Hsx & Hx1 & Hx2).
    split; [done|]. exists sx. split; [|done]. rewrite Hgt; [done|].
    intros ->. apply Ha. apply list_elem_of_fmap. by exists (a, rx). }
  exists w'. split; [done|]. split; [done|]. split.
  { intros x rx Hx. apply elem_of_cons in Hx as [Hx|Hx]; [|by apply Hful].
    inversion Hx; subst x rx. unfold status. rewrite Hoth by done. exact Hs1. }
  split.
  { intros x Hx. rewrite not_elem_of_cons in Hx. destruct Hx as [Hxa Hx].
    rewrite Hoth by done. by apply Hh1. }
  split; congruence.
Qed.

(** X17.  [MkRacePromise] with a null executor over promises that are all
    settled already (resolved or rejected, and not yet consumed) and have
    no state chained behind them: the promise it returns holds, before
    [MkRacePromise] returns, the outcome of the first promise of the
    range, value or error; the outcomes of the others are dropped.  Every input ends [fulfilled] or [rejected], and
    nothing is posted to any executor. *)
Theorem MkRacePromise_first_wins (fuel : nat) (w : World) (a0 : Addr) (r0 : Result)
    (ins : list (Addr * Result)) :
  NoDup ((a0, r0) :: ins).*1 ->
  heap w !! next_addr w = None ->
  (forall a r, (a, r) ∈ (a0, r0) :: ins ->
     r <> RNull /\
     exists s, getT w a = Some s /\ status_ (machine s) = pre_status r /\
               storage_ s = Some r /\ next_ s = None) ->
  exists p w' s,
    MkRacePromise (S fuel) ((a0, r0) :: ins).*1 None w = Done (p, w') /\
    state_ p = next_addr w /\
    getT w' (state_ p) = Some s /\ status_ (machine s) = pre_status r0 /\
    storage_ s = Some r0 /\
    (forall a r, (a, r) ∈ (a0, r0) :: ins -> status w' a = Some (done_status r)) /\
    queues w' = queues w /\ invoked w' = invoked w.
Proof.
  intros Hnd Hfresh Hins.
  set (target := next_addr w).
  set (w1 := snd (alloc (ObjT StateT_new) w)).
  assert (Htin : target ∉ ((a0, r0) :: ins).*1).
  { intros Hin. apply list_elem_of_fmap in Hin as ([a r] & Ha & Hin). simpl in Ha. subst a.
    destruct (Hins _ _ Hin) as (_ & s & Hs & _). apply getT_heap in Hs.
    unfold target in Hs. congruence. }
  assert (Hg1 : forall x, x <> target -> getT w1 x = getT w x).
  { intros x Hx. unfold getT, w1, alloc. cbn [snd heap set_next_addr set_heap].
    by rewrite lookup_insert_ne. }
  assert (Ht1 : getT w1 target = Some StateT_new).
  { unfold getT, w1, alloc. cbn [snd heap set_next_addr set_heap].
    by rewrite lookup_insert_eq. }
  rewrite fmap_cons in Hnd, Htin. cbn [fst] in Hnd, Htin.
  apply NoDup_cons in Hnd as [Ha0 Hnd]. rewrite not_elem_of_cons in Htin.
  destruct Htin as [Hta0 Htin].
  destruct (Hins a0 r0 ltac:(left)) as (Hr0 & s0 & Hs0 & Hss0 & Hsto0 & Hnx0).
  assert (Hs0' : getT w1 a0 = Some s0) by (rewrite Hg1; done).
  destruct (Then_void_race_ready (S fuel) w1 a0 s0 r0 target Hs0' Hr0 Hss0 Hsto0 Hnx0)
    as (w2 & Hh2 & Hs2 & Hq2 & Hi2 & HT).
  assert (Hgt2 : forall x, x <> a0 -> getT w2 x = getT w1 x).
  { intros x Hx. unfold getT. by rewrite Hh2. }
  assert (Ht2 : getT w2 target = Some StateT_new) by (rewrite Hgt2; done).
  rewrite (settle_fresh fuel target r0 w2 StateT_new Ht2) in HT by done.
  cbn [bind snd] in HT.
  set (st := with_machine (mkMachine (pre_status r0)) (with_storage (Some r0) StateT_new)) in *.
  set (w3 := putT target st w2) in *.
  destruct (then_each_race_settled fuel target st ins 1 w3 Hnd Htin)
    as (w' & HR & Hgt' & Hful & Hoth & Hq' & Hi').
  { intros x rx Hx. destruct (Hins x rx ltac:(by right)) as (Hrx & sx & Hsx & Hx1 & Hx2).
    split; [done|]. exists sx. split; [|done].
    assert (x <> a0).
    { intros ->. apply Ha0. apply list_elem_of_fmap. by exists (a0, rx). }
    assert (x <> target).
    { intros ->. apply Htin. apply list_elem_of_fmap. by exists (target, rx). }
    unfold w3. rewrite getT_putT_ne by done. rewrite Hgt2, Hg1; done. }
  { apply getT_putT. }
  { unfold st, pre_status. cbn [machine with_machine status_].
    by destruct (Result_IsOk r0). }
  exists (mkPromise target), w', st.
  split.
  { unfold MkRacePromise. rewrite fmap_cons. unfold MkPromise, race_body.
    change (alloc (ObjT StateT_new) w) with (target, w1). cbn [fst snd then_each].
    rewrite HT. cbn [bind]. rewrite HR. done. }
  split; [done|]. split; [done|]. split; [done|]. split; [done|]. split.
  { intros x rx Hx. apply elem_of_cons in Hx as [Hx|Hx]; [|by apply Hful].
    inversion Hx; subst x rx. unfold status. rewrite Hoth by done.
    unfold w3. rewrite heap_putT, lookup_insert_ne by done. exact Hs2. }
  split.
  { rewrite Hq'. change (queues w2 = queues w). by rewrite Hq2. }
  rewrite Hi'. change (invoked w2 = invoked w). by rewrite Hi2.
Qed.

Lemma MkRacePromise_first_wins_witness :
  let w := putT 0%nat (with_storage (Some (RErr (MkSysError 5)))
                         (with_machine (mkMachine kPreRejected) StateT_new))
             (putT 1%nat (with_storage (Some (ROk (VInt 6)))
                            (with_machine (mkMachine kPreFulfilled) StateT_new))
                (set_next_addr 2%nat World_empty)) in
  let r0 := RErr (MkSysError 5) in
  let ins := [(1%nat, ROk (VInt 6))] in
  exists p w' s,
    MkRacePromise 2 ((0%nat, r0) :: ins).*1 None w = Done (p, w') /\
    state_ p = next_addr w /\
    getT w' (state_ p) = Some s /\ status_ (machine s) = pre_status r0 /\
    storage_ s = Some r0 /\
    (forall a r, (a, r) ∈ (0%nat, r0) :: ins -> status w' a = Some (done_status r)) /\
    queues w' = queues w /\ invoked w' = invoked w.
Proof.
  apply (MkRacePromise_first_wins 1
           (putT 0%nat (with_storage (Some (RErr (MkSysError 5)))
                          (with_machine (mkMachine kPreRejected) StateT_new))
              (putT 1%nat (with_storage (Some (ROk (VInt 6)))
                             (with_machine (mkMachine kPreFulfilled) StateT_new))
                 (set_next_addr 2%nat World_empty)))
           0%nat (RErr (MkSysError 5)) [(1%nat, ROk (VInt 6))]).
  - apply NoDup_cons. split; [|apply NoDup_singleton].
    intros H. apply list_elem_of_singleton in H. discriminate H.
  - vm_compute. reflexivity.
  - intros a r H. apply elem_of_cons in H as [H|H].
    + inversion H; subst. split; [discriminate|].
      eexists. split; [vm_compute; reflexivity|]. repeat split; reflexivity.
    + apply list_elem_of_singleton in H. inversion H; subst. split; [discriminate|].
      eexists. split; [vm_compute; reflexivity|]. repeat split; reflexivity.
Defined.

End PromFacts.
